(** * Reduction of stochastic parity games to simple stochastic games

    A shallow embedding of [src/spg_to_ssg_reduction.py]: the precision
    analyzer [max_denom_and_min_prob], the alpha derivation
    [compute_alphas_for_spg] and the graph transformer [spg_to_ssg]; and
    of the generators of [src/benchmarking_global.py] whose games the
    benchmarks pass to the reduction: [create_chain_spg],
    [create_mutex_spg] and [create_random_spg].

    Conventions of the embedding.
    - A Python [Fraction] is a canonical rational [Qc]: both are kept in
      lowest terms with a positive denominator, so Leibniz equality on
      [Qc] is Python's [==] on fractions and [Qden] is [.denominator].
      The development covers the exact-arithmetic configuration
      ([settings.USE_EXACT_ARITHMETIC = True]), in which probabilities
      and alphas are fractions; the conversion [float(v)] of the other
      configuration is floating point and is not part of the embedding.
    - A Python [dict] is a [gmap], a Python [set] a [gset]; [dict.values()]
      of the input game, which the code only iterates and counts, is a
      list in insertion order.
    - A raised exception is a value [Raise e] of the [result] monad. *)

From Stdlib Require Import ZArith QArith Qcanon Lia Lqa Znumtheory.
From stdpp Require Import base option numbers list strings gmap sorting pretty.

Local Open Scope Z_scope.

(** ** Python exceptions as an error monad *)

Inductive exn : Type :=
  | ValueError          (* min()/max() of an empty collection, bad argument *)
  | KeyError            (* dict lookup of a missing key *)
  | IndexError          (* list index out of range *)
  | ZeroDivisionError   (* division by zero *)
  | EmptyGameError      (* named by the specification; raised nowhere *)
  | MissingAlphaError   (* named by the specification; raised nowhere *)
  | FuelExhausted.      (* a loop of the model ran out of its bound *)

Inductive result (A : Type) : Type :=
  | Ok (a : A)
  | Raise (e : exn).
Arguments Ok {A} a.
Arguments Raise {A} e.

Definition bind {A B} (m : result A) (k : A -> result B) : result B :=
  match m with
  | Ok a => k a
  | Raise e => Raise e
  end.

Notation "x <- m ;; k" := (bind m (fun x => k))
  (at level 100, m at next level, right associativity).

(** [for x in l: acc = body(acc, x)] where the body may raise. *)
Fixpoint foldM {A S} (body : S -> A -> result S) (acc : S) (l : list A)
  : result S :=
  match l with
  | [] => Ok acc
  | x :: l' => acc' <- body acc x ;; foldM body acc' l'
  end.

(** [[f(x) for x in l]] where [f] may raise. *)
Fixpoint mapM_r {A B} (f : A -> result B) (l : list A) : result (list B) :=
  match l with
  | [] => Ok []
  | x :: l' => y <- f x ;; ys <- mapM_r f l' ;; Ok (y :: ys)
  end.

(** [d[k]] on a dict. *)
Definition getitem `{Countable K} {V} (d : gmap K V) (k : K) : result V :=
  match d !! k with
  | Some v => Ok v
  | None => Raise KeyError
  end.

(** [l[0]] on a list. *)
Definition first {A} (l : list A) : result A :=
  match l with
  | x :: _ => Ok x
  | [] => Raise IndexError
  end.

(** ** Fractions *)

(** An [int] used in fraction arithmetic is [Qc_of_Z]. *)

Definition numerator (x : Qc) : Z := Qnum (this x).
Definition denominator (x : Qc) : Z := Z.pos (Qden (this x)).

(** [Fraction(p, q)] for [q > 0]. *)
Definition Fraction (p q : Z) : Qc := Q2Qc (p # Z.to_pos q).

(** [a / b]: Python raises [ZeroDivisionError] on a zero divisor. *)
Definition truediv (a b : Qc) : result Qc :=
  if decide (b = 0%Qc) then Raise ZeroDivisionError else Ok (a / b)%Qc.

(** [min(xs)] keeps the first smallest element; [ValueError] on empty. *)
Definition py_min (xs : list Qc) : result Qc :=
  match xs with
  | [] => Raise ValueError
  | x :: xs' => Ok (foldl (fun m y => if decide (y < m)%Qc then y else m) x xs')
  end.

Definition py_max (xs : list Z) : result Z :=
  match xs with
  | [] => Raise ValueError
  | x :: xs' => Ok (foldl (fun m y => if decide (m < y) then y else m) x xs')
  end.

(** The loop of [Fraction.limit_denominator] (CPython, [fractions.py]):
<<
    p0, q0, p1, q1 = 0, 1, 1, 0
    n, d = self._numerator, self._denominator
    while True:
        a = n//d
        q2 = q0+a*q1
        if q2 > max_denominator: break
        p0, q0, p1, q1 = p1, q1, p0+a*p1, q2
        n, d = d, n-a*d
>>
    The state at the [break] is returned. *)
Fixpoint limit_denominator_loop (fuel : nat) (max_denominator : Z)
    (p0 q0 p1 q1 n d : Z) : result (Z * Z * Z * Z * Z) :=
  match fuel with
  | O => Raise FuelExhausted
  | S fuel' =>
      if d =? 0 then Raise ZeroDivisionError else
      let a := n / d in
      let q2 := q0 + a * q1 in
      if max_denominator <? q2 then Ok (p0, q0, p1, q1, d)
      else limit_denominator_loop fuel' max_denominator
             p1 q1 (p0 + a * p1) q2 d (n - a * d)
  end.

(** [Fraction.limit_denominator(self, max_denominator)]:
<<
    if max_denominator < 1: raise ValueError(...)
    if self._denominator <= max_denominator: return Fraction(self)
    ... loop ...
    k = (max_denominator-q0)//q1
    if 2*d*(q0+k*q1) <= self._denominator: return Fraction(p1, q1)
    else: return Fraction(p0+k*p1, q0+k*q1)
>>
    The loop runs at most [denominator] times, which bounds the fuel. *)
Definition limit_denominator (self : Qc) (max_denominator : Z) : result Qc :=
  if max_denominator <? 1 then Raise ValueError else
  if denominator self <=? max_denominator then Ok self else
  st <- limit_denominator_loop (S (Z.to_nat (denominator self)))
          max_denominator 0 1 1 0 (numerator self) (denominator self) ;;
  let '(p0, q0, p1, q1, d) := st in
  if q1 =? 0 then Raise ZeroDivisionError else
  let k := (max_denominator - q0) / q1 in
  if 2 * d * (q0 + k * q1) <=? denominator self
  then Ok (Fraction p1 q1)
  else Ok (Fraction (p0 + k * p1) (q0 + k * q1)).

(** ** Game data model

    The modules [stochasticparitygame] and [simplestochasticgame] that
    declare the classes are not among the sources; the classes are records
    of the fields the reduction reads and writes, as the data model of the
    specification lists them.  Vertices are compared by their fields. *)

Module SPG.

(** Modelled from the spec: the class [SpgVertex] of the missing module
    [stochasticparitygame] (name, owner flag, integer priority). *)
Record SpgVertex : Type := mkSpgVertex
  { name : string; is_eve : bool; priority : Z }.

#[global] Instance SpgVertex_eq_dec : EqDecision SpgVertex.
Proof. solve_decision. Defined.

#[global] Program Instance SpgVertex_countable : Countable SpgVertex :=
  inj_countable' (fun v => (name v, is_eve v, priority v))
                 (fun t => mkSpgVertex t.1.1 t.1.2 t.2) _.
Next Obligation. by intros []. Qed.

(** Modelled from the spec: the class [SpgTransition] of the missing
    module [stochasticparitygame] (source vertex, set of (probability,
    vertex) pairs, action label). *)
Record SpgTransition : Type := mkSpgTransition
  { start_vertex : SpgVertex;
    end_vertices : gset (Qc * SpgVertex);
    action : string }.

(** Modelled from the spec: the class [StochasticParityGame] of the
    missing module [stochasticparitygame]; [vertices] and [transitions]
    are the [.values()] of its two dicts. *)
Record StochasticParityGame : Type := mkStochasticParityGame
  { vertices : list SpgVertex;
    transitions : list SpgTransition;
    init_vertex : SpgVertex }.

End SPG.

Module SSG.

(** Modelled from the spec: the class [SsgVertex] of the missing module
    [simplestochasticgame] (name, owner flag, target flag). *)
Record SsgVertex : Type := mkSsgVertex
  { name : string; is_eve : bool; is_target : bool }.

#[global] Instance SsgVertex_eq_dec : EqDecision SsgVertex.
Proof. solve_decision. Defined.

#[global] Program Instance SsgVertex_countable : Countable SsgVertex :=
  inj_countable' (fun v => (name v, is_eve v, is_target v))
                 (fun t => mkSsgVertex t.1.1 t.1.2 t.2) _.
Next Obligation. by intros []. Qed.

(** Modelled from the spec: the class [SsgTransition] of the missing
    module [simplestochasticgame], of the same structure as
    [SpgTransition]. *)
Record SsgTransition : Type := mkSsgTransition
  { start_vertex : SsgVertex;
    end_vertices : gset (Qc * SsgVertex);
    action : string }.

(** Modelled from the spec: the class [SimpleStochasticGame] of the
    missing module [simplestochasticgame] (vertex dict by name, transition
    dict by (vertex, action), initial vertex). *)
Record SimpleStochasticGame : Type := mkSimpleStochasticGame
  { vertices : gmap string SsgVertex;
    transitions : gmap (SsgVertex * string) SsgTransition;
    init_vertex : SsgVertex }.

End SSG.

Import SPG SSG.

(** ** Precision analyzer *)

(** The set [floats] of all branch probabilities:
<<
    floats = set()
    for transition in spg.transitions.values():
        for prob, vert in transition.end_vertices:
            floats.add(prob)
>> *)
Definition collect_floats (spg : StochasticParityGame) : gset Qc :=
  foldl (fun floats transition =>
           set_fold (fun pv acc => {[ pv.1 ]} ∪ acc) floats
                    (SPG.end_vertices transition))
        ∅ (SPG.transitions spg).

(** Lines 21-26.  The list comprehension over [floats] runs before [min]
    and [max] are taken. *)
Definition max_denom_and_min_prob (spg : StochasticParityGame) (max_d : Z)
  : result (Qc * Z) :=
  let floats := elements (collect_floats spg) in
  fractions <- mapM_r (fun f => limit_denominator f max_d) floats ;;
  m <- py_min floats ;;
  M <- py_max (denominator <$> fractions) ;;
  Ok (m, M).

(** ** Alpha derivation *)

Definition factorial (n : nat) : Z := Z.of_nat (fact n).

(** The loop shared by both branches (lines 56-59 and 66-69):
<<
    alphas = { used[0]: alpha0 }
    for prev_k, next_k in zip(used, used[1:]):
        gap = next_k - prev_k
        alphas[next_k] = alphas[prev_k] * ratio_bound
>> *)
Definition decay (used : list Z) (alpha0 ratio_bound : Qc)
  : result (gmap Z Qc) :=
  p0 <- first used ;;
  foldM (fun (alphas : gmap Z Qc) '(prev_k, next_k) =>
           let gap := next_k - prev_k in
           a <- getitem alphas prev_k ;;
           Ok (<[next_k := (a * ratio_bound)%Qc]> alphas))
        {[ p0 := alpha0 ]} (zip used (tail used)).

(** Line 45: [sorted({v.priority for v in spg.vertices.values()})]. *)
Definition sorted_priorities (spg : StochasticParityGame) : list Z :=
  merge_sort Z.le
    (elements (list_to_set (SPG.priority <$> SPG.vertices spg) : gset Z)).

(** Lines 41-72 under exact arithmetic; [epsilon = None] is the sound
    mode. *)
Definition compute_alphas_for_spg (spg : StochasticParityGame)
    (epsilon : option Qc) (max_d : Z) : result (gmap Z Qc) :=
  dm <- max_denom_and_min_prob spg max_d ;;
  let '(delta_min_float, max_denominator_M) := dm in
  let n_states := length (SPG.vertices spg) in
  let used := sorted_priorities spg in
  delta_min <- limit_denominator delta_min_float max_d ;;
  let one_minus := (1 - delta_min)%Qc in
  match epsilon with
  | None =>
      let numerator := (delta_min ^ n_states)%Qc in
      let denominator :=
        8 * factorial n_states ^ 2
          * max_denominator_M ^ (2 * Z.of_nat n_states * Z.of_nat n_states) in
      alpha0 <- truediv numerator (Qc_of_Z denominator) ;;
      ratio_bound <-
        truediv (one_minus * delta_min ^ n_states)%Qc
                (Qc_of_Z (denominator + 1)) ;;
      decay used alpha0 ratio_bound
  | Some epsilon =>
      let four := Qc_of_Z 4 in
      let eight := Qc_of_Z 8 in
      let numerator := (four * epsilon * delta_min ^ n_states)%Qc in
      let denominator := ((four - epsilon) * eight)%Qc in
      alpha0 <- truediv numerator denominator ;;
      inner <- truediv (eight * (four - epsilon))%Qc (four * epsilon)%Qc ;;
      ratio_bound <-
        truediv (one_minus * delta_min ^ n_states)%Qc (inner + 1)%Qc ;;
      decay used alpha0 ratio_bound
  end.

(** ** Graph transformer *)

(** [k in d.keys()]. *)
Definition contains `{Countable K} {V} (d : gmap K V) (k : K) : bool :=
  bool_decide (is_Some (d !! k)).

(** [str(i)] of a non-negative int is its decimal numeral. *)
Definition str (i : nat) : string := pretty i.

(** The suffix search used three times:
<<
    i = 0
    while vertices.keys().__contains__(base+str(i)):
        i += 1
>>
    [vertices] has finitely many keys, so [size vertices + 1] rounds
    suffice. *)
Fixpoint first_free (fuel : nat) (vertices : gmap string SsgVertex)
    (base : string) (i : nat) : result nat :=
  match fuel with
  | O => Raise FuelExhausted
  | S fuel' =>
      if contains vertices (base +:+ str i)
      then first_free fuel' vertices base (S i)
      else Ok i
  end.

Definition suffix_search (vertices : gmap string SsgVertex) (base : string)
  : result nat :=
  first_free (S (size vertices)) vertices base 0.

(** Lines 97-99: one decision vertex per SPG vertex; [vertices[v.name]]
    read back on line 99 is the vertex stored on line 98. *)
Definition decision_vertices (spg : StochasticParityGame)
  : gmap string SsgVertex * gmap SpgVertex SsgVertex :=
  foldl (fun '(vertices, respective_spg_ssg_vertixes) v =>
           let d := mkSsgVertex (SPG.name v) (SPG.is_eve v) false in
           (<[SPG.name v := d]> vertices,
            <[v := d]> respective_spg_ssg_vertixes))
        (∅, ∅) (SPG.vertices spg).

(** Lines 104-112: the body of the loop creating intermediate vertices;
    [new_vertices[...]] read back on lines 106 and 112 is the vertex just
    stored. *)
Definition add_intermediate (vertices : gmap string SsgVertex)
    (st : gmap string SsgVertex * gmap SsgVertex SsgVertex) (v : SpgVertex)
  : result (gmap string SsgVertex * gmap SsgVertex SsgVertex) :=
  let '(new_vertices, respective_intermediate_vertices) := st in
  if negb (contains vertices (SPG.name v +:+ "'")) then
    let nv := mkSsgVertex (SPG.name v +:+ "'") (negb (SPG.is_eve v)) false in
    dv <- getitem vertices (SPG.name v) ;;
    Ok (<[SPG.name v +:+ "'" := nv]> new_vertices,
        <[dv := nv]> respective_intermediate_vertices)
  else
    i <- suffix_search vertices (SPG.name v +:+ "'") ;;
    let nv := mkSsgVertex ((SPG.name v +:+ "'") +:+ str i)
                          (negb (SPG.is_eve v)) false in
    dv <- getitem vertices (SPG.name v) ;;
    Ok (<[(SPG.name v +:+ "'") +:+ str i := nv]> new_vertices,
        <[dv := nv]> respective_intermediate_vertices).

(** Lines 114-120 and 121-127: a sink under its name, or under the name
    with the first free numeric suffix. *)
Definition add_sink (vertices : gmap string SsgVertex) (base : string)
    (eve target : bool) : result (gmap string SsgVertex) :=
  if negb (contains vertices base) then
    Ok (<[base := mkSsgVertex base eve target]> vertices)
  else
    i <- suffix_search vertices base ;;
    Ok (<[base +:+ str i := mkSsgVertex (base +:+ str i) eve target]>
          vertices).

(** Lines 130-135: the body of the loop copying the transitions. *)
Definition copy_transition (vertices : gmap string SsgVertex)
    (respective_intermediate_vertices : gmap SsgVertex SsgVertex)
    (transitions : gmap (SsgVertex * string) SsgTransition)
    (transition : SpgTransition)
  : result (gmap (SsgVertex * string) SsgTransition) :=
  start_v <- getitem vertices (SPG.name (SPG.start_vertex transition)) ;;
  let action := SPG.action transition in
  end_vs <-
    foldM (fun (end_vs : gset (Qc * SsgVertex)) '(prob, end_v) =>
             d <- getitem vertices (SPG.name end_v) ;;
             i <- getitem respective_intermediate_vertices d ;;
             Ok ({[ (prob, i) ]} ∪ end_vs))
          ∅ (elements (SPG.end_vertices transition)) ;;
  Ok (<[(start_v, action) := mkSsgTransition start_v end_vs action]>
        transitions).

(** Lines 138-141: the body of the loop adding the alpha transitions.
    The sinks are looked up under the literal keys "v_win" and "v_lose". *)
Definition add_alpha_transition (alphas : gmap Z Qc)
    (vertices : gmap string SsgVertex)
    (respective_spg_ssg_vertixes : gmap SpgVertex SsgVertex)
    (respective_intermediate_vertices : gmap SsgVertex SsgVertex)
    (transitions : gmap (SsgVertex * string) SsgTransition)
    (vertex : SpgVertex)
  : result (gmap (SsgVertex * string) SsgTransition) :=
  let sink := if SPG.priority vertex mod 2 =? 0 then "v_win" else "v_lose" in
  d <- getitem respective_spg_ssg_vertixes vertex ;;
  i <- getitem respective_intermediate_vertices d ;;
  a <- getitem alphas (SPG.priority vertex) ;;
  s <- getitem vertices sink ;;
  back <- getitem vertices (SSG.name d) ;;
  Ok (<[(i, "alpha") :=
          mkSsgTransition i {[ (a, s); ((1 - a)%Qc, back) ]} "alpha"]>
        transitions).

(** Lines 92-142 of [spg_to_ssg], with the alpha map as an argument. *)
Definition graph_transformer (spg : StochasticParityGame)
    (alphas : gmap Z Qc) : result SimpleStochasticGame :=
  let '(vertices, respective_spg_ssg_vertixes) := decision_vertices spg in
  initial_vertex <- getitem vertices (SPG.name (SPG.init_vertex spg)) ;;
  st <- foldM (add_intermediate vertices) (∅, ∅) (SPG.vertices spg) ;;
  let '(new_vertices, respective_intermediate_vertices) := st in
  let vertices := new_vertices ∪ vertices in
  vertices <- add_sink vertices "v_win" true true ;;
  vertices <- add_sink vertices "v_lose" false false ;;
  transitions <-
    foldM (copy_transition vertices respective_intermediate_vertices)
          ∅ (SPG.transitions spg) ;;
  transitions <-
    foldM (add_alpha_transition alphas vertices respective_spg_ssg_vertixes
             respective_intermediate_vertices)
          transitions (SPG.vertices spg) ;;
  Ok (mkSimpleStochasticGame vertices transitions initial_vertex).

(** [spg_to_ssg(spg, epsilon)]; [print_alphas] only prints. *)
Definition spg_to_ssg (spg : StochasticParityGame) (epsilon : option Qc)
  : result SimpleStochasticGame :=
  alphas <- compute_alphas_for_spg spg epsilon 10000 ;;
  graph_transformer spg alphas.

(** ** Benchmark generators ([src/benchmarking_global.py])

    The generators fill two dicts and hand them to the constructor of the
    game; the reduction reads their [values()] in insertion order.  Such a
    dict is the list of its items: [d[k] = v] replaces the value of a key
    that is present, in place, and appends a key that is new.
    Probabilities are fractions, as everywhere in this development: the
    argument [min_prob] is one, and [1 - min_prob] is exact. *)

Fixpoint od_setitem `{EqDecision K} {V} (d : list (K * V)) (k : K) (v : V)
  : list (K * V) :=
  match d with
  | [] => [(k, v)]
  | (k', v') :: d' =>
      if decide (k' = k) then (k', v) :: d' else (k', v') :: od_setitem d' k v
  end.

(** [d[k]]. *)
Fixpoint od_getitem `{EqDecision K} {V} (d : list (K * V)) (k : K)
  : result V :=
  match d with
  | [] => Raise KeyError
  | (k', v') :: d' => if decide (k' = k) then Ok v' else od_getitem d' k
  end.

(** [d.values()]. *)
Definition od_values {K V} (d : list (K * V)) : list V := snd <$> d.

(** [str(i)] of an int. *)
Definition str_int (i : Z) : string := pretty i.

(** [create_chain_spg(length, min_prob)], lines 13-22.  In a subscript
    assignment the value on the right is evaluated before the key. *)
Definition create_chain_spg (length : Z) (min_prob : Qc)
  : result StochasticParityGame :=
  let vertices :=
    foldl (fun vertices i =>
             od_setitem vertices ("v" +:+ str i)
               (mkSpgVertex ("v" +:+ str i) true 0))
          [] (seq 0 (Z.to_nat (length + 1))) in
  transitions <-
    foldM (fun transitions i =>
             s <- od_getitem vertices ("v" +:+ str i) ;;
             n <- od_getitem vertices ("v" +:+ str (i + 1)) ;;
             z <- od_getitem vertices ("v" +:+ "0") ;;
             k <- od_getitem vertices ("v" +:+ str i) ;;
             Ok (od_setitem transitions (k, "next")
                   (mkSpgTransition s
                      {[ (min_prob, n); ((1 - min_prob)%Qc, z) ]} "next")))
          [] (seq 0 (Z.to_nat length)) ;;
  s <- od_getitem vertices ("v" +:+ str_int length) ;;
  e <- od_getitem vertices ("v" +:+ str_int length) ;;
  k <- od_getitem vertices ("v" +:+ str_int length) ;;
  let transitions :=
    od_setitem transitions (k, "end")
      (mkSpgTransition s {[ (1%Qc, e) ]} "end") in
  initial_vertex <- od_getitem vertices "v0" ;;
  Ok (mkStochasticParityGame (od_values vertices) (od_values transitions)
        initial_vertex).

(** The vertex [i] of a chain and the chain of length [n] in closed
    form. *)
Definition chain_vertex (i : nat) : SpgVertex :=
  mkSpgVertex ("v" +:+ str i) true 0.

Definition chain_step (min_prob : Qc) (i : nat) : SpgTransition :=
  mkSpgTransition (chain_vertex i)
    {[ (min_prob, chain_vertex (S i)); ((1 - min_prob)%Qc, chain_vertex 0) ]}
    "next".

Definition chain_end (n : nat) : SpgTransition :=
  mkSpgTransition (chain_vertex n) {[ (1%Qc, chain_vertex n) ]} "end".

Definition chain (n : nat) (min_prob : Qc) : StochasticParityGame :=
  mkStochasticParityGame (chain_vertex <$> seq 0 (S n))
    ((chain_step min_prob <$> seq 0 n) ++ [chain_end n]) (chain_vertex 0).

(** A dict display [{k1: v1, k2: v2, ...}]: the items are stored from left
    to right. *)
Definition od_of_items `{EqDecision K} {V} (items : list (K * V))
  : list (K * V) :=
  foldl (fun d kv => od_setitem d kv.1 kv.2) [] items.

(** One item of the transition dict of [create_mutex_spg] (lines 48-72):
<<
    (vertices[kv], kact): SpgTransition(start_vertex=vertices[sv],
        end_vertices={(0.5, vertices[a]), (0.5, vertices[b])}, action=act)
>>
    The key is evaluated before the value. *)
Definition mutex_item (vertices : list (string * SpgVertex))
    (row : string * string * string * string * string * string)
  : result ((SpgVertex * string) * SpgTransition) :=
  let '(kv, kact, sv, a, b, act) := row in
  k <- od_getitem vertices kv ;;
  s <- od_getitem vertices sv ;;
  x <- od_getitem vertices a ;;
  y <- od_getitem vertices b ;;
  Ok ((k, kact),
      mkSpgTransition s {[ (Q2Qc (1 # 2), x); (Q2Qc (1 # 2), y) ]} act).

(** [create_mutex_spg()], lines 25-75.  Every row gives, in the order of
    the source line, the name in the key, the action in the key, the name
    of [start_vertex], the names of the two targets and [action]. *)
Definition create_mutex_spg : result StochasticParityGame :=
  let vertices :=
    od_of_items
    [ ("start", mkSpgVertex "start" true 0);
      ("(N,N,0)", mkSpgVertex "(N,N,0)" true 3);
      ("(N,N,1)", mkSpgVertex "(N,N,1)" false 3);
      ("(N,T,0)", mkSpgVertex "(N,T,0)" true 3);
      ("(N,T,1)", mkSpgVertex "(N,T,1)" false 3);
      ("(N,C,0)", mkSpgVertex "(N,C,0)" true 3);
      ("(N,C,1)", mkSpgVertex "(N,C,1)" false 3);
      ("(T,N,0)", mkSpgVertex "(T,N,0)" true 3);
      ("(T,N,1)", mkSpgVertex "(T,N,1)" false 3);
      ("(T,T,0)", mkSpgVertex "(T,T,0)" true 3);
      ("(T,T,1)", mkSpgVertex "(T,T,1)" false 3);
      ("(T,C,0)", mkSpgVertex "(T,C,0)" true 3);
      ("(T,C,1)", mkSpgVertex "(T,C,1)" false 3);
      ("(C,N,0)", mkSpgVertex "(C,N,0)" true 2);
      ("(C,N,1)", mkSpgVertex "(C,N,1)" false 2);
      ("(C,T,0)", mkSpgVertex "(C,T,0)" true 2);
      ("(C,T,1)", mkSpgVertex "(C,T,1)" false 2);
      ("(C,C,0)", mkSpgVertex "(C,C,0)" true 1);
      ("(C,C,1)", mkSpgVertex "(C,C,1)" false 1) ] in
  items <-
    mapM_r (mutex_item vertices)
    [ ("start", "start", "start", "(N,N,0)", "(N,N,1)", "enter");
      ("(N,N,0)", "stay", "(N,N,0)", "(N,N,0)", "(N,N,1)", "stay");
      ("(N,N,0)", "try", "(N,N,0)", "(T,N,0)", "(T,N,1)", "try");
      ("(N,N,1)", "stay", "(N,N,1)", "(N,N,0)", "(N,N,1)", "try");
      ("(N,N,1)", "try", "(N,N,1)", "(N,T,0)", "(N,T,1)", "try");
      ("(N,T,0)", "stay", "(N,T,0)", "(N,T,0)", "(N,T,1)", "try");
      ("(N,T,0)", "try", "(N,T,0)", "(T,T,0)", "(T,T,1)", "try");
      ("(N,T,1)", "enter", "(N,T,1)", "(N,C,0)", "(N,C,1)", "try");
      ("(N,C,0)", "stay", "(N,C,0)", "(N,C,0)", "(N,C,1)", "try");
      ("(N,C,0)", "try", "(N,C,0)", "(T,C,0)", "(T,C,1)", "try");
      ("(N,C,1)", "exit", "(N,C,0)", "(N,N,0)", "(N,N,1)", "try");
      ("(T,N,0)", "enter", "(T,N,0)", "(C,N,0)", "(C,N,1)", "try");
      ("(T,N,1)", "stay", "(T,N,1)", "(T,N,0)", "(T,N,1)", "try");
      ("(T,N,1)", "try", "(T,N,1)", "(T,T,0)", "(T,T,1)", "try");
      ("(T,T,0)", "enter", "(T,T,0)", "(C,T,0)", "(C,T,1)", "try");
      ("(T,T,1)", "enter", "(T,T,1)", "(T,C,0)", "(T,C,1)", "try");
      ("(T,C,0)", "enter", "(T,C,0)", "(C,C,0)", "(C,C,1)", "try");
      ("(T,C,1)", "exit", "(T,C,1)", "(T,N,0)", "(T,N,1)", "try");
      ("(C,N,0)", "exit", "(C,N,0)", "(N,N,0)", "(N,N,1)", "try");
      ("(C,N,1)", "stay", "(C,N,1)", "(C,N,0)", "(C,N,1)", "try");
      ("(C,N,1)", "try", "(C,N,1)", "(C,T,0)", "(C,T,1)", "try");
      ("(C,T,0)", "exit", "(C,T,0)", "(N,T,0)", "(N,T,1)", "try");
      ("(C,T,1)", "enter", "(C,T,1)", "(C,C,0)", "(C,C,1)", "try");
      ("(C,C,0)", "exit", "(C,C,0)", "(N,C,0)", "(N,C,1)", "try");
      ("(C,C,1)", "exit", "(C,C,1)", "(C,N,0)", "(C,N,1)", "try") ] ;;
  let transitions := od_of_items items in
  initial_vertex <- od_getitem vertices "start" ;;
  Ok (mkStochasticParityGame (od_values vertices) (od_values transitions)
        initial_vertex).

(** The game that [create_mutex_spg] returns. *)
Definition mutex_game : StochasticParityGame :=
  match create_mutex_spg with
  | Ok spg => spg
  | Raise _ => mkStochasticParityGame [] [] (mkSpgVertex "" true 0)
  end.

(** *** The random generator

    [create_random_spg] draws from the module [random].  The draws of one
    run are a sequence [draws] of numbers, consumed from left to right; a
    computation that draws takes the number of draws made so far and
    returns it updated.  Every property below holds for all sequences, or
    names one. *)

(** [random.randint(a, b)]: an int of [[a, b]]; [ValueError] on an empty
    range. *)
Definition randint (draws : nat -> nat) (a b : Z) (p : nat)
  : result (Z * nat) :=
  if b <? a then Raise ValueError
  else Ok (a + Z.of_nat (draws p) mod (b - a + 1), S p).

(** [random.choice(seq)]: an element of [seq]; [IndexError] on an empty
    sequence. *)
Definition choice {A} (draws : nat -> nat) (seq : list A) (p : nat)
  : result (A * nat) :=
  match seq !! (draws p mod length seq)%nat with
  | Some x => Ok (x, S p)
  | None => Raise IndexError
  end.

(** One item of the dict comprehension of line 329; the arguments of the
    constructor are evaluated from left to right. *)
Definition random_vertex (draws : nat -> nat) (number_of_priorities : Z)
    (st : list (string * SpgVertex) * nat) (i : nat)
  : result (list (string * SpgVertex) * nat) :=
  let '(vertices, p) := st in
  r <- randint draws 0 1 p ;;
  let '(e, p) := r in
  r <- randint draws 0 (number_of_priorities - 1) p ;;
  let '(priority, p) := r in
  Ok (od_setitem vertices ("v_" +:+ str i)
        (mkSpgVertex ("v_" +:+ str i) (e =? 1) priority), p).

(** The body of the inner loop, lines 334-338. *)
Definition random_transition (draws : nat -> nat)
    (vertices : list (string * SpgVertex)) (vertex : SpgVertex)
    (st : list ((SpgVertex * string) * SpgTransition) * nat) (i : nat)
  : result (list ((SpgVertex * string) * SpgTransition) * nat) :=
  let '(transitions, p) := st in
  r <- randint draws 0 1 p ;;
  let '(c, p) := r in
  if c =? 1 then
    r <- choice draws (od_values vertices) p ;;
    let '(w, p) := r in
    Ok (od_setitem transitions (vertex, "action_" +:+ str i)
          (mkSpgTransition vertex {[ (1%Qc, w) ]} ("action_" +:+ str i)), p)
  else
    r <- choice draws (od_values vertices) p ;;
    let '(w1, p) := r in
    r <- choice draws (od_values vertices) p ;;
    let '(w2, p) := r in
    Ok (od_setitem transitions (vertex, "action_" +:+ str i)
          (mkSpgTransition vertex
             {[ (Q2Qc (1 # 2), w1); (Q2Qc (1 # 2), w2) ]}
             ("action_" +:+ str i)), p).

(** [create_random_spg(number_of_vertices, number_of_outgoing_transitions,
    number_of_priorities)], lines 328-340, for the draws [draws]. *)
Definition create_random_spg (draws : nat -> nat)
    (number_of_vertices number_of_outgoing_transitions
       number_of_priorities : Z) : result StochasticParityGame :=
  st <- foldM (random_vertex draws number_of_priorities) ([], 0%nat)
          (seq 0 (Z.to_nat number_of_vertices)) ;;
  let '(vertices, p) := st in
  st <- foldM (fun st vertex =>
                 foldM (random_transition draws vertices vertex) st
                       (seq 0 (Z.to_nat number_of_outgoing_transitions)))
          ([], p) (od_values vertices) ;;
  let '(transitions, p) := st in
  r <- choice draws (od_values vertices) p ;;
  let '(initial_vertex, _) := r in
  Ok (mkStochasticParityGame (od_values vertices) (od_values transitions)
        initial_vertex).

(** The two shapes of a transition of a random game. *)
Definition random_shape (vs : list SpgVertex) (t : SpgTransition) : Prop :=
  SPG.start_vertex t ∈ vs /\
  ((exists w, w ∈ vs /\ SPG.end_vertices t = {[ (1%Qc, w) ]}) \/
   (exists w1 w2, w1 ∈ vs /\ w2 ∈ vs /\
      SPG.end_vertices t = {[ (Q2Qc (1 # 2), w1); (Q2Qc (1 # 2), w2) ]})).

(** * Specification-level definitions *)

(** ** Well-formed input games

    The invariants of the data model: vertex names are unique, the initial
    vertex, every transition source and every branch target belong to the
    vertex collection, every branch probability lies in (0,1] and every
    distribution sums to exactly 1. *)

Definition distribution_sum `{Countable V} (d : gset (Qc * V)) : Qc :=
  set_fold (fun pv acc => (pv.1 + acc)%Qc) 0%Qc d.

Definition wf_transition (vs : list SpgVertex) (t : SpgTransition) : Prop :=
  SPG.start_vertex t ∈ vs ∧
  set_Forall (fun pv => (0 < pv.1)%Qc ∧ (pv.1 ≤ 1)%Qc ∧ pv.2 ∈ vs)
             (SPG.end_vertices t) ∧
  distribution_sum (SPG.end_vertices t) = 1%Qc.

Definition wf_spg (spg : StochasticParityGame) : Prop :=
  NoDup (SPG.name <$> SPG.vertices spg) ∧
  SPG.init_vertex spg ∈ SPG.vertices spg ∧
  Forall (wf_transition (SPG.vertices spg)) (SPG.transitions spg).

#[global] Instance wf_transition_dec vs t : Decision (wf_transition vs t).
Proof. unfold wf_transition. apply _. Defined.

#[global] Instance wf_spg_dec spg : Decision (wf_spg spg).
Proof. unfold wf_spg. apply _. Defined.

(** An admissible epsilon: omitted, or strictly between 0 and 4. *)
Definition admissible (epsilon : option Qc) : Prop :=
  match epsilon with
  | None => True
  | Some e => (0 < e)%Qc ∧ (e < Qc_of_Z 4)%Qc
  end.

#[global] Instance admissible_dec epsilon : Decision (admissible epsilon).
Proof. destruct epsilon; simpl; apply _. Defined.

(** ** The analyzer and the alpha formulas *)

(** [p] is a probability of some branch of some transition. *)
Definition occurs (spg : StochasticParityGame) (p : Qc) : Prop :=
  exists t v, t ∈ SPG.transitions spg /\ (p, v) ∈ SPG.end_vertices t.

(** [delta_min] of line 47: the analyzer's minimum limited to the cap. *)
Definition rounded_minimum (spg : StochasticParityGame) (max_d : Z)
  : result Qc :=
  dm <- max_denom_and_min_prob spg max_d ;;
  limit_denominator dm.1 max_d.

(** The limited minimum probability lies strictly between 0 and 1. *)
Definition minimum_strictly_inside (spg : StochasticParityGame) (max_d : Z)
  : Prop :=
  match rounded_minimum spg max_d with
  | Ok delta => (0 < delta)%Qc /\ (delta < 1)%Qc
  | Raise _ => False
  end.

#[global] Instance minimum_strictly_inside_dec spg max_d :
  Decision (minimum_strictly_inside spg max_d).
Proof. unfold minimum_strictly_inside. destruct rounded_minimum; apply _. Defined.

(** The formulas of the specification (section 4.2), for the rounded
    minimum probability [delta], [n] vertices and denominator bound [M]. *)
Definition sound_denominator (n : nat) (M : Z) : Z :=
  8 * factorial n ^ 2 * M ^ (2 * Z.of_nat n * Z.of_nat n).

Definition alpha0 (epsilon : option Qc) (delta : Qc) (n : nat) (M : Z) : Qc :=
  match epsilon with
  | None => (delta ^ n / Qc_of_Z (sound_denominator n M))%Qc
  | Some e =>
      (Qc_of_Z 4 * e * delta ^ n / ((Qc_of_Z 4 - e) * Qc_of_Z 8))%Qc
  end.

Definition ratio (epsilon : option Qc) (delta : Qc) (n : nat) (M : Z) : Qc :=
  match epsilon with
  | None =>
      ((1 - delta) * delta ^ n / Qc_of_Z (sound_denominator n M + 1))%Qc
  | Some e =>
      ((1 - delta) * delta ^ n
       / (Qc_of_Z 8 * (Qc_of_Z 4 - e) / (Qc_of_Z 4 * e) + 1))%Qc
  end.


(** ** The loop of [limit_denominator]

    For [self = N/D] in lowest terms with [D] above the cap. *)

(** The invariant of the loop: [D] is recovered from the remainders, the
    remainders stay coprime, consecutive convergents have determinant
    [±1], and after the first round the denominators are within the cap. *)
Definition loop_inv (max_denominator D p0 q0 p1 q1 n d : Z) : Prop :=
  D = q1 * n + q0 * d /\ Z.gcd n d = 1 /\ 0 < d /\
  Z.abs (p0 * q1 - p1 * q0) = 1 /\
  ((p0 = 0 /\ q0 = 1 /\ p1 = 1 /\ q1 = 0) \/
   (0 <= q0 <= max_denominator /\ 1 <= q1 <= max_denominator /\
    (1 <= q0 \/ q1 = 1) /\ d < n)).

(** The part of the invariant that keeps a fraction of [[0,1]] inside. *)
Definition loop_range (p0 q0 p1 q1 n d : Z) : Prop :=
  (p0 = 0 /\ q0 = 1 /\ p1 = 1 /\ q1 = 0 /\ 0 <= n < d) \/
  (0 <= p1 <= q1 /\ 0 <= p0 /\
   (p0 <= q0 \/ (p0 = 1 /\ q0 = 0 /\ p1 = 0 /\ q1 = 1))).

Definition loop_post (max_denominator : Z) (st : Z * Z * Z * Z * Z)
  : Prop :=
  let '(p0, q0, p1, q1, d) := st in
  0 <= q0 <= max_denominator /\ 1 <= q1 <= max_denominator /\
  (1 <= q0 \/ q1 = 1) /\ 0 < d /\ Z.abs (p0 * q1 - p1 * q0) = 1.

Definition range_post (st : Z * Z * Z * Z * Z) : Prop :=
  let '(p0, q0, p1, q1, d) := st in
  0 <= p1 <= q1 /\ 0 <= p0 /\
  (p0 <= q0 \/ (p0 = 1 /\ q0 = 0 /\ p1 = 0 /\ q1 = 1)).

(** ** The produced game *)

(** The decision vertex of [v]. *)
Definition decision (v : SpgVertex) : SsgVertex :=
  mkSsgVertex (SPG.name v) (SPG.is_eve v) false.

(** The intermediate vertex of [v] when its name is free. *)
Definition intermediate (v : SpgVertex) : SsgVertex :=
  mkSsgVertex (SPG.name v +:+ "'") (negb (SPG.is_eve v)) false.

Definition WIN : SsgVertex := mkSsgVertex "v_win" true true.
Definition LOSE : SsgVertex := mkSsgVertex "v_lose" false false.

Definition sink_of (v : SpgVertex) : SsgVertex :=
  if SPG.priority v mod 2 =? 0 then WIN else LOSE.

(** A branch redirected to the intermediate vertex of its target. *)
Definition redirect (pv : Qc * SpgVertex) : Qc * SsgVertex :=
  (pv.1, intermediate pv.2).

Definition copied (t : SpgTransition) : SsgTransition :=
  mkSsgTransition (decision (SPG.start_vertex t))
    (set_map redirect (SPG.end_vertices t)) (SPG.action t).

Definition alpha_transition (a : Qc) (v : SpgVertex) : SsgTransition :=
  mkSsgTransition (intermediate v)
    {[ (a, sink_of v); ((1 - a)%Qc, decision v) ]} "alpha".

(** The alpha of the priority of [v]. *)
Definition alpha_at (alphas : gmap Z Qc) (v : SpgVertex) : Qc :=
  default 0%Qc (alphas !! SPG.priority v).

(** The transitions of the produced game, without name collisions. *)
Definition expected_transitions (spg : StochasticParityGame)
    (alphas : gmap Z Qc) : gmap (SsgVertex * string) SsgTransition :=
  foldl (fun T v =>
           <[(intermediate v, "alpha")
             := alpha_transition (alpha_at alphas v) v]> T)
        (foldl (fun T t =>
                  <[(decision (SPG.start_vertex t), SPG.action t)
                    := copied t]> T)
               ∅ (SPG.transitions spg))
        (SPG.vertices spg).

(** No name collisions: no vertex is named like another vertex followed
    by the marker, and none has a sink name. *)
Definition no_collision (spg : StochasticParityGame) : Prop :=
  Forall (fun v =>
            Forall (fun w => SPG.name w ≠ SPG.name v +:+ "'")
                   (SPG.vertices spg) /\
            SPG.name v ≠ "v_win" /\ SPG.name v ≠ "v_lose")
         (SPG.vertices spg).

#[global] Instance no_collision_dec spg : Decision (no_collision spg).
Proof. unfold no_collision. apply _. Defined.

(** ** Observing a computed result

    Equations between computed values are stated on plain data: a fraction
    is observed as its underlying [Q], a set of branches as the list of its
    elements. *)


Definition vertex_named (r : result SimpleStochasticGame) (nm : string)
  : option SsgVertex :=
  match r with
  | Ok ssg => SSG.vertices ssg !! nm
  | Raise _ => None
  end.

Definition branch_list (d : gset (Qc * SsgVertex)) : list (Q * SsgVertex) :=
  (fun pv => (this pv.1, pv.2)) <$> elements d.

Definition branches_from (r : result SimpleStochasticGame) (v : SsgVertex)
    (act : string) : option (list (Q * SsgVertex)) :=
  match r with
  | Ok ssg =>
      (fun t => branch_list (SSG.end_vertices t))
        <$> SSG.transitions ssg !! (v, act)
  | Raise _ => None
  end.

Definition branch_sum (r : result SimpleStochasticGame) (v : SsgVertex)
    (act : string) : option Q :=
  match r with
  | Ok ssg =>
      (fun t => this (distribution_sum (SSG.end_vertices t)))
        <$> SSG.transitions ssg !! (v, act)
  | Raise _ => None
  end.

(** ** Decimal suffixes *)

(** A string of decimal digits; [str i] is one. *)
Definition is_digit (c : Ascii.ascii) : bool :=
  let n := Ascii.nat_of_ascii c in (48 <=? n)%nat && (n <=? 57)%nat.

Fixpoint all_digits (s : string) : bool :=
  match s with
  | EmptyString => true
  | String c s' => is_digit c && all_digits s'
  end.

(** A string without the marker character. *)
Fixpoint no_marker (s : string) : bool :=
  match s with
  | EmptyString => true
  | String c s' => negb (bool_decide (String c "" = "'")) && no_marker s'
  end.

(** ** The produced game in general

    With name collisions the code renames: a name that is taken gets the
    first numeric suffix that is free (lines 107-112, 117-120 and
    124-127). *)

(** The key under which lines 104-112 and 114-127 store a new vertex whose
    preferred name is [base]. *)
Definition free_name (vertices : gmap string SsgVertex) (base : string)
  : string :=
  if contains vertices base then
    match suffix_search vertices base with
    | Ok i => base +:+ str i
    | Raise _ => base
    end
  else base.

(** The intermediate vertex that lines 104-112 create for [v]. *)
Definition intermediate_of (spg : StochasticParityGame) (v : SpgVertex)
  : SsgVertex :=
  mkSsgVertex (free_name (decision_vertices spg).1 (SPG.name v +:+ "'"))
              (negb (SPG.is_eve v)) false.

Definition redirect_by (inter : SpgVertex -> SsgVertex)
    (pv : Qc * SpgVertex) : Qc * SsgVertex :=
  (pv.1, inter pv.2).

Definition copied_by (inter : SpgVertex -> SsgVertex) (t : SpgTransition)
  : SsgTransition :=
  mkSsgTransition (decision (SPG.start_vertex t))
    (set_map (redirect_by inter) (SPG.end_vertices t)) (SPG.action t).

(** The alpha transition of [v] when the keys "v_win" and "v_lose" hold
    the vertices [win] and [lose]. *)
Definition alpha_transition_by (inter : SpgVertex -> SsgVertex)
    (win lose : SsgVertex) (a : Qc) (v : SpgVertex) : SsgTransition :=
  mkSsgTransition (inter v)
    {[ (a, if SPG.priority v mod 2 =? 0 then win else lose);
       ((1 - a)%Qc, decision v) ]} "alpha".

Definition transitions_by (inter : SpgVertex -> SsgVertex)
    (win lose : SsgVertex) (spg : StochasticParityGame) (alphas : gmap Z Qc)
  : gmap (SsgVertex * string) SsgTransition :=
  foldl (fun T v =>
           <[(inter v, "alpha")
             := alpha_transition_by inter win lose (alpha_at alphas v) v]> T)
        (foldl (fun T t =>
                  <[(decision (SPG.start_vertex t), SPG.action t)
                    := copied_by inter t]> T)
               ∅ (SPG.transitions spg))
        (SPG.vertices spg).

(** The vertex dict [V2] of the produced game, with the sinks under the
    keys [nmw] and [nml]: the decision vertices, the intermediate vertices
    and the two sinks, each under its own name, no two under one name. *)
Definition vertex_table (spg : StochasticParityGame)
    (V2 : gmap string SsgVertex) (nmw nml : string) : Prop :=
  (forall v, v ∈ SPG.vertices spg -> V2 !! SPG.name v = Some (decision v)) /\
  (forall v, v ∈ SPG.vertices spg ->
     V2 !! SSG.name (intermediate_of spg v) = Some (intermediate_of spg v)) /\
  V2 !! nmw = Some (mkSsgVertex nmw true true) /\
  V2 !! nml = Some (mkSsgVertex nml false false) /\
  (forall k x, V2 !! k = Some x ->
     (exists v, v ∈ SPG.vertices spg /\
        (x = decision v \/ x = intermediate_of spg v)) \/
     x = mkSsgVertex nmw true true \/ x = mkSsgVertex nml false false) /\
  (forall k x, V2 !! k = Some x -> SSG.name x = k) /\
  (forall v w, v ∈ SPG.vertices spg -> w ∈ SPG.vertices spg ->
     SSG.name (intermediate_of spg v) ≠ SPG.name w /\
     (SSG.name (intermediate_of spg v) = SSG.name (intermediate_of spg w) ->
      v = w)) /\
  (forall v, v ∈ SPG.vertices spg ->
     nmw ≠ SPG.name v /\ nml ≠ SPG.name v /\
     nmw ≠ SSG.name (intermediate_of spg v) /\
     nml ≠ SSG.name (intermediate_of spg v)) /\
  nmw ≠ nml /\
  (exists t, nmw = "v_win" +:+ t /\ all_digits t = true) /\
  (exists t, nml = "v_lose" +:+ t /\ all_digits t = true) /\
  ((forall v, v ∈ SPG.vertices spg -> SPG.name v ≠ "v_win") ->
   nmw = "v_win") /\
  ((forall v, v ∈ SPG.vertices spg -> SPG.name v ≠ "v_lose") ->
   nml = "v_lose") /\
  is_Some (V2 !! "v_win") /\ is_Some (V2 !! "v_lose") /\
  size V2 = (2 * length (SPG.vertices spg) + 2)%nat.

(** ** Concrete games *)

(** The chain game of length 1: [v0] moves to [v1] with probability 1/2
    and stays otherwise, [v1] loops. *)
Definition chain_v0 : SpgVertex := mkSpgVertex "v0" true 0.
Definition chain_v1 : SpgVertex := mkSpgVertex "v1" true 0.
Definition chain_game : StochasticParityGame :=
  mkStochasticParityGame [chain_v0; chain_v1]
    [ mkSpgTransition chain_v0
        {[ (Q2Qc (1 # 2), chain_v1); (Q2Qc (1 # 2), chain_v0) ]} "next";
      mkSpgTransition chain_v1 {[ (Q2Qc 1, chain_v1) ]} "end" ]
    chain_v0.

(** Three vertices with the priorities 0, 1 and 3. *)
Definition rank_a : SpgVertex := mkSpgVertex "a" true 0.
Definition rank_b : SpgVertex := mkSpgVertex "b" false 1.
Definition rank_c : SpgVertex := mkSpgVertex "c" true 3.
Definition rank_game : StochasticParityGame :=
  mkStochasticParityGame [rank_a; rank_b; rank_c]
    [ mkSpgTransition rank_a
        {[ (Q2Qc (1 # 4), rank_b); (Q2Qc (3 # 4), rank_c) ]} "go";
      mkSpgTransition rank_b {[ (Q2Qc 1, rank_a) ]} "back";
      mkSpgTransition rank_c {[ (Q2Qc 1, rank_a) ]} "back" ]
    rank_a.

(** A game without transitions. *)
Definition empty_game : StochasticParityGame :=
  mkStochasticParityGame [chain_v0] [] chain_v0.

(** One vertex that returns to itself with the probabilities 1/4 and
    3/4. *)
Definition loop_v : SpgVertex := mkSpgVertex "a" true 0.

(** One vertex of even priority that bears the name of the WIN sink. *)
Definition sink_v : SpgVertex := mkSpgVertex "v_win" true 0.
Definition sink_named_game : StochasticParityGame :=
  mkStochasticParityGame [sink_v]
    [ mkSpgTransition sink_v {[ (Q2Qc 1, sink_v) ]} "loop" ] sink_v.

(** Two vertices of the priorities 0 and 1 that move to each other with
    probability 1. *)
Definition det_a : SpgVertex := mkSpgVertex "a" true 0.
Definition det_b : SpgVertex := mkSpgVertex "b" false 1.

(** One vertex that returns to itself with the probabilities 1/30000 and
    29999/30000. *)
Definition tiny_game : StochasticParityGame :=
  mkStochasticParityGame [loop_v]
    [ mkSpgTransition loop_v
        {[ (Q2Qc (1 # 30000), loop_v); (Q2Qc (29999 # 30000), loop_v) ]}
        "loop" ]
    loop_v.

(** A vertex "a'" beside the vertex "a": the intermediate vertex of "a"
    cannot take the name "a'". *)
Definition marked_a : SpgVertex := mkSpgVertex "a" true 0.
Definition marked_b : SpgVertex := mkSpgVertex "a'" false 1.
Definition marked_game : StochasticParityGame :=
  mkStochasticParityGame [marked_a; marked_b]
    [ mkSpgTransition marked_a
        {[ (Q2Qc (1 # 2), marked_a); (Q2Qc (1 # 2), marked_b) ]} "go";
      mkSpgTransition marked_b {[ (Q2Qc 1, marked_a) ]} "back" ]
    marked_a.

(** Two transitions of the same start vertex and action. *)
Definition twice_game : StochasticParityGame :=
  mkStochasticParityGame [det_a; det_b]
    [ mkSpgTransition det_a {[ (Q2Qc 1, det_b) ]} "go";
      mkSpgTransition det_a {[ (Q2Qc 1, det_a) ]} "go";
      mkSpgTransition det_b {[ (Q2Qc 1, det_a) ]} "back" ]
    det_a.

(** An initial vertex that is no vertex of the game. *)
Definition dangling_game : StochasticParityGame :=
  mkStochasticParityGame [chain_v0] [] chain_v1.

(** * Properties *)

(** ** The error monad *)

Lemma bind_Ok_inv {A B} (m : result A) (k : A -> result B) (b : B) :
  bind m k = Ok b -> exists a, m = Ok a /\ k a = Ok b.
Proof. destruct m as [a|e]; simpl; [eauto | discriminate]. Qed.

Lemma getitem_Ok `{Countable K} {V} (d : gmap K V) (k : K) (v : V) :
  getitem d k = Ok v <-> d !! k = Some v.
Proof. unfold getitem. destruct (d !! k); split; congruence. Qed.

Lemma getitem_Raise `{Countable K} {V} (d : gmap K V) (k : K) :
  d !! k = None -> getitem d k = Raise KeyError.
Proof. unfold getitem. by intros ->. Qed.

(** ** [limit_denominator] *)

Section limit_denominator_loop.

(** [self = N/D] in lowest terms, with [D] above the cap. *)
Variables (max_denominator N D : Z).
Hypothesis Hmax : 1 <= max_denominator < D.

Lemma loop_inv_step p0 q0 p1 q1 n d :
  loop_inv max_denominator D p0 q0 p1 q1 n d ->
  q0 + n / d * q1 <= max_denominator ->
  loop_inv max_denominator D p1 q1 (p0 + n / d * p1) (q0 + n / d * q1) d (n - n / d * d) /\
  n - n / d * d < d.
Proof.
  intros (HD & Hg & Hd & Hdet & Hq) Hq2.
  pose proof (Z.div_mod n d ltac:(lia)) as Hdm.
  pose proof (Z.mod_pos_bound n d Hd) as Hr.
  set (a := n / d) in *. set (r := n mod d) in *.
  assert (Hr' : n - a * d = r) by lia. rewrite Hr'.
  assert (Hg' : Z.gcd d r = 1).
  { subst r. rewrite Z.gcd_mod_r. by rewrite Z.gcd_comm. }
  assert (Hdet' : Z.abs (p1 * (q0 + a * q1) - (p0 + a * p1) * q1) = 1).
  { replace (p1 * (q0 + a * q1) - (p0 + a * p1) * q1)
      with (- (p0 * q1 - p1 * q0)) by ring.
    by rewrite Z.abs_opp. }
  assert (Hrpos : 0 < r).
  { destruct (Z.eq_dec r 0) as [Hr0|]; [|lia]. exfalso.
    rewrite Hr0, Z.gcd_0_r_nonneg in Hg' by lia. subst d.
    destruct Hq as [(-> & -> & -> & ->)|(? & ? & ? & ?)]; nia. }
  split; [|lia]. split; [nia|]. do 3 (split; [done|]).
  right. destruct Hq as [(-> & -> & -> & ->)|(? & ? & ? & ?)].
  - nia.
  - assert (1 <= a) by (subst a; apply Z.div_le_lower_bound; lia). nia.
Qed.

Lemma loop_range_step p0 q0 p1 q1 n d :
  loop_inv max_denominator D p0 q0 p1 q1 n d ->
  loop_range p0 q0 p1 q1 n d ->
  loop_range p1 q1 (p0 + n / d * p1) (q0 + n / d * q1) d (n - n / d * d).
Proof.
  intros (HD & Hg & Hd & Hdet & Hq) Hrange. right.
  destruct Hrange as [(-> & -> & -> & -> & Hn)|(Hp1 & Hp0 & Hp)].
  - rewrite Z.div_small by lia. lia.
  - assert (0 <= n / d).
    { apply Z.div_pos; [|lia].
      destruct Hq as [(-> & -> & -> & ->)|(? & ? & ? & ?)]; lia. }
    destruct Hp as [Hp|(-> & -> & -> & ->)]; [nia|].
    assert (1 <= n / d).
    { apply Z.div_le_lower_bound; [lia|].
      destruct Hq as [(? & ? & ? & ?)|(? & ? & ? & ?)]; lia. }
    nia.
Qed.

Lemma limit_denominator_loop_spec fuel p0 q0 p1 q1 n d :
  loop_inv max_denominator D p0 q0 p1 q1 n d ->
  (Z.to_nat d < fuel)%nat ->
  exists st,
    limit_denominator_loop fuel max_denominator p0 q0 p1 q1 n d = Ok st /\
    loop_post max_denominator st /\
    (loop_range p0 q0 p1 q1 n d -> range_post st).
Proof.
  revert p0 q0 p1 q1 n d.
  induction fuel as [|fuel IH]; intros p0 q0 p1 q1 n d Hinv Hfuel; [lia|].
  simpl. pose proof Hinv as (HD & Hg & Hd & Hdet & Hq).
  destruct (Z.eqb_spec d 0) as [|_]; [lia|].
  destruct (Z.ltb_spec max_denominator (q0 + n / d * q1)) as [Hbrk|Hgo].
  - exists (p0, q0, p1, q1, d). split; [done|].
    destruct Hq as [(-> & -> & -> & ->)|(? & ? & ? & ?)]; [lia|].
    split; [done|].
    intros [(? & ? & ? & ? & ?)|?]; [lia|done].
  - destruct (loop_inv_step _ _ _ _ _ _ Hinv Hgo) as [Hinv' Hlt].
    destruct (IH _ _ _ _ _ _ Hinv' ltac:(lia)) as (st & Hst & Hpost & Hr).
    exists st. split; [done|]. split; [done|].
    intros Hrange. apply Hr. by apply loop_range_step.
Qed.

End limit_denominator_loop.

Lemma denominator_pos (x : Qc) : 0 < denominator x.
Proof. unfold denominator. lia. Qed.

Lemma lowest_terms (x : Qc) : Z.gcd (numerator x) (denominator x) = 1.
Proof. apply Qred_identity2, canon. Qed.

Lemma det_coprime (a b u v : Z) : Z.abs (u * b - a * v) = 1 -> Z.gcd a b = 1.
Proof.
  intros Hdet.
  assert (Hdiv : (Z.gcd a b | u * b - a * v)).
  { apply Z.divide_sub_r.
    - apply Z.divide_mul_r, Z.gcd_divide_r.
    - apply Z.divide_mul_l, Z.gcd_divide_l. }
  apply Z.divide_abs_r in Hdiv. rewrite Hdet in Hdiv.
  apply Z.divide_1_r_nonneg in Hdiv; [done | apply Z.gcd_nonneg].
Qed.

(** [Fraction(p, q)] of a pair in lowest terms stores exactly [p] and [q],
    as the un-normalised constructor of the library does. *)
Lemma Fraction_lowest_terms (p q : Z) :
  0 < q -> Z.gcd p q = 1 ->
  numerator (Fraction p q) = p /\ denominator (Fraction p q) = q.
Proof.
  intros Hq Hg. unfold numerator, denominator, Fraction. simpl.
  rewrite Qred_identity; simpl; rewrite ?Z2Pos.id; done.
Qed.

Lemma Qc_le_0_1_iff (x : Qc) :
  (0 ≤ x)%Qc /\ (x ≤ 1)%Qc <-> 0 <= numerator x <= denominator x.
Proof.
  unfold Qcle, Qle, numerator, denominator. simpl.
  rewrite !Z.mul_1_r, Z.mul_1_l. done.
Qed.

Lemma Fraction_range (p q : Z) :
  0 < q -> 0 <= p <= q -> (0 ≤ Fraction p q)%Qc /\ (Fraction p q ≤ 1)%Qc.
Proof.
  intros Hq Hp. unfold Qcle, Fraction. simpl. rewrite !Qred_correct.
  unfold Qle. simpl. rewrite Z2Pos.id by done. lia.
Qed.

(** [limit_denominator] returns for every cap of at least 1; the result
    has a denominator within the cap and stays in [[0,1]] when [self] is
    there. *)
Lemma limit_denominator_spec (self : Qc) (max_denominator : Z) :
  1 <= max_denominator ->
  exists r, limit_denominator self max_denominator = Ok r /\
    denominator r <= max_denominator /\
    ((0 ≤ self)%Qc /\ (self ≤ 1)%Qc -> (0 ≤ r)%Qc /\ (r ≤ 1)%Qc).
Proof.
  intros Hmax. unfold limit_denominator.
  destruct (Z.ltb_spec max_denominator 1) as [|_]; [lia|].
  destruct (Z.leb_spec (denominator self) max_denominator) as [Hle|Hgt].
  { exists self. done. }
  pose proof (lowest_terms self) as Hg.
  pose proof (denominator_pos self) as HD.
  set (N := numerator self) in *. set (D := denominator self) in *.
  assert (Hinv : loop_inv max_denominator D 0 1 1 0 N D).
  { repeat split; try lia. }
  destruct (limit_denominator_loop_spec max_denominator D ltac:(lia)
              (S (Z.to_nat D)) 0 1 1 0 N D Hinv ltac:(lia))
    as ([[[[p0 q0] p1] q1] d] & -> & Hpost & Hrange).
  simpl in *. destruct Hpost as (Hq0 & Hq1 & Hq01 & Hd & Hdet).
  destruct (Z.eqb_spec q1 0) as [|_]; [lia|].
  set (k := (max_denominator - q0) / q1).
  assert (Hk : 0 <= k) by (apply Z.div_pos; lia).
  assert (Hkq : k * q1 <= max_denominator - q0).
  { rewrite Z.mul_comm. apply Z.mul_div_le. lia. }
  assert (Hden : 1 <= q0 + k * q1).
  { destruct Hq01 as [ | -> ]; [nia|].
    subst k. rewrite Z.div_1_r. lia. }
  assert (Hrange' : (0 ≤ self)%Qc /\ (self ≤ 1)%Qc -> range_post (p0, q0, p1, q1, d)).
  { intros H01. apply Hrange. left. repeat split; try done.
    - apply Qc_le_0_1_iff in H01. fold N in H01. lia.
    - apply Qc_le_0_1_iff in H01. fold N D in H01.
      destruct (Z.eq_dec N D) as [HND|]; [|lia].
      rewrite HND, Z.gcd_diag, Z.abs_eq in Hg by lia. lia. }
  destruct (Z.leb_spec (2 * d * (q0 + k * q1)) D) as [_|_].
  - exists (Fraction p1 q1). split; [done|]. split.
    + destruct (Fraction_lowest_terms p1 q1) as [_ ->]; [lia| |lia].
      apply (det_coprime _ _ p0 q0). exact Hdet.
    + intros H01. destruct (Hrange' H01) as (? & ? & ?).
      apply Fraction_range; lia.
  - exists (Fraction (p0 + k * p1) (q0 + k * q1)). split; [done|]. split.
    + destruct (Fraction_lowest_terms (p0 + k * p1) (q0 + k * q1))
        as [_ ->]; [lia| |lia].
      apply (det_coprime _ _ (- p1) (- q1)).
      replace (- p1 * (q0 + k * q1) - (p0 + k * p1) * - q1)
        with (p0 * q1 - p1 * q0) by ring. done.
    + intros H01. destruct (Hrange' H01) as (? & ? & Hp).
      apply Fraction_range; [lia|].
      destruct Hp as [?|(-> & -> & -> & ->)]; [nia|].
      subst k. rewrite Z.div_1_r. lia.
Qed.

Lemma limit_denominator_small (self : Qc) (max_denominator : Z) :
  1 <= max_denominator -> denominator self <= max_denominator ->
  limit_denominator self max_denominator = Ok self.
Proof.
  intros H1 H2. unfold limit_denominator.
  destruct (Z.ltb_spec max_denominator 1); [lia|].
  destruct (Z.leb_spec (denominator self) max_denominator); [done|lia].
Qed.

(** ** Folds and comprehensions that may raise *)

Lemma mapM_r_Ok {A B} (f : A -> result B) (l : list A) :
  (forall x, x ∈ l -> exists y, f x = Ok y) ->
  exists ys, mapM_r f l = Ok ys /\ Forall2 (fun x y => f x = Ok y) l ys.
Proof.
  induction l as [|x l IH]; intros Hf; simpl.
  - exists []. by split.
  - destruct (Hf x) as [y Hy]; [set_solver|].
    destruct IH as (ys & Hys & HF); [intros; apply Hf; set_solver|].
    exists (y :: ys). rewrite Hy, Hys. simpl. split; [done|]. by constructor.
Qed.

Lemma foldM_inv {A S} (P : S -> Prop) (body : S -> A -> result S)
    (acc : S) (l : list A) :
  P acc ->
  (forall acc x, x ∈ l -> P acc -> exists acc', body acc x = Ok acc' /\ P acc') ->
  exists r, foldM body acc l = Ok r /\ P r.
Proof.
  revert acc. induction l as [|x l IH]; intros acc HP Hbody; simpl.
  - by exists acc.
  - destruct (Hbody acc x) as (acc' & -> & HP'); [set_solver|done|]. simpl.
    apply IH; [done|]. intros; apply Hbody; [set_solver|done].
Qed.

(** ** [min] and [max] *)

Lemma py_min_spec (xs : list Qc) (m : Qc) :
  py_min xs = Ok m -> m ∈ xs /\ forall x, x ∈ xs -> (m ≤ x)%Qc.
Proof.
  destruct xs as [|x xs]; simpl; [discriminate|]. intros [= <-].
  revert x. induction xs as [|y xs IH]; intros x; simpl.
  - split; [set_solver|]. intros z ->%list_elem_of_singleton. apply Qcle_refl.
  - destruct (IH (if decide (y < x)%Qc then y else x)) as [Hin Hle].
    split.
    + destruct (decide (y < x)%Qc); set_solver.
    + intros z Hz. destruct (decide (y < x)%Qc) as [Hlt|Hge].
      * apply elem_of_cons in Hz as [->|Hz]; [|apply Hle; set_solver].
        apply Qcle_trans with y; [apply Hle; set_solver|].
        by apply Qclt_le_weak.
      * apply elem_of_cons in Hz as [->|Hz]; [apply Hle; set_solver|].
        apply elem_of_cons in Hz as [->|Hz]; [|apply Hle; set_solver].
        apply Qcle_trans with x; [apply Hle; set_solver|].
        by apply Qcnot_lt_le.
Qed.

Lemma py_max_spec (xs : list Z) (m : Z) :
  py_max xs = Ok m -> m ∈ xs /\ forall x, x ∈ xs -> x <= m.
Proof.
  destruct xs as [|x xs]; simpl; [discriminate|]. intros [= <-].
  revert x. induction xs as [|y xs IH]; intros x; simpl.
  - split; [set_solver|]. intros z ->%list_elem_of_singleton. lia.
  - destruct (IH (if decide (x < y) then y else x)) as [Hin Hle].
    split.
    + destruct (decide (x < y)); set_solver.
    + intros z Hz. destruct (decide (x < y)) as [Hlt|Hge].
      * apply elem_of_cons in Hz as [->|Hz]; [|apply Hle; set_solver].
        specialize (Hle y ltac:(set_solver)). lia.
      * apply elem_of_cons in Hz as [->|Hz]; [apply Hle; set_solver|].
        apply elem_of_cons in Hz as [->|Hz]; [|apply Hle; set_solver].
        specialize (Hle x ltac:(set_solver)). lia.
Qed.

(** ** The precision analyzer *)

Lemma elem_of_add_probs (F : gset Qc) (d : gset (Qc * SpgVertex)) (p : Qc) :
  p ∈ set_fold (fun pv acc => {[ pv.1 ]} ∪ acc) F d <->
  p ∈ F \/ exists v, (p, v) ∈ d.
Proof.
  revert p.
  apply (set_fold_ind_L
    (fun (r : gset Qc) (X : gset (Qc * SpgVertex)) =>
       forall p, p ∈ r <-> p ∈ F \/ exists v, (p, v) ∈ X)).
  - intros p. set_solver.
  - intros [q w] X r _ IH p. rewrite elem_of_union, IH. simpl. split.
    + intros [->%elem_of_singleton|[?|[v ?]]]; [right; exists w|by left|right; exists v];
        set_solver.
    + intros [?|[v [[= -> ->]%elem_of_singleton|?]%elem_of_union]];
        [right; by left|left; set_solver|right; right; by exists v].
Qed.

Lemma elem_of_collect_floats (spg : StochasticParityGame) (p : Qc) :
  p ∈ collect_floats spg <-> occurs spg p.
Proof.
  unfold collect_floats, occurs.
  assert (H : forall ts (F : gset Qc),
    p ∈ foldl (fun floats transition =>
                 set_fold (fun pv acc => {[ pv.1 ]} ∪ acc) floats
                          (SPG.end_vertices transition)) F ts <->
    p ∈ F \/ exists t v, t ∈ ts /\ (p, v) ∈ SPG.end_vertices t).
  { induction ts as [|t ts IH]; intros F; simpl.
    - set_solver.
    - rewrite IH, elem_of_add_probs. split.
      + intros [[?|[v ?]]|(t' & v & ? & ?)];
          [by left|right; exists t, v|right; exists t', v]; set_solver.
      + intros [?|(t' & v & [->|?]%elem_of_cons & ?)];
          [left; by left|left; right; by exists v|right; by exists t', v]. }
  rewrite H. set_solver.
Qed.

Lemma distribution_sum_empty `{Countable V} :
  distribution_sum (∅ : gset (Qc * V)) = 0%Qc.
Proof. unfold distribution_sum. by rewrite set_fold_empty. Qed.

Lemma wf_transition_nonempty vs t :
  wf_transition vs t -> exists p v, (p, v) ∈ SPG.end_vertices t.
Proof.
  intros (_ & _ & Hsum).
  destruct (set_choose_or_empty (SPG.end_vertices t)) as [[[p v] Hpv]|He].
  - by exists p, v.
  - apply leibniz_equiv in He. rewrite He, distribution_sum_empty in Hsum.
    discriminate.
Qed.

Lemma wf_spg_occurs spg :
  wf_spg spg -> SPG.transitions spg ≠ [] -> exists p, occurs spg p.
Proof.
  intros (_ & _ & Hts) Hne.
  destruct (SPG.transitions spg) as [|t ts] eqn:E; [done|].
  apply Forall_cons in Hts as [Ht _].
  destruct (wf_transition_nonempty _ _ Ht) as (p & v & Hpv).
  exists p, t, v. rewrite E. set_solver.
Qed.

(** The analyzer returns on every well-formed game with a transition. *)
Lemma max_denom_and_min_prob_Ok spg max_d :
  wf_spg spg -> SPG.transitions spg ≠ [] -> 1 <= max_d ->
  exists m M fractions,
    max_denom_and_min_prob spg max_d = Ok (m, M) /\
    Forall2 (fun f fr => limit_denominator f max_d = Ok fr)
            (elements (collect_floats spg)) fractions /\
    py_min (elements (collect_floats spg)) = Ok m /\
    py_max (denominator <$> fractions) = Ok M.
Proof.
  intros Hwf Hne Hmax. unfold max_denom_and_min_prob.
  destruct (mapM_r_Ok (fun f => limit_denominator f max_d)
              (elements (collect_floats spg))) as (fractions & -> & HF).
  { intros x _. destruct (limit_denominator_spec x max_d Hmax) as (r & ? & _).
    by exists r. }
  destruct (wf_spg_occurs spg Hwf Hne) as [p Hp].
  apply elem_of_collect_floats, elem_of_elements in Hp.
  destruct (elements (collect_floats spg)) as [|f fl] eqn:E;
    [by apply elem_of_nil in Hp|].
  inversion HF as [|? fr ? frs ? ?]; subst. simpl.
  eexists _, _, (fr :: frs). by repeat split.
Qed.

Lemma Forall2_elem_of_l {A B} (P : A -> B -> Prop) l k x :
  Forall2 P l k -> x ∈ l -> exists y, y ∈ k /\ P x y.
Proof.
  intros HF [i Hi]%list_elem_of_lookup.
  destruct (Forall2_lookup_l _ _ _ _ _ HF Hi) as (y & Hy & HP).
  exists y. split; [|done]. apply list_elem_of_lookup. by exists i.
Qed.

Lemma Forall2_elem_of_r {A B} (P : A -> B -> Prop) l k y :
  Forall2 P l k -> y ∈ k -> exists x, x ∈ l /\ P x y.
Proof.
  intros HF [i Hi]%list_elem_of_lookup.
  destruct (Forall2_lookup_r _ _ _ _ _ HF Hi) as (x & Hx & HP).
  exists x. split; [|done]. apply list_elem_of_lookup. by exists i.
Qed.

Lemma max_denom_and_min_prob_spec spg max_d :
  wf_spg spg -> SPG.transitions spg ≠ [] -> 1 <= max_d ->
  exists m M,
    max_denom_and_min_prob spg max_d = Ok (m, M) /\
    occurs spg m /\
    (forall p, occurs spg p -> (m ≤ p)%Qc) /\
    (exists p fr, occurs spg p /\ limit_denominator p max_d = Ok fr /\
                  denominator fr = M) /\
    (forall p, occurs spg p ->
       exists fr, limit_denominator p max_d = Ok fr /\ denominator fr <= M).
Proof.
  intros Hwf Hne Hmax.
  destruct (max_denom_and_min_prob_Ok spg max_d Hwf Hne Hmax)
    as (m & M & fractions & Hres & HF & Hmin & Hmaxi).
  exists m, M. split; [done|].
  destruct (py_min_spec _ _ Hmin) as [Hin Hle].
  destruct (py_max_spec _ _ Hmaxi) as [HMin HMle].
  split; [by apply elem_of_collect_floats, elem_of_elements|].
  split.
  { intros p Hp. by apply Hle, elem_of_elements, elem_of_collect_floats. }
  split.
  - apply list_elem_of_fmap in HMin as (fr & -> & Hfr).
    destruct (Forall2_elem_of_r _ _ _ _ HF Hfr) as (p & Hp & Hlim).
    exists p, fr. split; [|done].
    by apply elem_of_collect_floats, elem_of_elements.
  - intros p Hp%elem_of_collect_floats%elem_of_elements.
    destruct (Forall2_elem_of_l _ _ _ _ HF Hp) as (fr & Hfr & Hlim).
    exists fr. split; [done|]. apply HMle, list_elem_of_fmap. by exists fr.
Qed.


(** C7 (as the code behaves).  Without transitions the analyzer raises the
    built-in [ValueError] of [min] on an empty set, for every cap; on a
    well-formed game with a transition and a cap of at least 1 it returns. *)
Theorem analyzer_empty_game_raises_ValueError spg max_d :
  (SPG.transitions spg = [] ->
   max_denom_and_min_prob spg max_d = Raise ValueError) /\
  (wf_spg spg -> SPG.transitions spg ≠ [] -> 1 <= max_d ->
   exists r, max_denom_and_min_prob spg max_d = Ok r).
Proof.
  split.
  - intros He. unfold max_denom_and_min_prob, collect_floats.
    rewrite He. simpl. by rewrite elements_empty.
  - intros Hwf Hne Hmax.
    destruct (max_denom_and_min_prob_Ok spg max_d Hwf Hne Hmax)
      as (m & M & _ & Hres & _).
    by exists (m, M).
Qed.

(** ** Rational arithmetic *)

Local Open Scope Qc_scope.

(** Goals and hypotheses on [Qc] are moved to [Q], where [lra] and [nra]
    apply. *)
Ltac qc_to_q :=
  unfold Qcle, Qclt, Qcminus, Qcplus, Qcmult, Qcopp, Qcdiv, Qcinv,
         Qc_of_Z, Q2Qc in *;
  cbn [this] in *;
  repeat match goal with
  | H : context [Qred ?x] |- _ => rewrite (Qred_correct x) in H
  | |- context [Qred ?x] => rewrite (Qred_correct x)
  end;
  unfold inject_Z in *.

Lemma Qc_pos_neq_0 (x : Qc) : 0 < x -> x ≠ 0.
Proof. intros H ->. by apply Qclt_not_eq in H. Qed.

Lemma Qcinv_le_contravar (x y : Qc) : 0 < y -> y ≤ x -> / x ≤ / y.
Proof.
  intros Hy Hxy.
  assert (Hx : 0 < x) by (by apply Qclt_le_trans with y).
  apply (Qcmult_le_mono_pos_r _ _ (x * y)); [by apply Qcmult_pos_pos|].
  replace (/ x * (x * y)) with y by (field; by apply Qc_pos_neq_0).
  replace (/ y * (x * y)) with x by (field; by apply Qc_pos_neq_0).
  done.
Qed.

Lemma Qcdiv_le_mono (x x' y y' : Qc) :
  0 ≤ x -> x ≤ x' -> 0 < y' -> y' ≤ y -> x / y ≤ x' / y'.
Proof.
  intros Hx Hxx' Hy' Hyy'.
  assert (Hy : 0 < y) by (by apply Qclt_le_trans with y').
  apply Qcle_trans with (x' / y).
  - apply Qcmult_le_mono_nonneg_r; [|done].
    by apply Qclt_le_weak, Qcinv_pos.
  - apply Qcmult_le_mono_nonneg_l; [by apply Qcle_trans with x|].
    by apply Qcinv_le_contravar.
Qed.

Lemma Qcdiv_pos (a b : Qc) : 0 < a -> 0 < b -> 0 < a / b.
Proof. intros Ha Hb. apply Qcmult_pos_pos; [done|by apply Qcinv_pos]. Qed.

Lemma Qcdiv_nonneg (a b : Qc) : 0 ≤ a -> 0 < b -> 0 ≤ a / b.
Proof.
  intros Ha Hb. apply Qcmult_nonneg_nonneg; [done|].
  by apply Qclt_le_weak, Qcinv_pos.
Qed.




Lemma Qcpower_le_1 (x : Qc) (n : nat) : 0 ≤ x -> x ≤ 1 -> x ^ n ≤ 1.
Proof.
  intros H0 H1. induction n as [|n IH]; simpl; [done|].
  apply Qcle_trans with (1 * x ^ n).
  - apply Qcmult_le_mono_nonneg_r; [by apply Qcpower_pos|done].
  - by rewrite Qcmult_1_l.
Qed.

Lemma Qcpower_lt_1 (x : Qc) (n : nat) :
  0 < x -> x < 1 -> n ≠ O -> x ^ n < 1.
Proof.
  intros H0 H1 Hn. destruct n as [|n]; [done|]. simpl.
  apply Qcle_lt_trans with (x * 1).
  - apply Qcmult_le_mono_nonneg_l; [by apply Qclt_le_weak|].
    apply Qcpower_le_1; by apply Qclt_le_weak.
  - by rewrite Qcmult_1_r.
Qed.





Lemma Qcpower_le_mono (r r' : Qc) (i : nat) :
  0 ≤ r -> r ≤ r' -> r ^ i ≤ r' ^ i.
Proof.
  intros Hr Hrr'. induction i as [|i IH]; simpl; [done|].
  apply Qcle_trans with (r * r' ^ i).
  - by apply Qcmult_le_mono_nonneg_l.
  - apply Qcmult_le_mono_nonneg_r; [|done].
    apply Qcpower_pos. by apply Qcle_trans with r.
Qed.

Lemma geometric_mono (a a' r r' : Qc) (i : nat) :
  0 ≤ a -> a ≤ a' -> 0 ≤ r -> r ≤ r' -> a * r ^ i ≤ a' * r' ^ i.
Proof.
  intros Ha Haa' Hr Hrr'. apply Qcle_trans with (a * r' ^ i).
  - apply Qcmult_le_mono_nonneg_l; [done|by apply Qcpower_le_mono].
  - apply Qcmult_le_mono_nonneg_r; [|done].
    apply Qcpower_pos. by apply Qcle_trans with r.
Qed.

Local Close Scope Qc_scope.

(** ** The sorted distinct priorities *)

Lemma elem_of_sorted_priorities spg p :
  p ∈ sorted_priorities spg <->
  exists v, v ∈ SPG.vertices spg /\ SPG.priority v = p.
Proof.
  unfold sorted_priorities.
  rewrite merge_sort_Permutation, elem_of_elements, elem_of_list_to_set,
    list_elem_of_fmap.
  naive_solver.
Qed.

Lemma sorted_priorities_NoDup spg : NoDup (sorted_priorities spg).
Proof.
  unfold sorted_priorities. rewrite merge_sort_Permutation.
  apply NoDup_elements.
Qed.




Lemma sorted_priorities_nonempty spg :
  SPG.vertices spg ≠ [] -> sorted_priorities spg ≠ [].
Proof.
  intros Hne He. destruct (SPG.vertices spg) as [|v vs] eqn:E; [done|].
  assert (SPG.priority v ∈ sorted_priorities spg).
  { apply elem_of_sorted_priorities. exists v. rewrite E. set_solver. }
  rewrite He in H. by apply elem_of_nil in H.
Qed.

(** ** The decay loop *)

Lemma decay_loop_spec (ratio_bound : Qc) (rest : list Z) :
  forall (p0 : Z) (m : gmap Z Qc) (a : Qc),
  m !! p0 = Some a -> NoDup (p0 :: rest) ->
  exists m',
    foldM (fun (alphas : gmap Z Qc) '(prev_k, next_k) =>
             let gap := next_k - prev_k in
             a <- getitem alphas prev_k ;;
             Ok (<[next_k := (a * ratio_bound)%Qc]> alphas))
          m (zip (p0 :: rest) rest) = Ok m' /\
    (forall i p, (p0 :: rest) !! i = Some p ->
                 m' !! p = Some (a * ratio_bound ^ i)%Qc) /\
    (forall q, q ∉ rest -> m' !! q = m !! q).
Proof.
  induction rest as [|p1 rest IH]; intros p0 m a Hm Hnd.
  - exists m. split; [done|]. split; [|done].
    intros [|i] p [= <-]. simpl. by rewrite Qcmult_1_r.
  - apply NoDup_cons in Hnd as [Hp0 Hnd].
    destruct (IH p1 (<[p1 := (a * ratio_bound)%Qc]> m) (a * ratio_bound)%Qc)
      as (m' & Hm' & Hidx & Hout); [by rewrite lookup_insert_eq|done|].
    exists m'. split.
    { change (zip (p0 :: p1 :: rest) (p1 :: rest))
        with ((p0, p1) :: zip (p1 :: rest) rest).
      cbn [foldM]. unfold getitem at 1. rewrite Hm. exact Hm'. }
    split.
    + intros [|i] p Hp.
      * injection Hp as <-. simpl. rewrite Qcmult_1_r.
        rewrite Hout by set_solver.
        rewrite lookup_insert_ne by set_solver. done.
      * rewrite (Hidx i p Hp). simpl. f_equal. ring.
    + intros q Hq. rewrite Hout by set_solver.
      rewrite lookup_insert_ne by set_solver. done.
Qed.

Lemma decay_spec (used : list Z) (alpha0 ratio_bound : Qc) :
  NoDup used -> used ≠ [] ->
  exists alphas,
    decay used alpha0 ratio_bound = Ok alphas /\
    (forall i p, used !! i = Some p ->
                 alphas !! p = Some (alpha0 * ratio_bound ^ i)%Qc) /\
    dom alphas = list_to_set used.
Proof.
  intros Hnd Hne. destruct used as [|p0 rest]; [done|].
  unfold decay. simpl first. simpl bind.
  destruct (decay_loop_spec ratio_bound rest p0 {[ p0 := alpha0 ]} alpha0)
    as (m' & Hm' & Hidx & Hout); [by rewrite lookup_singleton_eq|done|].
  exists m'. split; [exact Hm'|]. split; [done|].
  apply set_eq. intros q. rewrite elem_of_dom, elem_of_list_to_set. split.
  - intros Hq. destruct (decide (q ∈ rest)) as [|Hn]; [set_solver|].
    rewrite (Hout q Hn) in Hq.
    destruct (decide (q = p0)) as [->|Hne']; [set_solver|].
    rewrite lookup_singleton_ne in Hq by done. by destruct Hq.
  - intros [i Hi]%list_elem_of_lookup. rewrite (Hidx i q Hi). eauto.
Qed.

(** ** The alpha derivation in closed form *)

Lemma truediv_Ok (a b : Qc) : b ≠ 0%Qc -> truediv a b = Ok (a / b)%Qc.
Proof. intros Hb. unfold truediv. by destruct (decide (b = 0%Qc)). Qed.

Lemma sound_denominator_ge_8 (n : nat) (M : Z) :
  1 <= M -> 8 <= sound_denominator n M.
Proof.
  intros HM. unfold sound_denominator, factorial.
  pose proof (lt_O_fact n) as Hf.
  assert (0 < M ^ (2 * Z.of_nat n * Z.of_nat n))
    by (apply Z.pow_pos_nonneg; lia).
  rewrite Z.pow_2_r. nia.
Qed.

Lemma Qc_of_Z_neq_0 (z : Z) : z ≠ 0 -> Qc_of_Z z ≠ 0%Qc.
Proof. intros Hz H. apply Hz, Z2Qc_inj. by rewrite H, Z2Qc_inj_0. Qed.

Lemma Qc_of_Z_pos (z : Z) : 0 < z -> (0 < Qc_of_Z z)%Qc.
Proof.
  intros Hz. apply (proj1 (Z2Qc_inj_lt 0 z)) in Hz.
  by rewrite Z2Qc_inj_0 in Hz.
Qed.

Lemma Qc_of_Z_gt_1 (z : Z) : 1 < z -> (1 < Qc_of_Z z)%Qc.
Proof.
  intros Hz. apply (proj1 (Z2Qc_inj_lt 1 z)) in Hz.
  by rewrite Z2Qc_inj_1 in Hz.
Qed.

Lemma epsilon_denominators (e : Qc) :
  (0 < e)%Qc -> (e < Qc_of_Z 4)%Qc ->
  (0 < (Qc_of_Z 4 - e) * Qc_of_Z 8)%Qc /\
  (0 < Qc_of_Z 4 * e)%Qc /\
  (0 < Qc_of_Z 8 * (Qc_of_Z 4 - e))%Qc /\
  (1 < Qc_of_Z 8 * (Qc_of_Z 4 - e) / (Qc_of_Z 4 * e) + 1)%Qc.
Proof.
  intros H0 H4.
  assert (H1 : (0 < (Qc_of_Z 4 - e) * Qc_of_Z 8)%Qc) by (qc_to_q; lra).
  assert (H2 : (0 < Qc_of_Z 4 * e)%Qc) by (qc_to_q; lra).
  assert (H3 : (0 < Qc_of_Z 8 * (Qc_of_Z 4 - e))%Qc) by (qc_to_q; lra).
  repeat split; try done.
  rewrite <- (Qcplus_0_l 1) at 1.
  apply Qcplus_lt_mono_r. by apply Qcdiv_pos.
Qed.

Lemma wf_spg_vertices_nonempty spg : wf_spg spg -> SPG.vertices spg ≠ [].
Proof. intros (_ & Hin & _) He. rewrite He in Hin. by apply elem_of_nil in Hin. Qed.

Lemma wf_spg_occurs_range spg p :
  wf_spg spg -> occurs spg p -> (0 < p)%Qc /\ (p ≤ 1)%Qc.
Proof.
  intros (_ & _ & Hts) (t & v & Ht & Hpv).
  rewrite Forall_forall in Hts. destruct (Hts t Ht) as (_ & Hall & _).
  destruct (Hall (p, v) Hpv) as (? & ? & _). done.
Qed.

(** The alpha derivation returns on every well-formed game with a
    transition, for every admissible epsilon; the alpha of the priority of
    rank [i] is [alpha0 * ratio ^ i]. *)
Lemma compute_alphas_for_spg_spec spg epsilon max_d :
  wf_spg spg -> SPG.transitions spg ≠ [] -> 1 <= max_d ->
  admissible epsilon ->
  exists m M delta alphas,
    max_denom_and_min_prob spg max_d = Ok (m, M) /\
    limit_denominator m max_d = Ok delta /\
    occurs spg m /\ 1 <= M /\ (0 ≤ delta)%Qc /\ (delta ≤ 1)%Qc /\
    compute_alphas_for_spg spg epsilon max_d = Ok alphas /\
    (forall i p, sorted_priorities spg !! i = Some p ->
       alphas !! p =
         Some (alpha0 epsilon delta (length (SPG.vertices spg)) M
               * ratio epsilon delta (length (SPG.vertices spg)) M ^ i)%Qc) /\
    dom alphas = list_to_set (sorted_priorities spg).
Proof.
  intros Hwf Hne Hmax Heps.
  destruct (max_denom_and_min_prob_spec spg max_d Hwf Hne Hmax)
    as (m & M & Hres & Hocc & _ & (p & fr & _ & _ & HM) & _).
  destruct (limit_denominator_spec m max_d Hmax) as (delta & Hdelta & _ & Hr).
  destruct (wf_spg_occurs_range spg m Hwf Hocc) as [Hm0 Hm1].
  destruct Hr as [Hd0 Hd1]; [split; [by apply Qclt_le_weak|done]|].
  assert (HM1 : 1 <= M) by (pose proof (denominator_pos fr); lia).
  set (n := length (SPG.vertices spg)).
  destruct (decay_spec (sorted_priorities spg)
              (alpha0 epsilon delta n M) (ratio epsilon delta n M))
    as (alphas & Hdecay & Hidx & Hdom).
  { apply sorted_priorities_NoDup. }
  { by apply sorted_priorities_nonempty, wf_spg_vertices_nonempty. }
  exists m, M, delta, alphas. do 6 (split; [done|]). split; [|done].
  unfold compute_alphas_for_spg. rewrite Hres. cbn [bind]. rewrite Hdelta.
  cbn [bind]. fold n. destruct epsilon as [e|]; simpl in Heps |- *.
  - destruct Heps as [He0 He4].
    destruct (epsilon_denominators e He0 He4) as (H1 & H2 & H3 & H4).
    rewrite (truediv_Ok _ ((Qc_of_Z 4 - e) * Qc_of_Z 8)%Qc)
      by (by apply Qc_pos_neq_0).
    cbn [bind].
    rewrite (truediv_Ok _ (Qc_of_Z 4 * e)%Qc) by (by apply Qc_pos_neq_0).
    cbn [bind].
    rewrite truediv_Ok; [exact Hdecay|].
    apply Qc_pos_neq_0. by apply Qclt_trans with 1%Qc.
  - pose proof (sound_denominator_ge_8 n M HM1) as HD.
    fold (sound_denominator n M).
    rewrite (truediv_Ok _ (Qc_of_Z (sound_denominator n M)))
      by (apply Qc_of_Z_neq_0; lia).
    cbn [bind].
    rewrite truediv_Ok by (apply Qc_of_Z_neq_0; lia).
    exact Hdecay.
Qed.

Local Open Scope Qc_scope.



(** Both components of the epsilon mode grow with epsilon. *)
Lemma alpha0_ratio_mono e1 e2 delta n M :
  0 < e1 -> e1 < e2 -> e2 < Qc_of_Z 4 -> 0 ≤ delta -> delta ≤ 1 ->
  0 ≤ alpha0 (Some e1) delta n M /\
  alpha0 (Some e1) delta n M ≤ alpha0 (Some e2) delta n M /\
  0 ≤ ratio (Some e1) delta n M /\
  ratio (Some e1) delta n M ≤ ratio (Some e2) delta n M.
Proof.
  intros He1 He12 He2 Hd0 Hd1. simpl.
  assert (He1' : e1 < Qc_of_Z 4) by (by apply Qclt_trans with e2).
  assert (He2' : 0 < e2) by (by apply Qclt_trans with e1).
  destruct (epsilon_denominators e1 He1 He1') as (Ha1 & Ha2 & Ha3 & Ha4).
  destruct (epsilon_denominators e2 He2' He2) as (Hb1 & Hb2 & Hb3 & Hb4).
  assert (Hc : 0 ≤ delta ^ n) by (by apply Qcpower_pos).
  assert (Hn : 0 ≤ (1 - delta) * delta ^ n).
  { apply Qcmult_nonneg_nonneg; [|done]. qc_to_q; lra. }
  set (c := delta ^ n) in *. clearbody c.
  assert (Hx0 : 0 ≤ Qc_of_Z 4 * e1 * c).
  { apply Qcmult_nonneg_nonneg; [by apply Qclt_le_weak|done]. }
  assert (Hx : Qc_of_Z 4 * e1 * c ≤ Qc_of_Z 4 * e2 * c).
  { apply Qcmult_le_mono_nonneg_r; [done|]. qc_to_q; lra. }
  assert (Hy : (Qc_of_Z 4 - e2) * Qc_of_Z 8 ≤ (Qc_of_Z 4 - e1) * Qc_of_Z 8)
    by (qc_to_q; lra).
  split; [by apply Qcdiv_nonneg|].
  split; [by apply Qcdiv_le_mono|].
  split; [apply Qcdiv_nonneg; [done|by apply Qclt_trans with 1]|].
  apply Qcdiv_le_mono; [done|done|by apply Qclt_trans with 1|].
  apply Qcplus_le_mono_r. apply Qcdiv_le_mono.
  - by apply Qclt_le_weak.
  - qc_to_q; lra.
  - done.
  - qc_to_q; lra.
Qed.

Local Close Scope Qc_scope.

(** ** The claims on the alpha derivation *)


(** C9. For two epsilons [0 < e1 < e2 < 4] the epsilon-mode alpha of every
    priority of the game is, under [e1], at most its alpha under [e2]. *)
Theorem epsilon_mode_monotone spg e1 e2 max_d :
  wf_spg spg -> SPG.transitions spg ≠ [] -> 1 <= max_d ->
  (0 < e1)%Qc -> (e1 < e2)%Qc -> (e2 < Qc_of_Z 4)%Qc ->
  exists alphas1 alphas2,
    compute_alphas_for_spg spg (Some e1) max_d = Ok alphas1 /\
    compute_alphas_for_spg spg (Some e2) max_d = Ok alphas2 /\
    forall v, v ∈ SPG.vertices spg ->
      exists a1 a2,
        alphas1 !! SPG.priority v = Some a1 /\
        alphas2 !! SPG.priority v = Some a2 /\ (a1 ≤ a2)%Qc.
Proof.
  intros Hwf Hne Hmax He1 He12 He2.
  assert (He1' : (e1 < Qc_of_Z 4)%Qc) by (by apply Qclt_trans with e2).
  assert (He2' : (0 < e2)%Qc) by (by apply Qclt_trans with e1).
  destruct (compute_alphas_for_spg_spec spg (Some e1) max_d Hwf Hne Hmax)
    as (m & M & delta & alphas1 & Hres & Hdelta & _ & _ & Hd0 & Hd1
        & Hc1 & Hidx1 & _); [done|].
  destruct (compute_alphas_for_spg_spec spg (Some e2) max_d Hwf Hne Hmax)
    as (m' & M' & delta' & alphas2 & Hres' & Hdelta' & _ & _ & _ & _
        & Hc2 & Hidx2 & _); [done|].
  rewrite Hres in Hres'. injection Hres' as <- <-.
  rewrite Hdelta in Hdelta'. injection Hdelta' as <-.
  exists alphas1, alphas2. do 2 (split; [done|]).
  intros v Hv.
  assert (Hp : SPG.priority v ∈ sorted_priorities spg)
    by (apply elem_of_sorted_priorities; by exists v).
  apply list_elem_of_lookup in Hp as [i Hi].
  eexists _, _. split; [exact (Hidx1 _ _ Hi)|]. split; [exact (Hidx2 _ _ Hi)|].
  destruct (alpha0_ratio_mono e1 e2 delta (length (SPG.vertices spg)) M)
    as (? & ? & ? & ?); [done..|].
  by apply geometric_mono.
Qed.


(** ** Names *)

Lemma app_marker_nonempty (s : string) : s +:+ "'" ≠ "".
Proof. by destruct s. Qed.

Lemma app_marker_inj (s1 s2 : string) :
  s1 +:+ "'" = s2 +:+ "'" -> s1 = s2.
Proof.
  revert s2. induction s1 as [|a s1 IH]; intros [|b s2]; simpl; try done.
  - intros [= _ H]. symmetry in H. by apply app_marker_nonempty in H.
  - intros [= _ H]. by apply app_marker_nonempty in H.
  - intros [= -> H]. f_equal. by apply IH.
Qed.

(** A name ending in the marker is neither of the sink names. *)
Lemma app_marker_not_sink (s : string) :
  s +:+ "'" ≠ "v_win" /\ s +:+ "'" ≠ "v_lose".
Proof.
  split; intros H;
    repeat (destruct s as [|? s]; simpl in H; [discriminate|];
            injection H as _ H);
    by destruct s.
Qed.

Lemma str_inj (i j : nat) : str i = str j -> i = j.
Proof. apply pretty_nat_inj. Qed.

(** ** Dictionaries filled by a loop *)

Lemma foldl_insert_lookup `{Countable K} {A V} (k : A -> K) (f : A -> V)
    (l : list A) (m : gmap K V) :
  NoDup (k <$> l) ->
  (forall a, a ∈ l -> foldl (fun m a => <[k a := f a]> m) m l !! k a = Some (f a)) /\
  (forall x, x ∉ k <$> l -> foldl (fun m a => <[k a := f a]> m) m l !! x = m !! x).
Proof.
  revert m. induction l as [|b l IH]; intros m Hnd; simpl.
  - split; [by intros a ?%elem_of_nil|done].
  - apply NoDup_cons in Hnd as [Hb Hnd].
    destruct (IH (<[k b := f b]> m) Hnd) as [IH1 IH2]. split.
    + intros a [->|Ha]%elem_of_cons; [|by apply IH1].
      by rewrite IH2, lookup_insert_eq.
    + intros x [Hx1 Hx2]%not_elem_of_cons.
      by rewrite IH2, lookup_insert_ne.
Qed.

Lemma foldl_insert_dom `{Countable K} {A V} (k : A -> K) (f : A -> V)
    (l : list A) (m : gmap K V) :
  dom (foldl (fun m a => <[k a := f a]> m) m l) = dom m ∪ list_to_set (k <$> l).
Proof.
  revert m. induction l as [|b l IH]; intros m; simpl.
  - set_solver.
  - rewrite IH, dom_insert_L. set_solver.
Qed.

(** ** The decision vertices *)

Lemma decision_vertices_eq spg :
  decision_vertices spg =
  (foldl (fun m v => <[SPG.name v := decision v]> m) ∅ (SPG.vertices spg),
   foldl (fun m v => <[v := decision v]> m) ∅ (SPG.vertices spg)).
Proof.
  unfold decision_vertices.
  generalize (∅ : gmap string SsgVertex) (∅ : gmap SpgVertex SsgVertex).
  induction (SPG.vertices spg) as [|v vs IH]; intros V R; simpl; [done|].
  apply IH.
Qed.

Lemma decision_vertices_spec spg :
  NoDup (SPG.name <$> SPG.vertices spg) ->
  exists V0 R0,
    decision_vertices spg = (V0, R0) /\
    (forall v, v ∈ SPG.vertices spg -> V0 !! SPG.name v = Some (decision v)) /\
    (forall v, v ∈ SPG.vertices spg -> R0 !! v = Some (decision v)) /\
    dom V0 = list_to_set (SPG.name <$> SPG.vertices spg).
Proof.
  intros Hnd. rewrite decision_vertices_eq. eexists _, _. split; [done|].
  split; [|split].
  - by apply foldl_insert_lookup.
  - intros v Hv.
    apply (foldl_insert_lookup (fun v => v) decision); [|done].
    rewrite list_fmap_id. by apply NoDup_fmap_1 in Hnd.
  - rewrite foldl_insert_dom. set_solver.
Qed.

(** ** The suffix search *)

Lemma contains_spec `{Countable K} {V} (d : gmap K V) (k : K) :
  contains d k = true <-> k ∈ dom d.
Proof. unfold contains. by rewrite bool_decide_eq_true, elem_of_dom. Qed.

Lemma contains_false `{Countable K} {V} (d : gmap K V) (k : K) :
  contains d k = false <-> d !! k = None.
Proof.
  unfold contains. rewrite bool_decide_eq_false, <- eq_None_not_Some. done.
Qed.

(** The search stops: the names [base+str(j)] still to be tried and taken
    lie in a finite set that shrinks with every round. *)
Lemma first_free_spec (vertices : gmap string SsgVertex) (base : string)
    (fuel : nat) :
  forall (i0 : nat) (X : gset string),
  (forall j, (i0 <= j)%nat -> base +:+ str j ∈ dom vertices ->
             base +:+ str j ∈ X) ->
  (size X < fuel)%nat ->
  exists i, first_free fuel vertices base i0 = Ok i /\
            vertices !! (base +:+ str i) = None.
Proof.
  induction fuel as [|fuel IH]; intros i0 X HX Hsize; [lia|]. simpl.
  destruct (contains vertices (base +:+ str i0)) eqn:Hc.
  - apply contains_spec in Hc.
    assert (Hin : base +:+ str i0 ∈ X) by (by apply HX).
    apply (IH (S i0) (X ∖ {[ base +:+ str i0 ]})).
    + intros j Hj Hdom. apply elem_of_difference. split; [apply HX; [lia|done]|].
      intros Heq%elem_of_singleton%(inj (String.app base))%str_inj. lia.
    + assert (size X = size ({[ base +:+ str i0 ]} : gset string)
                       + size (X ∖ {[ base +:+ str i0 ]}))%nat.
      { rewrite <- size_union by set_solver. f_equal.
        apply set_eq. intros x. rewrite elem_of_union, elem_of_difference.
        destruct (decide (x = base +:+ str i0)); set_solver. }
      rewrite size_singleton in H. lia.
  - exists i0. split; [done|]. by apply contains_false.
Qed.

Lemma suffix_search_spec (vertices : gmap string SsgVertex) (base : string) :
  exists i, suffix_search vertices base = Ok i /\
            vertices !! (base +:+ str i) = None.
Proof.
  apply (first_free_spec vertices base _ 0%nat (dom vertices)); [done|].
  rewrite size_dom. lia.
Qed.

(** ** The intermediate vertices *)

Lemma add_intermediate_loop (V0 : gmap string SsgVertex) (l : list SpgVertex) :
  (forall v, v ∈ l -> V0 !! SPG.name v = Some (decision v)) ->
  forall (N : gmap string SsgVertex) (RI : gmap SsgVertex SsgVertex),
  exists N' RI',
    foldM (add_intermediate V0) (N, RI) l = Ok (N', RI') /\
    (forall s, s ∈ dom N' -> s ∈ dom N \/ V0 !! s = None) /\
    (forall d, is_Some (RI !! d) -> is_Some (RI' !! d)) /\
    (forall v, v ∈ l -> is_Some (RI' !! decision v)) /\
    ((forall v, v ∈ l -> V0 !! (SPG.name v +:+ "'") = None) ->
     dom N' = dom N ∪ list_to_set ((fun v => SPG.name v +:+ "'") <$> l)).
Proof.
  induction l as [|v l IH]; intros HV0 N RI.
  - exists N, RI. simpl. repeat split; [by left|done|by intros v ?%elem_of_nil|].
    intros _. set_solver.
  - assert (Hv : V0 !! SPG.name v = Some (decision v)) by (apply HV0; set_solver).
    assert (Hl : forall w, w ∈ l -> V0 !! SPG.name w = Some (decision w))
      by (intros; apply HV0; set_solver).
    assert (Hstep : exists nm nv,
      add_intermediate V0 (N, RI) v
        = Ok (<[nm := nv]> N, <[decision v := nv]> RI) /\
      V0 !! nm = None /\
      (V0 !! (SPG.name v +:+ "'") = None -> nm = SPG.name v +:+ "'")).
    { unfold add_intermediate.
      destruct (contains V0 (SPG.name v +:+ "'")) eqn:Hc; simpl.
      - destruct (suffix_search_spec V0 (SPG.name v +:+ "'")) as (i & -> & Hi).
        simpl. apply getitem_Ok in Hv. rewrite Hv. simpl.
        eexists _, _. split; [done|]. split; [done|].
        intros Hn. apply contains_false in Hn. congruence.
      - apply getitem_Ok in Hv. rewrite Hv. simpl.
        eexists _, _. split; [done|]. split; [by apply contains_false|done]. }
    destruct Hstep as (nm & nv & Hstep & Hnm & Hnm').
    destruct (IH Hl (<[nm := nv]> N) (<[decision v := nv]> RI))
      as (N' & RI' & Hfold & Hdom & Hmono & Hall & Hexact).
    exists N', RI'. split; [cbn [foldM]; rewrite Hstep; exact Hfold|].
    split; [|split; [|split]].
    + intros s Hs. destruct (Hdom s Hs) as [Hs'|?]; [|by right].
      rewrite dom_insert_L in Hs'.
      apply elem_of_union in Hs' as [->%elem_of_singleton|?];
        [by right|by left].
    + intros d Hd. apply Hmono.
      destruct (decide (d = decision v)) as [->|Hne];
        [by rewrite lookup_insert_eq|by rewrite lookup_insert_ne].
    + intros w [->|Hw]%elem_of_cons; [|by apply Hall].
      apply Hmono. by rewrite lookup_insert_eq.
    + intros Hfree. rewrite Hexact by (intros; apply Hfree; set_solver).
      rewrite dom_insert_L, Hnm' by (apply Hfree; set_solver).
      set_solver.
Qed.

(** ** The sinks *)

Lemma add_sink_spec (vertices : gmap string SsgVertex) (base : string)
    (eve target : bool) :
  exists nm,
    add_sink vertices base eve target
      = Ok (<[nm := mkSsgVertex nm eve target]> vertices) /\
    vertices !! nm = None /\
    is_Some (<[nm := mkSsgVertex nm eve target]> vertices !! base) /\
    (vertices !! base = None -> nm = base).
Proof.
  unfold add_sink. destruct (contains vertices base) eqn:Hc; simpl.
  - destruct (suffix_search_spec vertices base) as (i & -> & Hi). simpl.
    exists (base +:+ str i). split; [done|]. split; [done|].
    apply contains_spec, elem_of_dom in Hc. split.
    + destruct (decide (base +:+ str i = base)) as [He|Hne].
      * rewrite He in Hi. rewrite Hi in Hc. by destruct Hc.
      * by rewrite lookup_insert_ne.
    + intros Hn. rewrite Hn in Hc. by destruct Hc.
  - apply contains_false in Hc. exists base. split; [done|]. split; [done|].
    split; [by rewrite lookup_insert_eq|done].
Qed.

(** ** Copied and synthetic transitions *)

Lemma copy_transition_Ok (vs : list SpgVertex)
    (vertices : gmap string SsgVertex) (RI : gmap SsgVertex SsgVertex)
    (T : gmap (SsgVertex * string) SsgTransition) (t : SpgTransition) :
  (forall v, v ∈ vs -> vertices !! SPG.name v = Some (decision v)) ->
  (forall v, v ∈ vs -> is_Some (RI !! decision v)) ->
  wf_transition vs t ->
  exists T', copy_transition vertices RI T t = Ok T'.
Proof.
  intros HV HRI (Hstart & Hends & _). unfold copy_transition.
  pose proof (HV _ Hstart) as Hs. apply getitem_Ok in Hs. rewrite Hs.
  cbn [bind].
  match goal with |- context [foldM ?body ?acc ?l] =>
    destruct (foldM_inv (fun _ => True) body acc l) as (end_vs & -> & _)
  end; [done| |cbn [bind]; eauto].
  intros acc [prob end_v] Hin%elem_of_elements _.
  destruct (Hends _ Hin) as (_ & _ & Hv). simpl in Hv.
  pose proof (HV _ Hv) as He. apply getitem_Ok in He. rewrite He. cbn [bind].
  destruct (HRI _ Hv) as [i Hi]. apply getitem_Ok in Hi. rewrite Hi.
  cbn [bind]. eauto.
Qed.

Lemma add_alpha_transition_Ok (alphas : gmap Z Qc)
    (vertices : gmap string SsgVertex) (R0 : gmap SpgVertex SsgVertex)
    (RI : gmap SsgVertex SsgVertex)
    (T : gmap (SsgVertex * string) SsgTransition) (v : SpgVertex) :
  R0 !! v = Some (decision v) ->
  is_Some (RI !! decision v) ->
  is_Some (vertices !! "v_win") -> is_Some (vertices !! "v_lose") ->
  is_Some (vertices !! SPG.name v) ->
  match alphas !! SPG.priority v with
  | Some _ => exists T', add_alpha_transition alphas vertices R0 RI T v = Ok T'
  | None => add_alpha_transition alphas vertices R0 RI T v = Raise KeyError
  end.
Proof.
  intros HR0 [i Hi] [w Hw] [l Hl] [b Hb]. unfold add_alpha_transition.
  apply getitem_Ok in HR0, Hi. rewrite HR0. cbn [bind]. rewrite Hi.
  cbn [bind].
  destruct (alphas !! SPG.priority v) as [a|] eqn:Ha;
    [|by rewrite (getitem_Raise _ _ Ha)].
  apply getitem_Ok in Ha. rewrite Ha. cbn [bind].
  assert (Hsink : exists s,
    getitem vertices (if SPG.priority v mod 2 =? 0 then "v_win" else "v_lose")
      = Ok s).
  { destruct (SPG.priority v mod 2 =? 0); eexists; by apply getitem_Ok. }
  destruct Hsink as [s ->]. cbn [bind].
  apply getitem_Ok in Hb. simpl SSG.name. rewrite Hb. cbn [bind]. eauto.
Qed.

Lemma foldM_Raise {A S} (body : S -> A -> result S) (e : exn)
    (l : list A) :
  (forall acc x, x ∈ l ->
     (exists acc', body acc x = Ok acc') \/ body acc x = Raise e) ->
  (exists x, x ∈ l /\ forall acc, body acc x = Raise e) ->
  forall acc, foldM body acc l = Raise e.
Proof.
  induction l as [|x l IH]; intros Hbody (y & Hy & Hbad) acc.
  - by apply elem_of_nil in Hy.
  - simpl. destruct (Hbody acc x) as [[acc' Hx]| ->]; [set_solver| |done].
    rewrite Hx. simpl. apply IH; [intros; apply Hbody; set_solver|].
    apply elem_of_cons in Hy as [->|Hy]; [|by exists y].
    rewrite Hbad in Hx. discriminate.
Qed.

(** ** The graph transformer *)

(** Everything before the loop of line 137 succeeds on a well-formed
    game. *)
Lemma transformer_prefix spg :
  wf_spg spg ->
  exists V0 R0 N RI V1 V2 T1,
    decision_vertices spg = (V0, R0) /\
    getitem V0 (SPG.name (SPG.init_vertex spg))
      = Ok (decision (SPG.init_vertex spg)) /\
    foldM (add_intermediate V0) (∅, ∅) (SPG.vertices spg) = Ok (N, RI) /\
    add_sink (N ∪ V0) "v_win" true true = Ok V1 /\
    add_sink V1 "v_lose" false false = Ok V2 /\
    foldM (copy_transition V2 RI) ∅ (SPG.transitions spg) = Ok T1 /\
    (forall v, v ∈ SPG.vertices spg -> R0 !! v = Some (decision v)) /\
    (forall v, v ∈ SPG.vertices spg -> V2 !! SPG.name v = Some (decision v)) /\
    (forall v, v ∈ SPG.vertices spg -> is_Some (RI !! decision v)) /\
    is_Some (V2 !! "v_win") /\ is_Some (V2 !! "v_lose") /\
    (no_collision spg ->
     size V2 = (2 * length (SPG.vertices spg) + 2)%nat).
Proof.
  intros (Hnd & Hinit & Hts).
  destruct (decision_vertices_spec spg Hnd) as (V0 & R0 & HD & HV0 & HR0 & Hdom0).
  destruct (add_intermediate_loop V0 (SPG.vertices spg) HV0 ∅ ∅)
    as (N & RI & HN & HNdom & _ & HRI & HNexact).
  assert (HNV0 : forall s, is_Some (V0 !! s) -> N !! s = None).
  { intros s [x Hx]. apply not_elem_of_dom. intros Hs.
    destruct (HNdom s Hs) as [Hs'|Hs']; [set_solver|congruence]. }
  assert (HU : forall v, v ∈ SPG.vertices spg ->
            (N ∪ V0) !! SPG.name v = Some (decision v)).
  { intros v Hv. rewrite lookup_union_r; [by apply HV0|].
    apply HNV0. rewrite HV0; eauto. }
  destruct (add_sink_spec (N ∪ V0) "v_win" true true)
    as (nm1 & HV1 & Hnm1 & Hwin & _).
  set (V1 := <[nm1 := mkSsgVertex nm1 true true]> (N ∪ V0)) in *.
  destruct (add_sink_spec V1 "v_lose" false false)
    as (nm2 & HV2 & Hnm2 & Hlose & _).
  set (V2 := <[nm2 := mkSsgVertex nm2 false false]> V1) in *.
  assert (HV2v : forall v, v ∈ SPG.vertices spg ->
            V2 !! SPG.name v = Some (decision v)).
  { intros v Hv. pose proof (HU v Hv) as Hu.
    assert (V1 !! SPG.name v = Some (decision v)).
    { unfold V1. rewrite lookup_insert_ne; [done|]. intros ->. congruence. }
    unfold V2. rewrite lookup_insert_ne; [done|]. intros ->. congruence. }
  assert (HT : exists T1,
    foldM (copy_transition V2 RI) ∅ (SPG.transitions spg) = Ok T1).
  { destruct (foldM_inv (fun _ => True) (copy_transition V2 RI) ∅
                (SPG.transitions spg)) as (T1 & ? & _); [done| |by exists T1].
    intros T t Ht _. rewrite Forall_forall in Hts.
    destruct (copy_transition_Ok (SPG.vertices spg) V2 RI T t) as [T' ?];
      [done|done|by apply Hts|]. by exists T'. }
  destruct HT as [T1 HT].
  exists V0, R0, N, RI, V1, V2, T1. do 6 (split; [done || by apply getitem_Ok, HV0|]).
  do 3 (split; [done|]). split.
  { destruct Hwin as [x Hx]. exists x. unfold V2.
    rewrite lookup_insert_ne; [done|]. intros ->. fold V1 in Hx. congruence. }
  split; [done|].
  intros Hnc. unfold V2, V1.
  assert (Hmarker : forall v w, v ∈ SPG.vertices spg ->
            w ∈ SPG.vertices spg -> SPG.name w ≠ SPG.name v +:+ "'").
  { intros v w Hv Hw. unfold no_collision in Hnc.
    rewrite Forall_forall in Hnc. destruct (Hnc v Hv) as [Hvw _].
    rewrite Forall_forall in Hvw. by apply Hvw. }
  rewrite map_size_insert_None by done.
  rewrite map_size_insert_None by done.
  rewrite map_size_disj_union.
  2:{ apply map_disjoint_alt. intros s.
      destruct (V0 !! s) eqn:E; [left; apply HNV0; eauto|by right]. }
  assert (Hfree : forall v, v ∈ SPG.vertices spg ->
            V0 !! (SPG.name v +:+ "'") = None).
  { intros v Hv. apply not_elem_of_dom. rewrite Hdom0, elem_of_list_to_set.
    intros (w & Hw & Hin)%list_elem_of_fmap. by apply (Hmarker v w). }
  rewrite <- (size_dom N), HNexact, dom_empty_L, (left_id_L ∅ (∪)) by done.
  rewrite <- (size_dom V0), Hdom0. rewrite !size_list_to_set.
  - rewrite !length_fmap. lia.
  - done.
  - apply (NoDup_fmap_2_strong); [|by apply NoDup_fmap_1 in Hnd].
    intros v w Hv Hw Heq%app_marker_inj.
    apply NoDup_fmap_1 in Hnd as Hnd'.
    apply list_elem_of_lookup in Hv as [i Hi], Hw as [j Hj].
    assert (i = j); [|congruence].
    eapply (NoDup_lookup (SPG.name <$> SPG.vertices spg)); [done| |].
    + rewrite list_lookup_fmap, Hi. done.
    + rewrite list_lookup_fmap, Hj. simpl. by rewrite Heq.
Qed.

Lemma graph_transformer_Ok spg alphas :
  wf_spg spg ->
  (forall v, v ∈ SPG.vertices spg -> is_Some (alphas !! SPG.priority v)) ->
  exists ssg,
    graph_transformer spg alphas = Ok ssg /\
    SSG.init_vertex ssg = decision (SPG.init_vertex spg) /\
    (forall v, v ∈ SPG.vertices spg ->
       SSG.vertices ssg !! SPG.name v = Some (decision v)) /\
    (no_collision spg ->
     size (SSG.vertices ssg) = (2 * length (SPG.vertices spg) + 2)%nat).
Proof.
  intros Hwf Hcover.
  destruct (transformer_prefix spg Hwf)
    as (V0 & R0 & N & RI & V1 & V2 & T1 & HD & Hinit & HN & HV1 & HV2 & HT1
        & HR0 & HV2v & HRI & Hwin & Hlose & Hsize).
  destruct (foldM_inv (fun _ => True)
              (add_alpha_transition alphas V2 R0 RI) T1 (SPG.vertices spg))
    as (T2 & HT2 & _); [done| |].
  { intros T v Hv _.
    pose proof (add_alpha_transition_Ok alphas V2 R0 RI T v (HR0 v Hv)
                  (HRI v Hv) Hwin Hlose) as Ha.
    destruct (Hcover v Hv) as [a Hav]. rewrite Hav in Ha.
    destruct Ha as [T' HT']; [rewrite HV2v; eauto|]. by exists T'. }
  eexists. unfold graph_transformer. rewrite HD, Hinit. cbn [bind].
  rewrite HN. cbn [bind]. rewrite HV1. cbn [bind]. rewrite HV2. cbn [bind].
  rewrite HT1. cbn [bind]. rewrite HT2. cbn [bind].
  split; [done|]. split; [done|]. split; [exact HV2v|exact Hsize].
Qed.

Lemma graph_transformer_KeyError spg alphas :
  wf_spg spg ->
  (exists v, v ∈ SPG.vertices spg /\ alphas !! SPG.priority v = None) ->
  graph_transformer spg alphas = Raise KeyError.
Proof.
  intros Hwf Hmiss.
  destruct (transformer_prefix spg Hwf)
    as (V0 & R0 & N & RI & V1 & V2 & T1 & HD & Hinit & HN & HV1 & HV2 & HT1
        & HR0 & HV2v & HRI & Hwin & Hlose & _).
  assert (Hstep : forall T v, v ∈ SPG.vertices spg ->
    match alphas !! SPG.priority v with
    | Some _ => exists T', add_alpha_transition alphas V2 R0 RI T v = Ok T'
    | None => add_alpha_transition alphas V2 R0 RI T v = Raise KeyError
    end).
  { intros T v Hv. apply add_alpha_transition_Ok; auto.
    rewrite HV2v; eauto. }
  unfold graph_transformer. rewrite HD, Hinit. cbn [bind].
  rewrite HN. cbn [bind]. rewrite HV1. cbn [bind]. rewrite HV2. cbn [bind].
  rewrite HT1. cbn [bind].
  rewrite (foldM_Raise (add_alpha_transition alphas V2 R0 RI) KeyError); [done| |].
  - intros T v Hv. specialize (Hstep T v Hv).
    destruct (alphas !! SPG.priority v); [by left|by right].
  - destruct Hmiss as (v & Hv & Hnone). exists v. split; [done|].
    intros T. specialize (Hstep T v Hv). by rewrite Hnone in Hstep.
Qed.

(** The whole pipeline returns on a well-formed game with a transition. *)
Lemma spg_to_ssg_Ok spg epsilon :
  wf_spg spg -> SPG.transitions spg ≠ [] -> admissible epsilon ->
  exists alphas ssg,
    compute_alphas_for_spg spg epsilon 10000 = Ok alphas /\
    (forall v, v ∈ SPG.vertices spg -> is_Some (alphas !! SPG.priority v)) /\
    graph_transformer spg alphas = Ok ssg /\
    spg_to_ssg spg epsilon = Ok ssg /\
    SSG.init_vertex ssg = decision (SPG.init_vertex spg) /\
    (forall v, v ∈ SPG.vertices spg ->
       SSG.vertices ssg !! SPG.name v = Some (decision v)) /\
    (no_collision spg ->
     size (SSG.vertices ssg) = (2 * length (SPG.vertices spg) + 2)%nat).
Proof.
  intros Hwf Hne Heps.
  destruct (compute_alphas_for_spg_spec spg epsilon 10000 Hwf Hne
              ltac:(lia) Heps)
    as (m & M & delta & alphas & _ & _ & _ & _ & _ & _ & Hc & _ & Hdom).
  assert (Hcover : forall v, v ∈ SPG.vertices spg ->
            is_Some (alphas !! SPG.priority v)).
  { intros v Hv. apply elem_of_dom. rewrite Hdom, elem_of_list_to_set.
    apply elem_of_sorted_priorities. by exists v. }
  destruct (graph_transformer_Ok spg alphas Hwf Hcover)
    as (ssg & Hg & Hi & Hv & Hs).
  exists alphas, ssg. do 3 (split; [done|]).
  split; [|done]. unfold spg_to_ssg. by rewrite Hc.
Qed.

(** ** The claims on the graph transformer *)

(** C5. Without name collisions the produced game has exactly
    [2 * |vertices| + 2] vertices, and its initial vertex is the decision
    vertex of the initial vertex of the input: same name and owner, not a
    target, stored under that name. *)
Theorem ssg_vertex_count_and_initial_vertex spg epsilon :
  wf_spg spg -> SPG.transitions spg ≠ [] -> admissible epsilon ->
  no_collision spg ->
  exists ssg,
    spg_to_ssg spg epsilon = Ok ssg /\
    size (SSG.vertices ssg) = (2 * length (SPG.vertices spg) + 2)%nat /\
    SSG.init_vertex ssg =
      mkSsgVertex (SPG.name (SPG.init_vertex spg))
                  (SPG.is_eve (SPG.init_vertex spg)) false /\
    SSG.vertices ssg !! SPG.name (SPG.init_vertex spg)
      = Some (SSG.init_vertex ssg).
Proof.
  intros Hwf Hne Heps Hnc.
  destruct (spg_to_ssg_Ok spg epsilon Hwf Hne Heps)
    as (alphas & ssg & _ & _ & _ & Hssg & Hinit & Hv & Hsize).
  exists ssg. split; [done|]. split; [by apply Hsize|]. split; [done|].
  rewrite Hinit. apply Hv. by destruct Hwf as (_ & ? & _).
Qed.

(** C8 (as the code behaves).  On a well-formed game, an alpha map without
    an entry for the priority of some vertex makes the transformer raise
    the built-in [KeyError] of the dict lookup, and a map that covers the
    priority of every vertex makes it return a game. *)
Theorem transformer_missing_alpha_raises_KeyError spg alphas :
  wf_spg spg ->
  ((exists v, v ∈ SPG.vertices spg /\ alphas !! SPG.priority v = None) ->
   graph_transformer spg alphas = Raise KeyError) /\
  ((forall v, v ∈ SPG.vertices spg -> is_Some (alphas !! SPG.priority v)) ->
   exists ssg, graph_transformer spg alphas = Ok ssg).
Proof.
  intros Hwf. split.
  - by apply graph_transformer_KeyError.
  - intros Hcover.
    destruct (graph_transformer_Ok spg alphas Hwf Hcover) as (ssg & ? & _).
    by exists ssg.
Qed.

(** C10. The keys of the alpha map are exactly the priorities of the
    vertices; hence in [spg_to_ssg], which derives the map from the game it
    transforms, every alpha lookup succeeds and the pipeline returns. *)
Theorem alpha_map_keys_are_the_priorities spg epsilon max_d :
  wf_spg spg -> SPG.transitions spg ≠ [] -> admissible epsilon ->
  1 <= max_d ->
  (exists alphas,
     compute_alphas_for_spg spg epsilon max_d = Ok alphas /\
     forall p, p ∈ dom alphas <->
               exists v, v ∈ SPG.vertices spg /\ SPG.priority v = p) /\
  (exists alphas ssg,
     compute_alphas_for_spg spg epsilon 10000 = Ok alphas /\
     (forall v, v ∈ SPG.vertices spg ->
        is_Some (alphas !! SPG.priority v)) /\
     graph_transformer spg alphas = Ok ssg /\
     spg_to_ssg spg epsilon = Ok ssg).
Proof.
  intros Hwf Hne Heps Hmax. split.
  - destruct (compute_alphas_for_spg_spec spg epsilon max_d Hwf Hne Hmax Heps)
      as (m & M & delta & alphas & _ & _ & _ & _ & _ & _ & Hc & _ & Hdom).
    exists alphas. split; [done|]. intros p.
    by rewrite Hdom, elem_of_list_to_set, elem_of_sorted_priorities.
  - destruct (spg_to_ssg_Ok spg epsilon Hwf Hne Heps)
      as (alphas & ssg & Hc & Hcover & Hg & Hssg & _).
    by exists alphas, ssg.
Qed.

(** ** The produced game without name collisions *)

Lemma distribution_sum_insert `{Countable V} (x : Qc * V) (X : gset (Qc * V)) :
  x ∉ X -> distribution_sum ({[ x ]} ∪ X) = (x.1 + distribution_sum X)%Qc.
Proof.
  intros Hx. unfold distribution_sum.
  rewrite (comm_L (∪) {[ x ]} X).
  rewrite (set_fold_disj_union_strong (=)
             (fun pv acc => (pv.1 + acc)%Qc) 0%Qc X {[ x ]}).
  - by rewrite set_fold_singleton.
  - solve_proper.
  - intros x1 x2 b _ _ _. ring.
  - set_solver.
Qed.

Lemma distribution_sum_pair `{Countable V} (x y : Qc * V) :
  x ≠ y -> distribution_sum ({[ x; y ]} : gset (Qc * V)) = (x.1 + y.1)%Qc.
Proof.
  intros Hxy. rewrite distribution_sum_insert by set_solver.
  rewrite <- (right_id_L ∅ (∪) {[ y ]}).
  rewrite distribution_sum_insert by set_solver.
  rewrite distribution_sum_empty. ring.
Qed.

Lemma distribution_sum_map `{Countable V} `{Countable W} (g : V -> W)
    (X : gset (Qc * V)) :
  (forall x y, x ∈ X -> y ∈ X -> g x.2 = g y.2 -> x.2 = y.2) ->
  distribution_sum (set_map (fun pv => (pv.1, g pv.2)) X : gset (Qc * W))
  = distribution_sum X.
Proof.
  induction X as [|x X Hx IH] using set_ind_L; intros Hinj.
  - by rewrite set_map_empty, !distribution_sum_empty.
  - rewrite set_map_union_L, set_map_singleton_L.
    rewrite !distribution_sum_insert; [|done|].
    + simpl. rewrite IH; [done|]. intros; apply Hinj; set_solver.
    + intros (y & Heq & Hy)%elem_of_map. injection Heq as H1 H2.
      apply Hinj in H2; [|set_solver..].
      destruct x, y; simpl in *; subst. done.
Qed.

Lemma no_collision_spec spg :
  no_collision spg ->
  (forall v w, v ∈ SPG.vertices spg -> w ∈ SPG.vertices spg ->
               SPG.name w ≠ SPG.name v +:+ "'") /\
  (forall v, v ∈ SPG.vertices spg ->
             SPG.name v ≠ "v_win" /\ SPG.name v ≠ "v_lose").
Proof.
  unfold no_collision. rewrite Forall_forall. intros Hnc. split.
  - intros v w Hv Hw. destruct (Hnc v Hv) as [Hvw _].
    rewrite Forall_forall in Hvw. by apply Hvw.
  - intros v Hv. by destruct (Hnc v Hv) as [_ ?].
Qed.

Lemma add_intermediate_loop_exact (V0 : gmap string SsgVertex)
    (l : list SpgVertex) :
  (forall v, v ∈ l -> V0 !! SPG.name v = Some (decision v)) ->
  (forall v, v ∈ l -> V0 !! (SPG.name v +:+ "'") = None) ->
  forall (N : gmap string SsgVertex) (RI : gmap SsgVertex SsgVertex),
  foldM (add_intermediate V0) (N, RI) l =
  Ok (foldl (fun m v => <[SPG.name v +:+ "'" := intermediate v]> m) N l,
      foldl (fun m v => <[decision v := intermediate v]> m) RI l).
Proof.
  induction l as [|v l IH]; intros HV0 Hfree N RI; [done|].
  cbn [foldM foldl]. unfold add_intermediate at 1.
  assert (Hc : contains V0 (SPG.name v +:+ "'") = false)
    by (apply contains_false, Hfree; set_solver).
  rewrite Hc. cbn [negb].
  assert (Hv : getitem V0 (SPG.name v) = Ok (decision v))
    by (apply getitem_Ok, HV0; set_solver).
  rewrite Hv. cbn [bind].
  apply IH; intros; [apply HV0|apply Hfree]; set_solver.
Qed.

Lemma name_inj (vs : list SpgVertex) (v w : SpgVertex) :
  NoDup (SPG.name <$> vs) -> v ∈ vs -> w ∈ vs ->
  SPG.name v = SPG.name w -> v = w.
Proof.
  intros Hnd [i Hi]%list_elem_of_lookup [j Hj]%list_elem_of_lookup Heq.
  assert (i = j); [|congruence].
  eapply (NoDup_lookup (SPG.name <$> vs)); [done| |].
  - rewrite list_lookup_fmap, Hi. done.
  - rewrite list_lookup_fmap, Hj. simpl. by rewrite Heq.
Qed.

Lemma transformer_prefix_exact spg :
  wf_spg spg -> no_collision spg ->
  exists V0 R0 N RI V2,
    decision_vertices spg = (V0, R0) /\
    getitem V0 (SPG.name (SPG.init_vertex spg))
      = Ok (decision (SPG.init_vertex spg)) /\
    foldM (add_intermediate V0) (∅, ∅) (SPG.vertices spg) = Ok (N, RI) /\
    add_sink (N ∪ V0) "v_win" true true = Ok (<["v_win" := WIN]> (N ∪ V0)) /\
    add_sink (<["v_win" := WIN]> (N ∪ V0)) "v_lose" false false = Ok V2 /\
    (forall v, v ∈ SPG.vertices spg -> R0 !! v = Some (decision v)) /\
    (forall v, v ∈ SPG.vertices spg -> V2 !! SPG.name v = Some (decision v)) /\
    (forall v, v ∈ SPG.vertices spg ->
       RI !! decision v = Some (intermediate v)) /\
    V2 !! "v_win" = Some WIN /\ V2 !! "v_lose" = Some LOSE.
Proof.
  intros Hwf Hnc. pose proof Hwf as (Hnd & Hinit & Hts).
  destruct (no_collision_spec spg Hnc) as [Hmarker Hsinks].
  destruct (decision_vertices_spec spg Hnd) as (V0 & R0 & HD & HV0 & HR0 & Hdom0).
  assert (Hfree : forall v, v ∈ SPG.vertices spg ->
            V0 !! (SPG.name v +:+ "'") = None).
  { intros v Hv. apply not_elem_of_dom. rewrite Hdom0, elem_of_list_to_set.
    intros (w & Hw & Hin)%list_elem_of_fmap. by apply (Hmarker v w). }
  pose proof (add_intermediate_loop_exact V0 (SPG.vertices spg) HV0 Hfree ∅ ∅)
    as HN.
  set (N := foldl (fun m v => <[SPG.name v +:+ "'" := intermediate v]> m)
                  (∅ : gmap string SsgVertex) (SPG.vertices spg)) in *.
  set (RI := foldl (fun m v => <[decision v := intermediate v]> m)
                   (∅ : gmap SsgVertex SsgVertex) (SPG.vertices spg)) in *.
  assert (HNnone : forall s,
            (forall v, v ∈ SPG.vertices spg -> s ≠ SPG.name v +:+ "'") ->
            N !! s = None).
  { intros s Hs. unfold N.
    destruct (foldl_insert_lookup (fun v => SPG.name v +:+ "'") intermediate
                (SPG.vertices spg) (∅ : gmap string SsgVertex)) as [_ H2].
    - apply NoDup_fmap_2_strong; [|by apply NoDup_fmap_1 in Hnd].
      intros v w Hv Hw Heq%app_marker_inj. by apply (name_inj (SPG.vertices spg)).
    - rewrite H2; [done|]. intros (v & -> & Hv)%list_elem_of_fmap.
      by apply (Hs v). }
  assert (HU : forall v, v ∈ SPG.vertices spg ->
            (N ∪ V0) !! SPG.name v = Some (decision v)).
  { intros v Hv. rewrite lookup_union_r; [by apply HV0|].
    apply HNnone. intros w Hw. by apply Hmarker. }
  assert (HV0none : forall s,
            (forall v, v ∈ SPG.vertices spg -> s ≠ SPG.name v) ->
            V0 !! s = None).
  { intros s Hs. apply not_elem_of_dom. rewrite Hdom0, elem_of_list_to_set.
    intros (v & -> & Hv)%list_elem_of_fmap. by apply (Hs v). }
  assert (Hwin : (N ∪ V0) !! "v_win" = None).
  { apply lookup_union_None. split.
    - apply HNnone. intros v _ Heq. symmetry in Heq.
      by apply app_marker_not_sink in Heq.
    - apply HV0none. intros v Hv Heq. symmetry in Heq.
      by apply Hsinks in Heq. }
  assert (Hlose : (<["v_win" := WIN]> (N ∪ V0)) !! "v_lose" = None).
  { rewrite lookup_insert_ne by done. apply lookup_union_None. split.
    - apply HNnone. intros v _ Heq. symmetry in Heq.
      by apply app_marker_not_sink in Heq.
    - apply HV0none. intros v Hv Heq. symmetry in Heq.
      by apply Hsinks in Heq. }
  exists V0, R0, N, RI, (<["v_lose" := LOSE]> (<["v_win" := WIN]> (N ∪ V0))).
  split; [done|]. split; [by apply getitem_Ok, HV0|]. split; [done|].
  split.
  { unfold add_sink. apply contains_false in Hwin. by rewrite Hwin. }
  split.
  { unfold add_sink. apply contains_false in Hlose. by rewrite Hlose. }
  split; [done|]. split.
  { intros v Hv. destruct (Hsinks v Hv) as [? ?].
    rewrite !lookup_insert_ne by done. by apply HU. }
  split.
  { intros v Hv. unfold RI.
    apply (foldl_insert_lookup decision intermediate); [|done].
    apply NoDup_fmap_2_strong; [|by apply NoDup_fmap_1 in Hnd].
    intros x y Hx Hy Heq. apply (name_inj (SPG.vertices spg)); [done..|].
    by injection Heq. }
  split.
  - rewrite lookup_insert_ne by done. by rewrite lookup_insert_eq.
  - by rewrite lookup_insert_eq.
Qed.

Lemma foldl_insert_lookup_Some `{Countable K} {A V} (k : A -> K) (f : A -> V)
    (l : list A) (m : gmap K V) (x : K) (y : V) :
  foldl (fun m a => <[k a := f a]> m) m l !! x = Some y ->
  (exists a, a ∈ l /\ k a = x /\ y = f a) \/ m !! x = Some y.
Proof.
  revert m. induction l as [|b l IH]; intros m; simpl; [by right|].
  intros [(a & Ha & Hk & Hy)|Hm]%IH.
  - left. exists a. split; [set_solver|done].
  - destruct (decide (k b = x)) as [<-|Hne].
    + rewrite lookup_insert_eq in Hm. injection Hm as <-.
      left. exists b. split; [set_solver|done].
    + rewrite lookup_insert_ne in Hm by done. by right.
Qed.

Section exact.

Variables (vs : list SpgVertex) (V2 : gmap string SsgVertex)
          (R0 : gmap SpgVertex SsgVertex) (RI : gmap SsgVertex SsgVertex).
Hypothesis HR0 : forall v, v ∈ vs -> R0 !! v = Some (decision v).
Hypothesis HV2 : forall v, v ∈ vs -> V2 !! SPG.name v = Some (decision v).
Hypothesis HRI : forall v, v ∈ vs -> RI !! decision v = Some (intermediate v).
Hypothesis Hwin : V2 !! "v_win" = Some WIN.
Hypothesis Hlose : V2 !! "v_lose" = Some LOSE.

Lemma redirect_loop (l : list (Qc * SpgVertex)) :
  (forall pv, pv ∈ l -> pv.2 ∈ vs) ->
  forall acc : gset (Qc * SsgVertex),
  foldM (fun (end_vs : gset (Qc * SsgVertex)) '(prob, end_v) =>
           d <- getitem V2 (SPG.name end_v) ;;
           i <- getitem RI d ;;
           Ok ({[ (prob, i) ]} ∪ end_vs))
        acc l
  = Ok (list_to_set (redirect <$> l) ∪ acc).
Proof.
  induction l as [|[p v] l IH]; intros Hl acc.
  - simpl. f_equal. set_solver.
  - cbn [foldM].
    assert (Hv : v ∈ vs) by (apply (Hl (p, v)); set_solver).
    pose proof (HV2 v Hv) as H1. apply getitem_Ok in H1. rewrite H1.
    cbn [bind].
    pose proof (HRI v Hv) as H2. apply getitem_Ok in H2. rewrite H2.
    cbn [bind]. rewrite IH by (intros; apply Hl; set_solver).
    f_equal. cbn [fmap list_fmap]. unfold redirect at 2. simpl. set_solver.
Qed.

Lemma copy_transition_exact (T : gmap (SsgVertex * string) SsgTransition)
    (t : SpgTransition) :
  wf_transition vs t ->
  copy_transition V2 RI T t
  = Ok (<[(decision (SPG.start_vertex t), SPG.action t) := copied t]> T).
Proof.
  intros (Hstart & Hends & _). unfold copy_transition.
  pose proof (HV2 _ Hstart) as Hs. apply getitem_Ok in Hs. rewrite Hs.
  cbn [bind]. rewrite redirect_loop.
  - cbn [bind]. unfold copied, set_map. by rewrite (right_id_L ∅ (∪)).
  - intros pv Hpv%elem_of_elements. by destruct (Hends pv Hpv) as (_ & _ & ?).
Qed.

Lemma copy_loop_exact (ts : list SpgTransition) :
  Forall (wf_transition vs) ts ->
  forall T,
  foldM (copy_transition V2 RI) T ts
  = Ok (foldl (fun T t =>
                 <[(decision (SPG.start_vertex t), SPG.action t) := copied t]> T)
              T ts).
Proof.
  induction ts as [|t ts IH]; intros Hts T; [done|].
  apply Forall_cons in Hts as [Ht Hts].
  cbn [foldM foldl]. rewrite copy_transition_exact by done. cbn [bind].
  by apply IH.
Qed.

Lemma add_alpha_transition_exact (alphas : gmap Z Qc)
    (T : gmap (SsgVertex * string) SsgTransition) (v : SpgVertex) (a : Qc) :
  v ∈ vs -> alphas !! SPG.priority v = Some a ->
  add_alpha_transition alphas V2 R0 RI T v
  = Ok (<[(intermediate v, "alpha") := alpha_transition a v]> T).
Proof.
  intros Hv Ha. unfold add_alpha_transition.
  pose proof (HR0 v Hv) as H1. apply getitem_Ok in H1. rewrite H1. cbn [bind].
  pose proof (HRI v Hv) as H2. apply getitem_Ok in H2. rewrite H2. cbn [bind].
  apply getitem_Ok in Ha. rewrite Ha. cbn [bind].
  assert (Hs : getitem V2
                 (if SPG.priority v mod 2 =? 0 then "v_win" else "v_lose")
               = Ok (sink_of v)).
  { unfold sink_of. destruct (SPG.priority v mod 2 =? 0); by apply getitem_Ok. }
  rewrite Hs. cbn [bind].
  pose proof (HV2 v Hv) as H3. apply getitem_Ok in H3.
  simpl SSG.name. rewrite H3. done.
Qed.

Lemma alpha_loop_exact (alphas : gmap Z Qc) (l : list SpgVertex) :
  (forall v, v ∈ l -> v ∈ vs /\ is_Some (alphas !! SPG.priority v)) ->
  forall T,
  foldM (add_alpha_transition alphas V2 R0 RI) T l
  = Ok (foldl (fun T v =>
                 <[(intermediate v, "alpha")
                   := alpha_transition (alpha_at alphas v) v]> T)
              T l).
Proof.
  induction l as [|v l IH]; intros Hl T; [done|].
  destruct (Hl v) as [Hv [a Ha]]; [set_solver|].
  cbn [foldM foldl]. rewrite (add_alpha_transition_exact alphas T v a) by done.
  cbn [bind]. unfold alpha_at at 2. rewrite Ha. simpl default.
  apply IH. intros; apply Hl; set_solver.
Qed.

End exact.

Lemma graph_transformer_exact spg alphas :
  wf_spg spg -> no_collision spg ->
  (forall v, v ∈ SPG.vertices spg -> is_Some (alphas !! SPG.priority v)) ->
  exists ssg,
    graph_transformer spg alphas = Ok ssg /\
    SSG.transitions ssg = expected_transitions spg alphas /\
    SSG.vertices ssg !! "v_win" = Some WIN /\
    SSG.vertices ssg !! "v_lose" = Some LOSE.
Proof.
  intros Hwf Hnc Hcover.
  destruct (transformer_prefix_exact spg Hwf Hnc)
    as (V0 & R0 & N & RI & V2 & HD & Hinit & HN & HV1 & HV2 & HR0 & HV2v
        & HRI & Hwin & Hlose).
  pose proof Hwf as (_ & _ & Hts).
  eexists. unfold graph_transformer. rewrite HD, Hinit. cbn [bind].
  rewrite HN. cbn [bind]. rewrite HV1. cbn [bind]. rewrite HV2. cbn [bind].
  rewrite (copy_loop_exact (SPG.vertices spg) V2 R0 RI HR0 HV2v HRI Hwin Hlose)
    by done.
  cbn [bind].
  rewrite (alpha_loop_exact (SPG.vertices spg) V2 R0 RI HR0 HV2v HRI Hwin
             Hlose alphas) by (intros; split; [done|by apply Hcover]).
  cbn [bind]. split; [done|]. by repeat split.
Qed.

Lemma sink_of_neq_decision spg v :
  no_collision spg -> v ∈ SPG.vertices spg -> sink_of v ≠ decision v.
Proof.
  intros Hnc Hv. destruct (no_collision_spec spg Hnc) as [_ Hsinks].
  destruct (Hsinks v Hv) as [_ Hl]. unfold sink_of, decision.
  destruct (SPG.priority v mod 2 =? 0); [done|].
  intros [= Heq _]. by apply Hl.
Qed.

Lemma expected_transitions_alpha spg alphas v :
  wf_spg spg -> v ∈ SPG.vertices spg ->
  expected_transitions spg alphas !! (intermediate v, "alpha")
  = Some (alpha_transition (alpha_at alphas v) v).
Proof.
  intros (Hnd & _ & _) Hv. unfold expected_transitions.
  apply (foldl_insert_lookup (fun v => (intermediate v, "alpha"))
           (fun v => alpha_transition (alpha_at alphas v) v)); [|done].
  apply NoDup_fmap_2_strong; [|by apply NoDup_fmap_1 in Hnd].
  intros x y Hx Hy Heq%(f_equal fst)%(f_equal SSG.name)%app_marker_inj.
  by apply (name_inj (SPG.vertices spg)).
Qed.

Lemma expected_transitions_inv spg alphas k t' :
  expected_transitions spg alphas !! k = Some t' ->
  (exists v, v ∈ SPG.vertices spg /\ k = (intermediate v, "alpha") /\
             t' = alpha_transition (alpha_at alphas v) v) \/
  (exists t, t ∈ SPG.transitions spg /\
             k = (decision (SPG.start_vertex t), SPG.action t) /\
             t' = copied t).
Proof.
  unfold expected_transitions.
  intros [(v & Hv & <- & ->)|H]%foldl_insert_lookup_Some;
    [left; by exists v|].
  apply foldl_insert_lookup_Some in H as [(t & Ht & <- & ->)|H];
    [right; by exists t|].
  by rewrite lookup_empty in H.
Qed.

Lemma spg_to_ssg_exact spg epsilon :
  wf_spg spg -> SPG.transitions spg ≠ [] -> admissible epsilon ->
  no_collision spg ->
  exists alphas ssg,
    compute_alphas_for_spg spg epsilon 10000 = Ok alphas /\
    (forall v, v ∈ SPG.vertices spg ->
       alphas !! SPG.priority v = Some (alpha_at alphas v)) /\
    spg_to_ssg spg epsilon = Ok ssg /\
    SSG.transitions ssg = expected_transitions spg alphas /\
    SSG.vertices ssg !! "v_win" = Some WIN /\
    SSG.vertices ssg !! "v_lose" = Some LOSE.
Proof.
  intros Hwf Hne Heps Hnc.
  destruct (spg_to_ssg_Ok spg epsilon Hwf Hne Heps)
    as (alphas & ssg & Hc & Hcover & Hg & Hssg & _).
  destruct (graph_transformer_exact spg alphas Hwf Hnc Hcover)
    as (ssg' & Hg' & HT & Hw & Hl).
  rewrite Hg in Hg'. injection Hg' as <-.
  exists alphas, ssg. split; [done|]. split; [|done].
  intros v Hv. unfold alpha_at. by destruct (Hcover v Hv) as [a ->].
Qed.

(** Without name collisions the wiring of claim C3 holds: the
    intermediate vertex of every vertex [v] has the alpha transition as its
    only outgoing transition, with the two distinct branches
    [alpha(priority v)] to WIN (even priority) or LOSE (odd priority) and
    [1 - alpha(priority v)] back to the decision vertex of [v]. *)
Theorem alpha_transitions_wired_without_collisions spg epsilon :
  wf_spg spg -> SPG.transitions spg ≠ [] -> admissible epsilon ->
  no_collision spg ->
  exists alphas ssg,
    compute_alphas_for_spg spg epsilon 10000 = Ok alphas /\
    spg_to_ssg spg epsilon = Ok ssg /\
    SSG.vertices ssg !! "v_win" = Some (mkSsgVertex "v_win" true true) /\
    SSG.vertices ssg !! "v_lose" = Some (mkSsgVertex "v_lose" false false) /\
    forall v, v ∈ SPG.vertices spg ->
      exists a,
        alphas !! SPG.priority v = Some a /\
        SSG.transitions ssg !! (intermediate v, "alpha")
          = Some (mkSsgTransition (intermediate v)
                    {[ (a, if SPG.priority v mod 2 =? 0
                           then mkSsgVertex "v_win" true true
                           else mkSsgVertex "v_lose" false false);
                       ((1 - a)%Qc, decision v) ]}
                    "alpha") /\
        (if SPG.priority v mod 2 =? 0
         then mkSsgVertex "v_win" true true
         else mkSsgVertex "v_lose" false false) ≠ decision v /\
        (forall act t, SSG.transitions ssg !! (intermediate v, act) = Some t ->
                       act = "alpha").
Proof.
  intros Hwf Hne Heps Hnc.
  destruct (spg_to_ssg_exact spg epsilon Hwf Hne Heps Hnc)
    as (alphas & ssg & Hc & Ha & Hssg & HT & Hw & Hl).
  exists alphas, ssg. do 4 (split; [done|]).
  intros v Hv. exists (alpha_at alphas v). split; [by apply Ha|].
  rewrite HT. split; [by apply expected_transitions_alpha|].
  split; [by apply (sink_of_neq_decision spg)|].
  intros act t [(w & Hw' & Hk & _)|(t0 & Ht0 & Hk & _)]%expected_transitions_inv.
  { by apply (f_equal snd) in Hk. }
  exfalso. destruct (no_collision_spec spg Hnc) as [Hmarker _].
  destruct Hwf as (_ & _ & Hts). rewrite Forall_forall in Hts.
  destruct (Hts t0 Ht0) as (Hstart & _).
  apply (f_equal fst), (f_equal SSG.name) in Hk. simpl in Hk.
  by apply (Hmarker v (SPG.start_vertex t0)).
Qed.

(** Without name collisions the conservation of claim C4 holds: the
    branch probabilities of every transition of the produced game sum to
    exactly 1. *)
Theorem probabilities_sum_to_one_without_collisions spg epsilon :
  wf_spg spg -> SPG.transitions spg ≠ [] -> admissible epsilon ->
  no_collision spg ->
  exists ssg,
    spg_to_ssg spg epsilon = Ok ssg /\
    forall k t, SSG.transitions ssg !! k = Some t ->
                distribution_sum (SSG.end_vertices t) = 1%Qc.
Proof.
  intros Hwf Hne Heps Hnc.
  destruct (spg_to_ssg_exact spg epsilon Hwf Hne Heps Hnc)
    as (alphas & ssg & Hc & Ha & Hssg & HT & Hw & Hl).
  exists ssg. split; [done|]. rewrite HT.
  intros k t' [(v & Hv & _ & ->)|(t & Ht & _ & ->)]%expected_transitions_inv.
  - simpl. rewrite distribution_sum_pair.
    + simpl. ring.
    + intros Heq%(f_equal snd). by apply (sink_of_neq_decision spg v).
  - pose proof Hwf as (Hnd & _ & Hts). rewrite Forall_forall in Hts.
    destruct (Hts t Ht) as (_ & Hends & Hsum). simpl.
    unfold redirect. rewrite (distribution_sum_map intermediate); [done|].
    intros x y Hx Hy Heq%(f_equal SSG.name)%app_marker_inj.
    destruct (Hends x Hx) as (_ & _ & ?), (Hends y Hy) as (_ & _ & ?).
    by apply (name_inj (SPG.vertices spg)).
Qed.

(** * The concrete games *)

(** The concrete games are well-formed. *)

Lemma chain_game_wf : wf_spg chain_game.
Proof. apply (bool_decide_unpack _). vm_compute. exact I. Qed.

Lemma rank_game_wf : wf_spg rank_game.
Proof. apply (bool_decide_unpack _). vm_compute. exact I. Qed.


Lemma sink_named_game_wf : wf_spg sink_named_game.
Proof. apply (bool_decide_unpack _). vm_compute. exact I. Qed.

Lemma branch_list_elem (d : gset (Qc * SsgVertex)) (pv : Qc * SsgVertex) :
  pv ∈ d -> (this pv.1, pv.2) ∈ branch_list d.
Proof.
  intros H. apply list_elem_of_fmap. exists pv. split; [done|].
  by apply elem_of_elements.
Qed.

(** ** Runs of the code on the concrete games *)


Lemma sink_named_game_sound_run :
  vertex_named (spg_to_ssg sink_named_game None) "v_win0"
    = Some (mkSsgVertex "v_win0" true true) /\
  vertex_named (spg_to_ssg sink_named_game None) "v_win"
    = Some (mkSsgVertex "v_win" true false) /\
  branches_from (spg_to_ssg sink_named_game None)
    (mkSsgVertex "v_win'" false false) "alpha"
    = Some [ ((7 # 8)%Q, mkSsgVertex "v_win" true false);
             ((1 # 8)%Q, mkSsgVertex "v_win" true false) ].
Proof. repeat split; vm_compute; reflexivity. Qed.

Lemma sink_named_game_epsilon_run :
  branches_from (spg_to_ssg sink_named_game (Some (Q2Qc 2)))
    (mkSsgVertex "v_win'" false false) "alpha"
    = Some [ ((1 # 2)%Q, mkSsgVertex "v_win" true false) ] /\
  branch_sum (spg_to_ssg sink_named_game (Some (Q2Qc 2)))
    (mkSsgVertex "v_win'" false false) "alpha"
    = Some (1 # 2)%Q.
Proof. split; vm_compute; reflexivity. Qed.

(** ** Where the claims fail *)


(** C7, refuted as stated: the game without transitions makes the analyzer
    raise [ValueError], not [EmptyGameError]. *)
Lemma empty_game_raises_no_EmptyGameError :
  SPG.transitions empty_game = [] /\
  max_denom_and_min_prob empty_game 10000 = Raise ValueError /\
  max_denom_and_min_prob empty_game 10000 ≠ Raise EmptyGameError.
Proof.
  split; [done|]. split; [vm_compute; reflexivity|].
  vm_compute. discriminate.
Qed.

(** C8, refuted as stated: with the empty alpha map the transformer raises
    [KeyError], not [MissingAlphaError]. *)
Lemma missing_alpha_raises_no_MissingAlphaError :
  wf_spg chain_game /\
  (exists v, v ∈ SPG.vertices chain_game /\
             (∅ : gmap Z Qc) !! SPG.priority v = None) /\
  graph_transformer chain_game ∅ = Raise KeyError /\
  graph_transformer chain_game ∅ ≠ Raise MissingAlphaError.
Proof.
  split; [apply chain_game_wf|]. split.
  - exists chain_v0. split; [|done]. unfold chain_game. simpl. set_solver.
  - split; [vm_compute; reflexivity|]. vm_compute. discriminate.
Qed.

(** ** Where the code misses the claims *)

(** C3 (the code at the failing input).  The only vertex of
    [sink_named_game] has the even priority 0 and the name "v_win".  The
    WIN sink is stored as "v_win0", yet both branches of the alpha
    transition of the intermediate vertex "v_win'" lead to the vertex
    stored under "v_win", the decision vertex, which is no target: no
    branch leads to the WIN sink. *)
Theorem alpha_transition_misses_renamed_win_sink :
  exists ssg t,
    spg_to_ssg sink_named_game None = Ok ssg /\
    SSG.vertices ssg !! "v_win0" = Some (mkSsgVertex "v_win0" true true) /\
    SSG.vertices ssg !! "v_win" = Some (mkSsgVertex "v_win" true false) /\
    SSG.transitions ssg !! (mkSsgVertex "v_win'" false false, "alpha")
      = Some t /\
    branch_list (SSG.end_vertices t) =
      [ ((7 # 8)%Q, mkSsgVertex "v_win" true false);
        ((1 # 8)%Q, mkSsgVertex "v_win" true false) ] /\
    (forall p w, (p, w) ∈ SSG.end_vertices t ->
                 w = mkSsgVertex "v_win" true false /\
                 SSG.is_target w = false).
Proof.
  destruct sink_named_game_sound_run as (H1 & H2 & H3).
  destruct (spg_to_ssg sink_named_game None) as [ssg|e]; [|discriminate].
  simpl in H1, H2, H3.
  destruct (SSG.transitions ssg !! _) as [t|] eqn:Et; [|discriminate].
  injection H3 as H3.
  exists ssg, t. do 5 (split; [done|]).
  intros p w Hpw%branch_list_elem. rewrite H3 in Hpw. simpl in Hpw.
  set_solver.
Qed.

(** C4 (the code at the failing input).  On [sink_named_game] with
    epsilon 2 the alpha of priority 0 is 1/2; both branches of the alpha
    transition are the pair (1/2, vertex stored under "v_win"), the set
    holds one element, and the branch probabilities sum to 1/2. *)
Theorem alpha_transition_sums_to_one_half :
  exists ssg t,
    wf_spg sink_named_game /\
    spg_to_ssg sink_named_game (Some (Q2Qc 2)) = Ok ssg /\
    SSG.transitions ssg !! (mkSsgVertex "v_win'" false false, "alpha")
      = Some t /\
    branch_list (SSG.end_vertices t) =
      [ ((1 # 2)%Q, mkSsgVertex "v_win" true false) ] /\
    distribution_sum (SSG.end_vertices t) = Q2Qc (1 # 2) /\
    distribution_sum (SSG.end_vertices t) ≠ 1%Qc.
Proof.
  destruct sink_named_game_epsilon_run as (H1 & H2).
  destruct (spg_to_ssg sink_named_game (Some (Q2Qc 2))) as [ssg|e];
    [|discriminate].
  simpl in H1, H2.
  destruct (SSG.transitions ssg !! _) as [t|] eqn:Et; [|discriminate].
  injection H1 as H1. injection H2 as H2.
  assert (Hsum : distribution_sum (SSG.end_vertices t) = Q2Qc (1 # 2)).
  { apply Qc_is_canon. simpl. by rewrite H2. }
  exists ssg, t. split; [apply sink_named_game_wf|]. do 4 (split; [done|]).
  rewrite Hsum. intros H%(f_equal this). by vm_compute in H.
Qed.

(** ** The theorems at concrete games *)



Lemma ssg_vertex_count_and_initial_vertex_witness :
  wf_spg chain_game /\ SPG.transitions chain_game ≠ [] /\
  no_collision chain_game /\
  exists ssg,
    spg_to_ssg chain_game None = Ok ssg /\ size (SSG.vertices ssg) = 6%nat.
Proof.
  assert (Hwf : wf_spg chain_game)
    by (apply (bool_decide_unpack _); vm_compute; exact I).
  assert (Hne : SPG.transitions chain_game ≠ []) by discriminate.
  assert (Hnc : no_collision chain_game)
    by (apply (bool_decide_unpack _); vm_compute; exact I).
  do 3 (split; [assumption|]).
  destruct (ssg_vertex_count_and_initial_vertex chain_game None Hwf Hne I Hnc)
    as (ssg & H & Hsize & _).
  exists ssg. split; [exact H|exact Hsize].
Defined.


Lemma analyzer_empty_game_raises_ValueError_witness :
  SPG.transitions empty_game = [] /\
  max_denom_and_min_prob empty_game 10000 = Raise ValueError /\
  wf_spg chain_game /\ SPG.transitions chain_game ≠ [] /\
  exists r, max_denom_and_min_prob chain_game 10000 = Ok r.
Proof.
  assert (Hwf : wf_spg chain_game)
    by (apply (bool_decide_unpack _); vm_compute; exact I).
  assert (Hne : SPG.transitions chain_game ≠ []) by discriminate.
  split; [reflexivity|].
  split;
    [exact (proj1 (analyzer_empty_game_raises_ValueError empty_game 10000)
                  eq_refl)|].
  do 2 (split; [assumption|]).
  exact (proj2 (analyzer_empty_game_raises_ValueError chain_game 10000)
               Hwf Hne ltac:(lia)).
Defined.

Lemma transformer_missing_alpha_raises_KeyError_witness :
  wf_spg chain_game /\
  graph_transformer chain_game ∅ = Raise KeyError /\
  exists ssg, graph_transformer chain_game {[ 0 := Q2Qc (1 # 8) ]} = Ok ssg.
Proof.
  assert (Hwf : wf_spg chain_game)
    by (apply (bool_decide_unpack _); vm_compute; exact I).
  split; [exact Hwf|]. split.
  - apply (proj1 (transformer_missing_alpha_raises_KeyError chain_game ∅ Hwf)).
    exists chain_v0. split; [apply list_elem_of_here|reflexivity].
  - apply (proj2 (transformer_missing_alpha_raises_KeyError chain_game
                    {[ 0 := Q2Qc (1 # 8) ]} Hwf)).
    intros v Hv. apply (bool_decide_unpack _).
    revert v Hv. apply Forall_forall.
    apply (bool_decide_unpack _). vm_compute. exact I.
Defined.

Lemma epsilon_mode_monotone_witness :
  wf_spg rank_game /\ SPG.transitions rank_game ≠ [] /\
  (0 < Q2Qc (1 # 10))%Qc /\ (Q2Qc (1 # 10) < Q2Qc (1 # 2))%Qc /\
  (Q2Qc (1 # 2) < Qc_of_Z 4)%Qc /\
  exists alphas1 alphas2,
    compute_alphas_for_spg rank_game (Some (Q2Qc (1 # 10))) 10000
      = Ok alphas1 /\
    compute_alphas_for_spg rank_game (Some (Q2Qc (1 # 2))) 10000
      = Ok alphas2.
Proof.
  assert (Hwf : wf_spg rank_game)
    by (apply (bool_decide_unpack _); vm_compute; exact I).
  assert (Hne : SPG.transitions rank_game ≠ []) by discriminate.
  assert (H1 : (0 < Q2Qc (1 # 10))%Qc) by reflexivity.
  assert (H2 : (Q2Qc (1 # 10) < Q2Qc (1 # 2))%Qc) by reflexivity.
  assert (H3 : (Q2Qc (1 # 2) < Qc_of_Z 4)%Qc) by reflexivity.
  do 5 (split; [assumption|]).
  destruct (epsilon_mode_monotone rank_game (Q2Qc (1 # 10)) (Q2Qc (1 # 2))
              10000 Hwf Hne ltac:(lia) H1 H2 H3)
    as (alphas1 & alphas2 & Ha & Hb & _).
  exists alphas1, alphas2. split; [exact Ha|exact Hb].
Defined.

Lemma alpha_map_keys_are_the_priorities_witness :
  wf_spg rank_game /\ SPG.transitions rank_game ≠ [] /\
  exists alphas ssg,
    compute_alphas_for_spg rank_game None 10000 = Ok alphas /\
    spg_to_ssg rank_game None = Ok ssg.
Proof.
  assert (Hwf : wf_spg rank_game)
    by (apply (bool_decide_unpack _); vm_compute; exact I).
  assert (Hne : SPG.transitions rank_game ≠ []) by discriminate.
  do 2 (split; [assumption|]).
  destruct (alpha_map_keys_are_the_priorities rank_game None 10000 Hwf Hne I
              ltac:(lia)) as (_ & alphas & ssg & Ha & _ & _ & Hs).
  exists alphas, ssg. split; [exact Ha|exact Hs].
Defined.

(** * Further properties of the code *)

(** ** Strings of digits *)

Lemma string_app_cons (c : Ascii.ascii) (t u : string) :
  String c t +:+ u = String c (t +:+ u).
Proof. done. Qed.

Lemma string_app_nil_r (t : string) : t +:+ "" = t.
Proof. induction t as [|c t IH]; [done|]. by rewrite string_app_cons, IH. Qed.

Lemma string_app_assoc (s t u : string) : (s +:+ t) +:+ u = s +:+ (t +:+ u).
Proof. induction s as [|c s IH]; [done|]. by rewrite !string_app_cons, IH. Qed.

Lemma pretty_N_char_digit (x : N) : is_digit (pretty_N_char x) = true.
Proof. unfold pretty_N_char. by repeat case_match. Qed.

Lemma pretty_N_go_digits (x : N) :
  forall s, exists t, pretty_N_go x s = t +:+ s /\ all_digits t = true /\
                      ((0 < x)%N -> t ≠ "").
Proof.
  induction (N.lt_wf_0 x) as [x _ IH]; intros s.
  assert (x = 0 ∨ 0 < x)%N as [->|Hx] by lia.
  - exists "". rewrite pretty_N_go_0. split; [done|]. split; [done|lia].
  - rewrite pretty_N_go_step by done.
    destruct (IH (x `div` 10)%N (N.div_lt x 10 Hx eq_refl)
                (String (pretty_N_char (x `mod` 10)) s)) as (t & -> & Ht & _).
    exists (t +:+ String (pretty_N_char (x `mod` 10)) "").
    split; [|split].
    + clear. by rewrite string_app_assoc.
    + clear -Ht. induction t as [|c t IHt]; simpl in *.
      * by rewrite pretty_N_char_digit.
      * apply andb_true_iff in Ht as [-> Ht]. simpl.
        by apply IHt.
    + intros _. by destruct t.
Qed.

Lemma str_digits (i : nat) : all_digits (str i) = true /\ str i ≠ "".
Proof.
  unfold str, pretty, pretty_nat, pretty, pretty_N.
  case_decide as H0; [done|].
  destruct (pretty_N_go_digits (N.of_nat i) "") as (t & -> & Ht & Hne).
  rewrite string_app_nil_r.
  split; [done|apply Hne; lia].
Qed.

(** A name is recovered from the name followed by the marker and digits:
    digits hold no marker. *)
Lemma digits_no_marker (t : string) :
  all_digits t = true -> no_marker t = true.
Proof.
  induction t as [|c t IH]; [done|]. simpl.
  intros [Hc Ht]%andb_true_iff. rewrite (IH Ht), andb_true_r.
  apply negb_true_iff, bool_decide_eq_false. intros [= ->]. done.
Qed.

Lemma no_marker_neq (s t u : string) :
  no_marker t = true -> t ≠ s +:+ ("'" +:+ u).
Proof.
  revert t. induction s as [|c s IH]; intros [|c' t] Ht; try done.
  - intros [= -> _]. done.
  - rewrite string_app_cons. intros [= -> Heq]. simpl in Ht.
    apply andb_true_iff in Ht as [_ Ht]. by eapply IH.
Qed.

Lemma marker_split (s1 s2 t1 t2 : string) :
  no_marker t1 = true -> no_marker t2 = true ->
  (s1 +:+ "'") +:+ t1 = (s2 +:+ "'") +:+ t2 -> s1 = s2 /\ t1 = t2.
Proof.
  intros H1 H2. rewrite !string_app_assoc.
  revert s2. induction s1 as [|c s1 IH]; intros [|c2 s2]; rewrite ?string_app_cons.
  - intros Heq. split; [done|]. by injection Heq.
  - intros [= <- Heq]. by apply no_marker_neq in Heq.
  - intros [= -> Heq]. symmetry in Heq. by apply no_marker_neq in Heq.
  - intros [= -> Heq]. by destruct (IH _ Heq) as [-> ->].
Qed.

(** ** The suffix search finds the least free suffix *)

Lemma first_free_least (vertices : gmap string SsgVertex) (base : string)
    (fuel : nat) :
  forall i0 i, first_free fuel vertices base i0 = Ok i ->
    (i0 <= i)%nat /\ vertices !! (base +:+ str i) = None /\
    forall j, (i0 <= j < i)%nat -> is_Some (vertices !! (base +:+ str j)).
Proof.
  induction fuel as [|fuel IH]; intros i0 i; simpl; [done|].
  destruct (contains vertices (base +:+ str i0)) eqn:Hc.
  - intros (Hle & Hnone & Hbelow)%IH. split; [lia|]. split; [done|].
    intros j Hj. destruct (decide (j = i0)) as [->|Hne].
    + by apply contains_spec, elem_of_dom in Hc.
    + apply Hbelow. lia.
  - intros [= ->]. split; [lia|]. split; [by apply contains_false|].
    intros j Hj. lia.
Qed.

Lemma free_name_spec (vertices : gmap string SsgVertex) (base : string) :
  vertices !! free_name vertices base = None /\
  (vertices !! base = None -> free_name vertices base = base) /\
  exists t, free_name vertices base = base +:+ t /\ all_digits t = true /\
    (is_Some (vertices !! base) ->
     exists i, t = str i /\
       forall j, (j < i)%nat -> is_Some (vertices !! (base +:+ str j))).
Proof.
  unfold free_name. destruct (contains vertices base) eqn:Hc.
  - destruct (suffix_search_spec vertices base) as (i & Hi & Hnone).
    rewrite Hi. split; [done|]. split.
    { intros Hn. apply contains_spec, elem_of_dom in Hc. rewrite Hn in Hc.
      by destruct Hc. }
    exists (str i). split; [done|]. split; [apply str_digits|].
    intros _. exists i. split; [done|]. intros j Hj.
    apply first_free_least in Hi as (_ & _ & Hbelow). apply Hbelow. lia.
  - apply contains_false in Hc. split; [done|]. split; [done|].
    exists "". rewrite string_app_nil_r. split; [done|]. split; [done|].
    intros [x Hx]. congruence.
Qed.

Lemma add_sink_free_name (vertices : gmap string SsgVertex) (base : string)
    (eve target : bool) :
  add_sink vertices base eve target
  = Ok (<[free_name vertices base
          := mkSsgVertex (free_name vertices base) eve target]> vertices).
Proof.
  unfold add_sink, free_name. destruct (contains vertices base); simpl; [|done].
  by destruct (suffix_search_spec vertices base) as (i & -> & _).
Qed.

Lemma add_intermediate_free_name (V0 : gmap string SsgVertex)
    (N : gmap string SsgVertex) (RI : gmap SsgVertex SsgVertex)
    (v : SpgVertex) :
  V0 !! SPG.name v = Some (decision v) ->
  add_intermediate V0 (N, RI) v =
  Ok (<[free_name V0 (SPG.name v +:+ "'")
        := mkSsgVertex (free_name V0 (SPG.name v +:+ "'"))
                       (negb (SPG.is_eve v)) false]> N,
      <[decision v
        := mkSsgVertex (free_name V0 (SPG.name v +:+ "'"))
                       (negb (SPG.is_eve v)) false]> RI).
Proof.
  intros Hv%getitem_Ok. unfold add_intermediate, free_name.
  destruct (contains V0 (SPG.name v +:+ "'")); simpl.
  - destruct (suffix_search_spec V0 (SPG.name v +:+ "'")) as (i & -> & _).
    simpl. by rewrite Hv.
  - by rewrite Hv.
Qed.

Lemma add_intermediate_loop_general (V0 : gmap string SsgVertex)
    (l : list SpgVertex) :
  (forall v, v ∈ l -> V0 !! SPG.name v = Some (decision v)) ->
  forall (N : gmap string SsgVertex) (RI : gmap SsgVertex SsgVertex),
  foldM (add_intermediate V0) (N, RI) l =
  Ok (foldl (fun m v =>
               <[free_name V0 (SPG.name v +:+ "'")
                 := mkSsgVertex (free_name V0 (SPG.name v +:+ "'"))
                                (negb (SPG.is_eve v)) false]> m) N l,
      foldl (fun m v =>
               <[decision v
                 := mkSsgVertex (free_name V0 (SPG.name v +:+ "'"))
                                (negb (SPG.is_eve v)) false]> m) RI l).
Proof.
  induction l as [|v l IH]; intros HV0 N RI; [done|].
  cbn [foldM foldl]. rewrite add_intermediate_free_name by (apply HV0; set_solver).
  cbn [bind]. apply IH. intros; apply HV0; set_solver.
Qed.

(** Distinct names get distinct intermediate names, none of which is a
    sink name or the name of a decision vertex. *)
Lemma free_name_marker_inj (V V' : gmap string SsgVertex) (s1 s2 : string) :
  free_name V (s1 +:+ "'") = free_name V' (s2 +:+ "'") -> s1 = s2.
Proof.
  destruct (free_name_spec V (s1 +:+ "'")) as (_ & _ & t1 & -> & Ht1 & _).
  destruct (free_name_spec V' (s2 +:+ "'")) as (_ & _ & t2 & -> & Ht2 & _).
  intros H. by apply marker_split in H as [? _]; [|apply digits_no_marker..].
Qed.


Section general.

Variables (vs : list SpgVertex) (V2 : gmap string SsgVertex)
          (R0 : gmap SpgVertex SsgVertex) (RI : gmap SsgVertex SsgVertex)
          (inter : SpgVertex -> SsgVertex) (win lose : SsgVertex).
Hypothesis HR0 : forall v, v ∈ vs -> R0 !! v = Some (decision v).
Hypothesis HV2 : forall v, v ∈ vs -> V2 !! SPG.name v = Some (decision v).
Hypothesis HRI : forall v, v ∈ vs -> RI !! decision v = Some (inter v).
Hypothesis Hwin : V2 !! "v_win" = Some win.
Hypothesis Hlose : V2 !! "v_lose" = Some lose.

Lemma redirect_loop_by (l : list (Qc * SpgVertex)) :
  (forall pv, pv ∈ l -> pv.2 ∈ vs) ->
  forall acc : gset (Qc * SsgVertex),
  foldM (fun (end_vs : gset (Qc * SsgVertex)) '(prob, end_v) =>
           d <- getitem V2 (SPG.name end_v) ;;
           i <- getitem RI d ;;
           Ok ({[ (prob, i) ]} ∪ end_vs))
        acc l
  = Ok (list_to_set (redirect_by inter <$> l) ∪ acc).
Proof.
  induction l as [|[p v] l IH]; intros Hl acc.
  - simpl. f_equal. set_solver.
  - cbn [foldM].
    assert (Hv : v ∈ vs) by (apply (Hl (p, v)); set_solver).
    pose proof (HV2 v Hv) as H1. apply getitem_Ok in H1. rewrite H1.
    cbn [bind].
    pose proof (HRI v Hv) as H2. apply getitem_Ok in H2. rewrite H2.
    cbn [bind]. rewrite IH by (intros; apply Hl; set_solver).
    f_equal. cbn [fmap list_fmap]. unfold redirect_by at 2. simpl. set_solver.
Qed.

Lemma copy_transition_by (T : gmap (SsgVertex * string) SsgTransition)
    (t : SpgTransition) :
  wf_transition vs t ->
  copy_transition V2 RI T t
  = Ok (<[(decision (SPG.start_vertex t), SPG.action t)
          := copied_by inter t]> T).
Proof.
  intros (Hstart & Hends & _). unfold copy_transition.
  pose proof (HV2 _ Hstart) as Hs. apply getitem_Ok in Hs. rewrite Hs.
  cbn [bind]. rewrite redirect_loop_by.
  - cbn [bind]. unfold copied_by, set_map. by rewrite (right_id_L ∅ (∪)).
  - intros pv Hpv%elem_of_elements. by destruct (Hends pv Hpv) as (_ & _ & ?).
Qed.

Lemma copy_loop_by (ts : list SpgTransition) :
  Forall (wf_transition vs) ts ->
  forall T,
  foldM (copy_transition V2 RI) T ts
  = Ok (foldl (fun T t =>
                 <[(decision (SPG.start_vertex t), SPG.action t)
                   := copied_by inter t]> T)
              T ts).
Proof.
  induction ts as [|t ts IH]; intros Hts T; [done|].
  apply Forall_cons in Hts as [Ht Hts].
  cbn [foldM foldl]. rewrite copy_transition_by by done. cbn [bind].
  by apply IH.
Qed.

Lemma add_alpha_transition_by (alphas : gmap Z Qc)
    (T : gmap (SsgVertex * string) SsgTransition) (v : SpgVertex) (a : Qc) :
  v ∈ vs -> alphas !! SPG.priority v = Some a ->
  add_alpha_transition alphas V2 R0 RI T v
  = Ok (<[(inter v, "alpha") := alpha_transition_by inter win lose a v]> T).
Proof.
  intros Hv Ha. unfold add_alpha_transition.
  pose proof (HR0 v Hv) as H1. apply getitem_Ok in H1. rewrite H1. cbn [bind].
  pose proof (HRI v Hv) as H2. apply getitem_Ok in H2. rewrite H2. cbn [bind].
  apply getitem_Ok in Ha. rewrite Ha. cbn [bind].
  assert (Hs : getitem V2
                 (if SPG.priority v mod 2 =? 0 then "v_win" else "v_lose")
               = Ok (if SPG.priority v mod 2 =? 0 then win else lose)).
  { destruct (SPG.priority v mod 2 =? 0); by apply getitem_Ok. }
  rewrite Hs. cbn [bind].
  pose proof (HV2 v Hv) as H3. apply getitem_Ok in H3.
  simpl SSG.name. rewrite H3. done.
Qed.

Lemma alpha_loop_by (alphas : gmap Z Qc) (l : list SpgVertex) :
  (forall v, v ∈ l -> v ∈ vs /\ is_Some (alphas !! SPG.priority v)) ->
  forall T,
  foldM (add_alpha_transition alphas V2 R0 RI) T l
  = Ok (foldl (fun T v =>
                 <[(inter v, "alpha")
                   := alpha_transition_by inter win lose
                        (alpha_at alphas v) v]> T)
              T l).
Proof.
  induction l as [|v l IH]; intros Hl T; [done|].
  destruct (Hl v) as [Hv [a Ha]]; [set_solver|].
  cbn [foldM foldl]. rewrite (add_alpha_transition_by alphas T v a) by done.
  cbn [bind]. unfold alpha_at at 2. rewrite Ha. simpl default.
  apply IH. intros; apply Hl; set_solver.
Qed.

End general.

(** The vertex dict of the produced game: the decision vertices, the
    intermediate vertices and the two sinks, each under its own name, and
    no two under the same name. *)
Lemma transformer_vertices spg :
  wf_spg spg ->
  exists V0 R0 N RI V2 nmw nml,
    decision_vertices spg = (V0, R0) /\
    foldM (add_intermediate V0) (∅, ∅) (SPG.vertices spg) = Ok (N, RI) /\
    add_sink (N ∪ V0) "v_win" true true
      = Ok (<[nmw := mkSsgVertex nmw true true]> (N ∪ V0)) /\
    add_sink (<[nmw := mkSsgVertex nmw true true]> (N ∪ V0))
             "v_lose" false false = Ok V2 /\
    V2 = <[nml := mkSsgVertex nml false false]>
           (<[nmw := mkSsgVertex nmw true true]> (N ∪ V0)) /\
    (forall v, v ∈ SPG.vertices spg -> R0 !! v = Some (decision v)) /\
    (forall v, v ∈ SPG.vertices spg ->
       RI !! decision v = Some (intermediate_of spg v)) /\
    vertex_table spg V2 nmw nml.
Proof.
  intros (Hnd & Hinit & Hts).
  destruct (decision_vertices_spec spg Hnd) as (V0 & R0 & HD & HV0 & HR0 & Hdom0).
  assert (Hinter : forall v, intermediate_of spg v =
            mkSsgVertex (free_name V0 (SPG.name v +:+ "'"))
                        (negb (SPG.is_eve v)) false).
  { intros v. unfold intermediate_of. by rewrite HD. }
  pose proof (add_intermediate_loop_general V0 (SPG.vertices spg) HV0 ∅ ∅) as HN.
  set (N := foldl (fun m v =>
               <[free_name V0 (SPG.name v +:+ "'")
                 := mkSsgVertex (free_name V0 (SPG.name v +:+ "'"))
                                (negb (SPG.is_eve v)) false]> m)
              (∅ : gmap string SsgVertex) (SPG.vertices spg)) in *.
  set (RI := foldl (fun m v =>
               <[decision v
                 := mkSsgVertex (free_name V0 (SPG.name v +:+ "'"))
                                (negb (SPG.is_eve v)) false]> m)
              (∅ : gmap SsgVertex SsgVertex) (SPG.vertices spg)) in *.
  assert (Hnd' : NoDup (SPG.vertices spg)) by (by apply NoDup_fmap_1 in Hnd).
  assert (HNnd : NoDup ((fun v => free_name V0 (SPG.name v +:+ "'"))
                          <$> SPG.vertices spg)).
  { apply NoDup_fmap_2_strong; [|done].
    intros v w Hv Hw Heq%free_name_marker_inj.
    by apply (name_inj (SPG.vertices spg)). }
  destruct (foldl_insert_lookup
              (fun v => free_name V0 (SPG.name v +:+ "'"))
              (fun v => mkSsgVertex (free_name V0 (SPG.name v +:+ "'"))
                                    (negb (SPG.is_eve v)) false)
              (SPG.vertices spg) (∅ : gmap string SsgVertex) HNnd)
    as [HN1 HN2].
  fold N in HN1, HN2.
  assert (HNinv : forall k x, N !! k = Some x ->
            exists v, v ∈ SPG.vertices spg /\
              k = free_name V0 (SPG.name v +:+ "'") /\
              x = intermediate_of spg v).
  { intros k x [(v & Hv & Hk & Hx)|H]%foldl_insert_lookup_Some.
    - exists v. by rewrite Hinter.
    - by rewrite lookup_empty in H. }
  assert (HNV0 : forall k x, N !! k = Some x -> V0 !! k = None).
  { intros k x (v & _ & -> & _)%HNinv. apply free_name_spec. }
  assert (HV0inv : forall k x, V0 !! k = Some x ->
            exists v, v ∈ SPG.vertices spg /\ k = SPG.name v /\ x = decision v).
  { intros k x Hk. assert (Hin : k ∈ dom V0) by (apply elem_of_dom; eauto).
    rewrite Hdom0, elem_of_list_to_set in Hin.
    apply list_elem_of_fmap in Hin as (v & -> & Hv).
    exists v. rewrite (HV0 v Hv) in Hk. by injection Hk as <-. }
  destruct (free_name_spec (N ∪ V0) "v_win") as (Hw1 & Hw2 & tw & Hw3 & Hw4 & _).
  set (nmw := free_name (N ∪ V0) "v_win") in *.
  set (V1 := <[nmw := mkSsgVertex nmw true true]> (N ∪ V0)).
  destruct (free_name_spec V1 "v_lose") as (Hl1 & Hl2 & tl & Hl3 & Hl4 & _).
  set (nml := free_name V1 "v_lose") in *.
  set (V2 := <[nml := mkSsgVertex nml false false]> V1).
  assert (Hwl : nmw ≠ nml).
  { intros Heq. unfold V1 in Hl1. rewrite <- Heq, lookup_insert_eq in Hl1.
    done. }
  assert (HU : forall k x, (N ∪ V0) !! k = Some x -> k ≠ nmw /\ k ≠ nml).
  { intros k x Hk. split; intros ->; [congruence|].
    unfold V1 in Hl1. rewrite lookup_insert_ne in Hl1 by done. congruence. }
  assert (HUd : forall v, v ∈ SPG.vertices spg ->
            (N ∪ V0) !! SPG.name v = Some (decision v)).
  { intros v Hv. rewrite lookup_union_r; [by apply HV0|].
    destruct (N !! SPG.name v) eqn:E; [|done].
    apply HNV0 in E. rewrite HV0 in E; done. }
  assert (HUi : forall v, v ∈ SPG.vertices spg ->
            (N ∪ V0) !! free_name V0 (SPG.name v +:+ "'")
            = Some (intermediate_of spg v)).
  { intros v Hv. rewrite Hinter. apply lookup_union_Some_l. by apply HN1. }
  assert (HV2U : forall k x, (N ∪ V0) !! k = Some x -> V2 !! k = Some x).
  { intros k x Hk. destruct (HU k x Hk). unfold V2, V1.
    by rewrite !lookup_insert_ne. }
  exists V0, R0, N, RI, V2, nmw, nml.
  split; [done|]. split; [done|]. split; [apply add_sink_free_name|].
  split; [apply add_sink_free_name|]. split; [done|]. split; [done|].
  split.
  { intros v Hv. rewrite Hinter. unfold RI.
    apply (foldl_insert_lookup decision
             (fun v => mkSsgVertex (free_name V0 (SPG.name v +:+ "'"))
                                   (negb (SPG.is_eve v)) false)); [|done].
    apply NoDup_fmap_2_strong; [|done].
    intros x y Hx Hy Heq. apply (name_inj (SPG.vertices spg)); [done..|].
    by injection Heq. }
  unfold vertex_table.
  split; [intros v Hv; by apply HV2U, HUd|].
  split.
  { intros v Hv. apply HV2U. rewrite Hinter at 1. simpl. by apply HUi. }
  split.
  { unfold V2, V1. rewrite lookup_insert_ne by done. by rewrite lookup_insert_eq. }
  split; [unfold V2; by rewrite lookup_insert_eq|].
  assert (Hcases : forall k x, V2 !! k = Some x ->
    (exists v, v ∈ SPG.vertices spg /\
       ((k = SPG.name v /\ x = decision v) \/
        (k = SSG.name (intermediate_of spg v) /\ x = intermediate_of spg v))) \/
    (k = nmw /\ x = mkSsgVertex nmw true true) \/
    (k = nml /\ x = mkSsgVertex nml false false)).
  { intros k x. unfold V2, V1.
    destruct (decide (k = nml)) as [->|Hk1].
    { rewrite lookup_insert_eq. intros [= <-]. by right; right. }
    rewrite lookup_insert_ne by done.
    destruct (decide (k = nmw)) as [->|Hk2].
    { rewrite lookup_insert_eq. intros [= <-]. by right; left. }
    rewrite lookup_insert_ne by done.
    intros [HkN|[_ HkV]]%lookup_union_Some_raw; left.
    - apply HNinv in HkN as (v & Hv & -> & ->). exists v. split; [done|].
      right. by rewrite Hinter.
    - apply HV0inv in HkV as (v & Hv & -> & ->). exists v. split; [done|].
      by left. }
  split.
  { intros k x [(v & Hv & [[_ ->]|[_ ->]])|[[_ ->]|[_ ->]]]%Hcases;
      [left; exists v; split; [done|by left]
      |left; exists v; split; [done|by right]
      |by right; left|by right; right]. }
  split.
  { intros k x [(v & Hv & [[-> ->]|[-> ->]])|[[-> ->]|[-> ->]]]%Hcases; done. }
  split.
  { intros v w Hv Hw. rewrite !Hinter. simpl. split.
    - intros Heq.
      destruct (free_name_spec V0 (SPG.name v +:+ "'")) as (Hnone & _).
      rewrite Heq, (HV0 w Hw) in Hnone. done.
    - intros Heq%free_name_marker_inj.
      by apply (name_inj (SPG.vertices spg)). }
  split.
  { intros v Hv. pose proof (HU _ _ (HUd v Hv)) as [? ?].
    pose proof (HU _ _ (HUi v Hv)) as [? ?]. rewrite Hinter. simpl.
    repeat split; congruence. }
  split; [done|]. split; [by exists tw|]. split; [by exists tl|].
  split.
  { intros Hfree. apply Hw2. apply lookup_union_None. split.
    - destruct (N !! "v_win") eqn:E; [|done].
      apply HNinv in E as (v & _ & E & _).
      destruct (free_name_spec V0 (SPG.name v +:+ "'"))
        as (_ & _ & t & Ht & Hd & _).
      rewrite Ht, string_app_assoc in E.
      by apply (no_marker_neq (SPG.name v) "v_win" t) in E.
    - destruct (V0 !! "v_win") eqn:E; [|done].
      apply HV0inv in E as (v & Hv & E & _). symmetry in E.
      by apply Hfree in E. }
  split.
  { intros Hfree. apply Hl2. unfold V1.
    assert ("v_lose" ≠ nmw).
    { rewrite Hw3. clear -Hw4. intros H.
      do 2 (destruct tw as [|? tw]; [discriminate|]). discriminate. }
    rewrite lookup_insert_ne by done. apply lookup_union_None. split.
    - destruct (N !! "v_lose") eqn:E; [|done].
      apply HNinv in E as (v & _ & E & _).
      destruct (free_name_spec V0 (SPG.name v +:+ "'"))
        as (_ & _ & t & Ht & Hd & _).
      rewrite Ht, string_app_assoc in E.
      by apply (no_marker_neq (SPG.name v) "v_lose" t) in E.
    - destruct (V0 !! "v_lose") eqn:E; [|done].
      apply HV0inv in E as (v & Hv & E & _). symmetry in E.
      by apply Hfree in E. }
  assert (HV1win : is_Some (V1 !! "v_win")).
  { unfold V1. destruct (decide (nmw = "v_win")) as [->|Hne].
    - rewrite lookup_insert_eq. eauto.
    - rewrite lookup_insert_ne by done.
      destruct ((N ∪ V0) !! "v_win") eqn:E; [eauto|].
      exfalso. by apply Hne, Hw2. }
  split.
  { destruct HV1win as [x Hx]. exists x. unfold V2.
    rewrite lookup_insert_ne; [done|]. intros ->. congruence. }
  split.
  { unfold V2. destruct (decide (nml = "v_lose")) as [->|Hne].
    - rewrite lookup_insert_eq. eauto.
    - rewrite lookup_insert_ne by done.
      destruct (V1 !! "v_lose") eqn:E; [eauto|].
      exfalso. by apply Hne, Hl2. }
  unfold V2, V1.
  rewrite map_size_insert_None by done.
  rewrite map_size_insert_None by done.
  rewrite map_size_disj_union.
  2:{ apply map_disjoint_alt. intros s.
      destruct (N !! s) eqn:E; [right; by eapply HNV0|by left]. }
  rewrite <- (size_dom N), <- (size_dom V0), Hdom0.
  unfold N. rewrite foldl_insert_dom, dom_empty_L, (left_id_L ∅ (∪)).
  rewrite !size_list_to_set by done. rewrite !length_fmap. lia.
Qed.


Lemma graph_transformer_general spg alphas :
  wf_spg spg ->
  (forall v, v ∈ SPG.vertices spg -> is_Some (alphas !! SPG.priority v)) ->
  exists V2 nmw nml win lose,
    graph_transformer spg alphas
    = Ok (mkSimpleStochasticGame V2
            (transitions_by (intermediate_of spg) win lose spg alphas)
            (decision (SPG.init_vertex spg))) /\
    vertex_table spg V2 nmw nml /\
    V2 !! "v_win" = Some win /\ V2 !! "v_lose" = Some lose.
Proof.
  intros Hwf Hcover.
  destruct (transformer_vertices spg Hwf)
    as (V0 & R0 & N & RI & V2 & nmw & nml & HD & HN & HV1 & HV2 & HV2eq
        & HR0 & HRI & Htable).
  pose proof Htable as (HV2v & _ & _ & _ & _ & _ & _ & _ & _ & _ & _ & _ & _
                        & [win Hwin] & [lose Hlose] & _).
  pose proof Hwf as (Hnd & Hinit & Hts).
  destruct (decision_vertices_spec spg Hnd) as (V0' & R0' & HD' & HV0 & _).
  rewrite HD in HD'. injection HD' as <- <-.
  exists V2, nmw, nml, win, lose. split; [|done].
  unfold graph_transformer. rewrite HD.
  pose proof (HV0 _ Hinit) as Hi. apply getitem_Ok in Hi. rewrite Hi.
  cbn [bind]. rewrite HN. cbn [bind]. rewrite HV1. cbn [bind].
  rewrite HV2. cbn [bind].
  rewrite (copy_loop_by (SPG.vertices spg) V2 R0 RI (intermediate_of spg)
             win lose HR0 HV2v HRI Hwin Hlose) by done.
  cbn [bind].
  rewrite (alpha_loop_by (SPG.vertices spg) V2 R0 RI (intermediate_of spg)
             win lose HR0 HV2v HRI Hwin Hlose alphas)
    by (intros; split; [done|by apply Hcover]).
  done.
Qed.

Lemma spg_to_ssg_general spg epsilon :
  wf_spg spg -> SPG.transitions spg ≠ [] -> admissible epsilon ->
  exists alphas V2 nmw nml win lose,
    compute_alphas_for_spg spg epsilon 10000 = Ok alphas /\
    (forall v, v ∈ SPG.vertices spg ->
       alphas !! SPG.priority v = Some (alpha_at alphas v)) /\
    spg_to_ssg spg epsilon
    = Ok (mkSimpleStochasticGame V2
            (transitions_by (intermediate_of spg) win lose spg alphas)
            (decision (SPG.init_vertex spg))) /\
    vertex_table spg V2 nmw nml /\
    V2 !! "v_win" = Some win /\ V2 !! "v_lose" = Some lose.
Proof.
  intros Hwf Hne Heps.
  destruct (spg_to_ssg_Ok spg epsilon Hwf Hne Heps)
    as (alphas & ssg & Hc & Hcover & Hg & Hssg & _).
  destruct (graph_transformer_general spg alphas Hwf Hcover)
    as (V2 & nmw & nml & win & lose & Hg' & Htable & Hwin & Hlose).
  exists alphas, V2, nmw, nml, win, lose. split; [done|]. split.
  { intros v Hv. unfold alpha_at. by destruct (Hcover v Hv) as [a ->]. }
  split; [|done]. by rewrite Hssg, <- Hg.
Qed.

(** ** The transition dict of the produced game *)

Lemma transitions_by_inv inter win lose spg alphas k t' :
  transitions_by inter win lose spg alphas !! k = Some t' ->
  (exists v, v ∈ SPG.vertices spg /\ k = (inter v, "alpha") /\
             t' = alpha_transition_by inter win lose (alpha_at alphas v) v) \/
  (exists t, t ∈ SPG.transitions spg /\
             k = (decision (SPG.start_vertex t), SPG.action t) /\
             t' = copied_by inter t).
Proof.
  unfold transitions_by.
  intros [(v & Hv & <- & ->)|H]%foldl_insert_lookup_Some;
    [left; by exists v|].
  apply foldl_insert_lookup_Some in H as [(t & Ht & <- & ->)|H];
    [right; by exists t|].
  by rewrite lookup_empty in H.
Qed.

Lemma transitions_by_alpha spg V2 nmw nml win lose alphas v :
  wf_spg spg -> vertex_table spg V2 nmw nml -> v ∈ SPG.vertices spg ->
  transitions_by (intermediate_of spg) win lose spg alphas
    !! (intermediate_of spg v, "alpha")
  = Some (alpha_transition_by (intermediate_of spg) win lose
            (alpha_at alphas v) v).
Proof.
  intros (Hnd & _ & _) (_ & _ & _ & _ & _ & _ & Hinj & _) Hv.
  unfold transitions_by.
  apply (foldl_insert_lookup (fun v => (intermediate_of spg v, "alpha"))
           (fun v => alpha_transition_by (intermediate_of spg) win lose
                       (alpha_at alphas v) v)); [|done].
  apply NoDup_fmap_2_strong; [|by apply NoDup_fmap_1 in Hnd].
  intros x y Hx Hy Heq%(f_equal fst)%(f_equal SSG.name).
  by apply (Hinj x y).
Qed.

(** A dict filled by a loop holds, under a key that was assigned, the
    value of the last assignment to that key. *)
Lemma foldl_insert_lookup_last `{Countable K} {A V} (k : A -> K) (f : A -> V)
    (l : list A) (m : gmap K V) (x : K) :
  (exists a, a ∈ l /\ k a = x) ->
  exists l1 b l2, l = l1 ++ b :: l2 /\ k b = x /\
    (forall c, c ∈ l2 -> k c ≠ x) /\
    foldl (fun m a => <[k a := f a]> m) m l !! x = Some (f b).
Proof.
  revert m. induction l as [|y l IH]; intros m (a & Ha & Hk);
    [by apply elem_of_nil in Ha|].
  cbn [foldl].
  destruct (decide (Exists (fun c => k c = x) l)) as [Hex|Hnex].
  - apply Exists_exists in Hex.
    destruct (IH (<[k y := f y]> m) Hex) as (l1 & b & l2 & -> & Hb & Hl2 & Hlk).
    by exists (y :: l1), b, l2.
  - rewrite <- Forall_Exists_neg, Forall_forall in Hnex.
    apply elem_of_cons in Ha as [->|Ha]; [|by destruct (Hnex a Ha)].
    exists [], y, l. split; [done|]. split; [done|]. split; [done|].
    destruct (foldl_insert_lookup_Some k f l (<[k y := f y]> m) x (f y))
      as [_ _] || idtac.
    assert (Hkeep : forall (l' : list A) (m' : gmap K V),
              (forall c, c ∈ l' -> k c ≠ x) ->
              foldl (fun m a => <[k a := f a]> m) m' l' !! x = m' !! x).
    { clear. induction l' as [|z l' IH']; intros m' Hl'; [done|].
      cbn [foldl]. rewrite IH' by (intros; apply Hl'; set_solver).
      rewrite lookup_insert_ne; [done|]. apply Hl'. set_solver. }
    rewrite Hkeep by done. rewrite <- Hk. by rewrite lookup_insert_eq.
Qed.

Lemma transitions_by_copied spg V2 nmw nml win lose alphas t :
  wf_spg spg -> vertex_table spg V2 nmw nml -> t ∈ SPG.transitions spg ->
  exists l1 t' l2,
    SPG.transitions spg = l1 ++ t' :: l2 /\
    SPG.start_vertex t' = SPG.start_vertex t /\
    SPG.action t' = SPG.action t /\
    (forall c, c ∈ l2 ->
       ¬ (SPG.start_vertex c = SPG.start_vertex t /\
          SPG.action c = SPG.action t)) /\
    transitions_by (intermediate_of spg) win lose spg alphas
      !! (decision (SPG.start_vertex t), SPG.action t)
    = Some (copied_by (intermediate_of spg) t').
Proof.
  intros (Hnd & _ & Hts) (_ & _ & _ & _ & _ & _ & Hinj & _) Ht.
  rewrite Forall_forall in Hts.
  assert (Hdec : forall c, c ∈ SPG.transitions spg ->
            decision (SPG.start_vertex c) = decision (SPG.start_vertex t) ->
            SPG.start_vertex c = SPG.start_vertex t).
  { intros c Hc Heq. apply (name_inj (SPG.vertices spg)); [done|..].
    - by destruct (Hts c Hc) as (? & _).
    - by destruct (Hts t Ht) as (? & _).
    - by injection Heq. }
  destruct (foldl_insert_lookup_last
              (fun t => (decision (SPG.start_vertex t), SPG.action t))
              (copied_by (intermediate_of spg)) (SPG.transitions spg) ∅
              (decision (SPG.start_vertex t), SPG.action t))
    as (l1 & t' & l2 & Heq & Hk & Hl2 & Hlk); [by exists t|].
  exists l1, t', l2. split; [done|].
  assert (Ht' : t' ∈ SPG.transitions spg) by (rewrite Heq; set_solver).
  injection Hk as Hk1 Hk2 Hk3.
  split; [apply Hdec; [done|]; unfold decision; congruence|].
  split; [done|]. split.
  { intros c Hc [Hc1 Hc2]. apply (Hl2 c Hc). by rewrite Hc1, Hc2. }
  unfold transitions_by.
  destruct (foldl_insert_lookup_Some
              (fun v => (intermediate_of spg v, "alpha"))
              (fun v => alpha_transition_by (intermediate_of spg) win lose
                          (alpha_at alphas v) v)
              (SPG.vertices spg)
              (foldl (fun T t =>
                        <[(decision (SPG.start_vertex t), SPG.action t)
                          := copied_by (intermediate_of spg) t]> T)
                     ∅ (SPG.transitions spg))
              (decision (SPG.start_vertex t), SPG.action t)) as [_ _] || idtac.
  assert (Hkeep : forall (l : list SpgVertex)
                         (T : gmap (SsgVertex * string) SsgTransition),
            (forall v, v ∈ l -> v ∈ SPG.vertices spg) ->
            foldl (fun T v =>
                     <[(intermediate_of spg v, "alpha")
                       := alpha_transition_by (intermediate_of spg) win lose
                            (alpha_at alphas v) v]> T) T l
              !! (decision (SPG.start_vertex t), SPG.action t)
            = T !! (decision (SPG.start_vertex t), SPG.action t)).
  { induction l as [|y l IH']; intros T Hl; [done|].
    cbn [foldl]. rewrite IH' by (intros; apply Hl; set_solver).
    rewrite lookup_insert_ne; [done|].
    intros Heq'%(f_equal fst)%(f_equal SSG.name). simpl in Heq'.
    destruct (Hts t Ht) as (Hs & _).
    destruct (Hinj y (SPG.start_vertex t)) as [Hne _]; [apply Hl; set_solver|done|].
    done. }
  rewrite Hkeep by done. exact Hlk.
Qed.

Lemma size_list_to_set_fmap_inj `{Countable A} `{Countable B} (g : A -> B)
    (l : list A) :
  (forall x y, x ∈ l -> y ∈ l -> g x = g y -> x = y) ->
  size (list_to_set (g <$> l) : gset B) = size (list_to_set l : gset A).
Proof.
  induction l as [|x l IH]; intros Hinj; [done|].
  cbn [fmap list_fmap list_to_set].
  assert (IH' : size (list_to_set (g <$> l) : gset B)
                = size (list_to_set l : gset A))
    by (apply IH; intros; apply Hinj; set_solver).
  destruct (decide (x ∈ l)) as [Hin|Hnin].
  - rewrite (subseteq_union_1_L {[ x ]}) by set_solver.
    rewrite (subseteq_union_1_L {[ g x ]}); [done|].
    apply singleton_subseteq_l, elem_of_list_to_set, list_elem_of_fmap.
    by exists x.
  - rewrite !size_union, !size_singleton; [by rewrite IH'|set_solver|].
    apply disjoint_singleton_l. rewrite elem_of_list_to_set.
    intros (y & Hy & Hyl)%list_elem_of_fmap.
    apply Hnin. by rewrite (Hinj x y) by set_solver.
Qed.

Lemma distribution_sum_singleton `{Countable V} (x : Qc * V) :
  distribution_sum ({[ x ]} : gset (Qc * V)) = x.1.
Proof.
  rewrite <- (right_id_L ∅ (∪) {[ x ]}).
  rewrite distribution_sum_insert by set_solver.
  rewrite distribution_sum_empty. ring.
Qed.

Lemma size_list_to_set_le `{Countable A} (l : list A) :
  (size (list_to_set l : gset A) <= length l)%nat.
Proof.
  induction l as [|x l IH]; [done|]. cbn [list_to_set length].
  destruct (decide (x ∈ l)) as [Hin|Hnin].
  - rewrite (subseteq_union_1_L {[ x ]}) by set_solver. lia.
  - rewrite size_union, size_singleton by set_solver. lia.
Qed.

Lemma transitions_by_size spg V2 nmw nml win lose alphas :
  wf_spg spg -> vertex_table spg V2 nmw nml ->
  size (transitions_by (intermediate_of spg) win lose spg alphas)
  = (length (SPG.vertices spg)
     + size (list_to_set
               ((fun t => (SPG.start_vertex t, SPG.action t))
                  <$> SPG.transitions spg) : gset (SpgVertex * string)))%nat.
Proof.
  intros (Hnd & _ & Hts) (_ & _ & _ & _ & _ & _ & Hinj & _).
  rewrite Forall_forall in Hts.
  rewrite <- size_dom. unfold transitions_by.
  rewrite !foldl_insert_dom, dom_empty_L, (left_id_L ∅ (∪)).
  rewrite size_union.
  2:{ apply elem_of_disjoint. intros k.
      rewrite !elem_of_list_to_set.
      intros (t & -> & Ht)%list_elem_of_fmap (v & Heq & Hv)%list_elem_of_fmap.
      apply (f_equal fst), (f_equal SSG.name) in Heq. simpl in Heq.
      destruct (Hts t Ht) as (Hs & _).
      destruct (Hinj v (SPG.start_vertex t)) as [Hne _]; [done..|].
      by apply Hne. }
  rewrite (size_list_to_set
             ((fun v => (intermediate_of spg v, "alpha")) <$> SPG.vertices spg)).
  2:{ apply NoDup_fmap_2_strong; [|by apply NoDup_fmap_1 in Hnd].
      intros x y Hx Hy Heq%(f_equal fst)%(f_equal SSG.name).
      by apply (Hinj x y). }
  rewrite length_fmap, Nat.add_comm. f_equal.
  rewrite <- (size_list_to_set_fmap_inj
                (fun k : SpgVertex * string => (decision k.1, k.2))).
  - by rewrite <- list_fmap_compose.
  - intros [x a] [y b] (t1 & [= -> ->] & Ht1)%list_elem_of_fmap
      (t2 & [= -> ->] & Ht2)%list_elem_of_fmap [= Hn _ Ha]. simpl in *.
    f_equal; [|done].
    apply (name_inj (SPG.vertices spg)); [done|..|done].
    + by destruct (Hts t1 Ht1) as (? & _).
    + by destruct (Hts t2 Ht2) as (? & _).
Qed.

(** ** The analyzer and the alpha derivation at the edges *)

(** X1. A denominator cap below 1 is rejected for every game, with or
    without transitions: [limit_denominator] raises [ValueError] on the
    first probability, and without probabilities [min] does; the alpha
    derivation fails the same way. *)
Theorem cap_below_one_raises_ValueError spg epsilon max_d :
  max_d < 1 ->
  max_denom_and_min_prob spg max_d = Raise ValueError /\
  compute_alphas_for_spg spg epsilon max_d = Raise ValueError.
Proof.
  intros Hmax.
  assert (H : max_denom_and_min_prob spg max_d = Raise ValueError).
  { unfold max_denom_and_min_prob.
    destruct (elements (collect_floats spg)) as [|x l]; [done|].
    cbn [mapM_r]. unfold limit_denominator at 1.
    by rewrite (proj2 (Z.ltb_lt max_d 1) Hmax). }
  split; [done|]. unfold compute_alphas_for_spg. by rewrite H.
Qed.

(** X2. On a well-formed game with a transition the analyzer's minimum
    lies in (0,1] and its denominator bound lies between 1 and the cap;
    when no probability of the game has a denominator above the cap, the
    bound is the largest denominator that occurs. *)
Theorem analyzer_result_within_bounds spg max_d :
  wf_spg spg -> SPG.transitions spg ≠ [] -> 1 <= max_d ->
  exists m M,
    max_denom_and_min_prob spg max_d = Ok (m, M) /\
    (0 < m)%Qc /\ (m ≤ 1)%Qc /\ 1 <= M <= max_d /\
    ((forall p, occurs spg p -> denominator p <= max_d) ->
     (exists p, occurs spg p /\ denominator p = M) /\
     (forall p, occurs spg p -> denominator p <= M)).
Proof.
  intros Hwf Hne Hmax.
  destruct (max_denom_and_min_prob_spec spg max_d Hwf Hne Hmax)
    as (m & M & Hres & Hocc & _ & (p & fr & Hp & Hfr & HM) & Hall).
  exists m, M. split; [done|].
  destruct (wf_spg_occurs_range spg m Hwf Hocc) as [Hm0 Hm1].
  do 2 (split; [done|]). split.
  - destruct (limit_denominator_spec p max_d Hmax) as (r & Hr & Hle & _).
    rewrite Hfr in Hr. injection Hr as <-.
    pose proof (denominator_pos fr). lia.
  - intros Hsmall. split.
    + exists p. split; [done|].
      rewrite (limit_denominator_small p max_d Hmax (Hsmall p Hp)) in Hfr.
      by injection Hfr as <-.
    + intros q Hq. destruct (Hall q Hq) as (fr' & Hfr' & Hle).
      rewrite (limit_denominator_small q max_d Hmax (Hsmall q Hq)) in Hfr'.
      by injection Hfr' as <-.
Qed.

(** The analyzer and the rounding of the minimum return on a well-formed
    game with a transition. *)
Lemma analyzer_and_rounding spg max_d :
  wf_spg spg -> SPG.transitions spg ≠ [] -> 1 <= max_d ->
  exists m M delta,
    max_denom_and_min_prob spg max_d = Ok (m, M) /\
    limit_denominator m max_d = Ok delta /\ occurs spg m /\ 1 <= M /\
    (0 ≤ delta)%Qc /\ (delta ≤ 1)%Qc.
Proof.
  intros Hwf Hne Hmax.
  destruct (compute_alphas_for_spg_spec spg None max_d Hwf Hne Hmax I)
    as (m & M & delta & _ & ? & ? & ? & ? & ? & ? & _).
  by exists m, M, delta.
Qed.

Lemma Qcdiv_eq_0 (a b : Qc) : b ≠ 0%Qc -> (a / b)%Qc = 0%Qc -> a = 0%Qc.
Proof.
  intros Hb H. destruct (Qcmult_integral _ _ H) as [?|Hinv]; [done|].
  pose proof (Qcmult_inv_r b Hb) as H1. rewrite Hinv, Qcmult_0_r in H1.
  discriminate.
Qed.

(** X3. The epsilon mode divides by [(4 - epsilon) * 8], by [4 * epsilon]
    and by [8 * (4 - epsilon) / (4 * epsilon) + 1]: on a well-formed game
    with a transition it raises [ZeroDivisionError] exactly for the
    epsilons 0, 4 and 8, and returns an alpha map for every other epsilon,
    admissible or not. *)
Theorem epsilon_mode_divides_by_zero_at_0_4_8 spg e max_d :
  wf_spg spg -> SPG.transitions spg ≠ [] -> 1 <= max_d ->
  (e = 0%Qc \/ e = Qc_of_Z 4 \/ e = Qc_of_Z 8 ->
   compute_alphas_for_spg spg (Some e) max_d = Raise ZeroDivisionError) /\
  (e ≠ 0%Qc -> e ≠ Qc_of_Z 4 -> e ≠ Qc_of_Z 8 ->
   exists alphas, compute_alphas_for_spg spg (Some e) max_d = Ok alphas).
Proof.
  intros Hwf Hne Hmax.
  destruct (analyzer_and_rounding spg max_d Hwf Hne Hmax)
    as (m & M & delta & Hres & Hdelta & _).
  assert (H4 : ((Qc_of_Z 4 - e) * Qc_of_Z 8 = 0 <-> e = Qc_of_Z 4)%Qc).
  { split; [|intros ->; ring].
    intros [H|H]%Qcmult_integral; [|by apply Qc_of_Z_neq_0 in H].
    rewrite <- (Qcplus_0_l e), <- H. ring. }
  assert (H0 : (Qc_of_Z 4 * e = 0 <-> e = 0)%Qc).
  { split; [|intros ->; ring].
    intros [H|H]%Qcmult_integral; [by apply Qc_of_Z_neq_0 in H|done]. }
  assert (H8 : e ≠ 0%Qc ->
    (Qc_of_Z 8 * (Qc_of_Z 4 - e) / (Qc_of_Z 4 * e) + 1 = 0 <-> e = Qc_of_Z 8)%Qc).
  { intros He.
    assert (Hd : (Qc_of_Z 4 * e)%Qc ≠ 0%Qc) by (by rewrite H0).
    assert (Heq : (Qc_of_Z 8 * (Qc_of_Z 4 - e) / (Qc_of_Z 4 * e) + 1
                   = (Qc_of_Z 4 * (Qc_of_Z 8 - e)) / (Qc_of_Z 4 * e))%Qc).
    { assert (H88 : Qc_of_Z 8 = (Qc_of_Z 4 + Qc_of_Z 4)%Qc)
        by (apply Qc_is_canon; reflexivity).
      unfold Qcdiv.
      rewrite <- (Qcmult_inv_r (Qc_of_Z 4 * e)) at 1 by done.
      rewrite <- Qcmult_plus_distr_l. f_equal. rewrite H88. ring. }
    rewrite Heq. split.
    - intros H%Qcdiv_eq_0; [|done].
      apply Qcmult_integral in H as [H|H]; [by apply Qc_of_Z_neq_0 in H|].
      rewrite <- (Qcplus_0_l e), <- H. ring.
    - intros ->. unfold Qcdiv. ring. }
  unfold compute_alphas_for_spg. rewrite Hres. cbn [bind]. rewrite Hdelta.
  cbn [bind]. split.
  - intros [ -> | [ -> | -> ] ].
    + rewrite truediv_Ok by (apply Qc_of_Z_neq_0 || (rewrite H4; intros H;
        by apply (f_equal this) in H)). cbn [bind].
      unfold truediv at 1. rewrite decide_True by ring. done.
    + unfold truediv at 1. rewrite decide_True by ring. done.
    + assert (Hn : (Qc_of_Z 8)%Qc ≠ 0%Qc) by (by apply Qc_of_Z_neq_0).
      rewrite truediv_Ok
        by (rewrite H4; intros H; by apply (f_equal this) in H).
      cbn [bind]. rewrite truediv_Ok by (by rewrite H0). cbn [bind].
      unfold truediv at 1. rewrite decide_True by (by apply H8). done.
  - intros He0 He4 He8.
    rewrite truediv_Ok by (by rewrite H4). cbn [bind].
    rewrite truediv_Ok by (by rewrite H0). cbn [bind].
    rewrite truediv_Ok by (by rewrite H8). cbn [bind].
    destruct (decay_spec (sorted_priorities spg)
      (Qc_of_Z 4 * e * delta ^ length (SPG.vertices spg)
       / ((Qc_of_Z 4 - e) * Qc_of_Z 8))%Qc
      ((1 - delta) * delta ^ length (SPG.vertices spg)
       / (Qc_of_Z 8 * (Qc_of_Z 4 - e) / (Qc_of_Z 4 * e) + 1))%Qc)
      as (alphas & Hdecay & _).
    { apply sorted_priorities_NoDup. }
    { by apply sorted_priorities_nonempty, wf_spg_vertices_nonempty. }
    by exists alphas.
Qed.

Local Open Scope Qc_scope.

Lemma Qcdiv_le_1 (a b : Qc) : 0 ≤ a -> a ≤ 1 -> 1 ≤ b -> a / b ≤ 1.
Proof.
  intros Ha0 Ha1 Hb.
  assert (H : a / b ≤ 1 / 1).
  { apply Qcdiv_le_mono; [done|done| |done]. by apply Qclt_le_trans with 1. }
  unfold Qcdiv in H at 2. by rewrite Qcmult_1_l in H.
Qed.

Lemma geometric_le (a r : Qc) (i : nat) :
  0 ≤ a -> 0 ≤ r -> r ≤ 1 -> 0 ≤ a * r ^ i /\ a * r ^ i ≤ a.
Proof.
  intros Ha Hr0 Hr1.
  assert (H0 : 0 ≤ r ^ i) by (by apply Qcpower_pos).
  assert (H1 : r ^ i ≤ 1) by (by apply Qcpower_le_1).
  split; [by apply Qcmult_nonneg_nonneg|].
  rewrite <- (Qcmult_1_r a) at 2. by apply Qcmult_le_mono_nonneg_l.
Qed.

(** The two quantities of the sound mode for a rounded minimum in
    [[0,1]]. *)
Lemma sound_alpha0_ratio_range (delta : Qc) (n : nat) (M : Z) :
  0 ≤ delta -> delta ≤ 1 -> (1 <= M)%Z ->
  0 ≤ alpha0 None delta n M /\ alpha0 None delta n M ≤ Q2Qc (1 # 8) /\
  0 ≤ ratio None delta n M /\ ratio None delta n M ≤ 1.
Proof.
  intros Hd0 Hd1 HM. simpl.
  pose proof (sound_denominator_ge_8 n M HM) as HD.
  assert (Hc0 : 0 ≤ delta ^ n) by (by apply Qcpower_pos).
  assert (Hc1 : delta ^ n ≤ 1) by (by apply Qcpower_le_1).
  assert (HD0 : 0 < Qc_of_Z (sound_denominator n M))
    by (apply Qc_of_Z_pos; lia).
  assert (HD8 : Qc_of_Z 8 ≤ Qc_of_Z (sound_denominator n M))
    by (by apply (proj1 (Z2Qc_inj_le 8 _))).
  assert (HD1 : 1 ≤ Qc_of_Z (sound_denominator n M + 1)).
  { apply Qclt_le_weak, Qc_of_Z_gt_1. lia. }
  assert (Hn0 : 0 ≤ (1 - delta) * delta ^ n).
  { apply Qcmult_nonneg_nonneg; [|done]. qc_to_q; lra. }
  assert (Hn1 : (1 - delta) * delta ^ n ≤ 1).
  { apply Qcle_trans with ((1 - delta) * 1).
    - apply Qcmult_le_mono_nonneg_l; [qc_to_q; lra|done].
    - rewrite Qcmult_1_r. qc_to_q; lra. }
  split; [by apply Qcdiv_nonneg|]. split.
  - assert (H8 : Q2Qc (1 # 8) = 1 / Qc_of_Z 8)
      by (apply Qc_is_canon; reflexivity).
    rewrite H8. apply Qcdiv_le_mono; [done|done| |done].
    by apply Qc_of_Z_pos.
  - split; [apply Qcdiv_nonneg; [done|by apply Qclt_le_trans with 1]|].
    by apply Qcdiv_le_1.
Qed.

Local Close Scope Qc_scope.

(** In sound mode every alpha lies between 0 and 1/8. *)
Lemma sound_mode_alphas_range spg max_d :
  wf_spg spg -> SPG.transitions spg ≠ [] -> 1 <= max_d ->
  exists alphas,
    compute_alphas_for_spg spg None max_d = Ok alphas /\
    forall p a, alphas !! p = Some a ->
      (0 ≤ a)%Qc /\ (a ≤ Q2Qc (1 # 8))%Qc.
Proof.
  intros Hwf Hne Hmax.
  destruct (compute_alphas_for_spg_spec spg None max_d Hwf Hne Hmax I)
    as (m & M & delta & alphas & _ & _ & _ & HM & Hd0 & Hd1 & Hc & Hidx & Hdom).
  exists alphas. split; [done|]. intros p a Hpa.
  assert (Hp : p ∈ dom alphas) by (apply elem_of_dom; eauto).
  rewrite Hdom, elem_of_list_to_set in Hp.
  apply list_elem_of_lookup in Hp as [i Hi].
  rewrite (Hidx _ _ Hi) in Hpa. injection Hpa as <-.
  destruct (sound_alpha0_ratio_range delta (length (SPG.vertices spg)) M
              Hd0 Hd1 HM) as (Ha0 & Ha8 & Hr0 & Hr1).
  destruct (geometric_le _ _ i Ha0 Hr0 Hr1) as [Hg0 Hg1].
  split; [done|]. by eapply Qcle_trans.
Qed.

(** X4. In sound mode every alpha lies between 0 and 1/8, on every
    well-formed game with a transition and for every cap of at least 1,
    also when the rounded minimum probability is 0 or 1. *)
Theorem sound_mode_alphas_at_most_one_eighth spg max_d :
  wf_spg spg -> SPG.transitions spg ≠ [] -> 1 <= max_d ->
  exists alphas,
    compute_alphas_for_spg spg None max_d = Ok alphas /\
    forall p a, alphas !! p = Some a ->
      (0 ≤ a)%Qc /\ (a ≤ Q2Qc (1 # 8))%Qc.
Proof. exact (sound_mode_alphas_range spg max_d). Qed.


(** A positive fraction of at most [1 / (2 * max_denominator)] is rounded
    to 0: the loop of [limit_denominator] stops in its second round. *)
Lemma limit_denominator_underflow (self : Qc) (max_denominator : Z) :
  1 <= max_denominator -> 0 < numerator self ->
  2 * max_denominator * numerator self <= denominator self ->
  limit_denominator self max_denominator = Ok 0%Qc.
Proof.
  intros Hmax Hn Hsmall.
  set (n := numerator self) in *. set (d := denominator self) in *.
  assert (Hd : max_denominator < d) by nia.
  assert (Ha : n / d = 0) by (apply Z.div_small; nia).
  assert (Hq : max_denominator < d / n).
  { apply Z.lt_le_trans with (2 * max_denominator); [lia|].
    apply Z.div_le_lower_bound; lia. }
  unfold limit_denominator. fold n d.
  rewrite (proj2 (Z.ltb_ge max_denominator 1)) by lia.
  rewrite (proj2 (Z.leb_gt d max_denominator)) by lia.
  destruct (Z.to_nat d) as [|f] eqn:Hf; [lia|].
  cbn [limit_denominator_loop].
  rewrite (proj2 (Z.eqb_neq d 0)) by lia. rewrite Ha.
  replace (1 + 0 * 0) with 1 by lia.
  rewrite (proj2 (Z.ltb_ge max_denominator 1)) by lia.
  rewrite (proj2 (Z.eqb_neq (n - 0 * d) 0)) by lia.
  replace (n - 0 * d) with n by lia.
  replace (0 + d / n * 1) with (d / n) by lia.
  rewrite (proj2 (Z.ltb_lt max_denominator (d / n))) by lia.
  cbn [bind]. rewrite (proj2 (Z.eqb_neq 1 0)) by lia.
  rewrite Z.sub_0_r, Z.div_1_r.
  rewrite (proj2 (Z.leb_le (2 * n * (0 + max_denominator * 1)) d)) by lia.
  f_equal.
Qed.

(** X6. A probability of at most [1 / (2 * max_d)] somewhere in the game
    makes the rounded minimum 0, and then every alpha is 0, in sound mode
    and for every admissible epsilon. *)
Theorem tiny_probability_zeroes_all_alphas spg epsilon max_d :
  wf_spg spg -> SPG.transitions spg ≠ [] -> 1 <= max_d ->
  admissible epsilon ->
  (exists p, occurs spg p /\ (p * Qc_of_Z (2 * max_d) ≤ 1)%Qc) ->
  exists alphas,
    rounded_minimum spg max_d = Ok 0%Qc /\
    compute_alphas_for_spg spg epsilon max_d = Ok alphas /\
    forall q a, alphas !! q = Some a -> a = 0%Qc.
Proof.
  intros Hwf Hne Hmax Heps (p & Hp & Hsmall).
  destruct (compute_alphas_for_spg_spec spg epsilon max_d Hwf Hne Hmax Heps)
    as (m & M & delta & alphas & Hres & Hdelta & Hocc & HM & _ & _ & Hc
        & Hidx & Hdom).
  destruct (max_denom_and_min_prob_spec spg max_d Hwf Hne Hmax)
    as (m' & M' & Hres' & _ & Hmin & _).
  rewrite Hres in Hres'. injection Hres' as <- <-.
  destruct (wf_spg_occurs_range spg m Hwf Hocc) as [Hm0 _].
  pose proof (Hmin p Hp) as Hmp.
  assert (Hm2 : (m * Qc_of_Z (2 * max_d) ≤ 1)%Qc).
  { apply Qcle_trans with (p * Qc_of_Z (2 * max_d))%Qc; [|done].
    apply Qcmult_le_mono_nonneg_r; [|done].
    apply Qclt_le_weak, Qc_of_Z_pos. lia. }
  assert (Hzero : limit_denominator m max_d = Ok 0%Qc).
  { apply limit_denominator_underflow; [done|..].
    - unfold numerator. unfold Qclt, Qlt in Hm0. simpl in Hm0. lia.
    - unfold numerator, denominator. qc_to_q. unfold Qle in Hm2.
      simpl in Hm2. lia. }
  rewrite Hzero in Hdelta. injection Hdelta as <-.
  assert (Hn : length (SPG.vertices spg) ≠ O).
  { pose proof (wf_spg_vertices_nonempty spg Hwf).
    by destruct (SPG.vertices spg). }
  assert (Ha0 : alpha0 epsilon 0%Qc (length (SPG.vertices spg)) M = 0%Qc).
  { destruct epsilon; simpl; rewrite Qcpower_0 by done; unfold Qcdiv; ring. }
  exists alphas. split; [|split; [done|]].
  { unfold rounded_minimum. rewrite Hres. exact Hzero. }
  intros q a Hqa.
  assert (Hq : q ∈ dom alphas) by (apply elem_of_dom; eauto).
  rewrite Hdom, elem_of_list_to_set in Hq.
  apply list_elem_of_lookup in Hq as [i Hi].
  rewrite (Hidx _ _ Hi), Ha0 in Hqa. injection Hqa as <-. ring.
Qed.


(** ** The produced game, whatever the names *)

(** X7. Name collisions do not change the size of the produced game: on
    every well-formed game with a transition it has exactly [2n + 2]
    vertices, every vertex is stored under its own name, every vertex of
    the input is found under its name as a decision vertex of the same
    owner that is no target, and the initial vertex is the decision vertex
    of the initial vertex of the input. *)
Theorem vertex_count_despite_collisions spg epsilon :
  wf_spg spg -> SPG.transitions spg ≠ [] -> admissible epsilon ->
  exists ssg,
    spg_to_ssg spg epsilon = Ok ssg /\
    size (SSG.vertices ssg) = (2 * length (SPG.vertices spg) + 2)%nat /\
    (forall k x, SSG.vertices ssg !! k = Some x -> SSG.name x = k) /\
    (forall v, v ∈ SPG.vertices spg ->
       SSG.vertices ssg !! SPG.name v
       = Some (mkSsgVertex (SPG.name v) (SPG.is_eve v) false)) /\
    SSG.init_vertex ssg =
      mkSsgVertex (SPG.name (SPG.init_vertex spg))
                  (SPG.is_eve (SPG.init_vertex spg)) false.
Proof.
  intros Hwf Hne Heps.
  destruct (spg_to_ssg_general spg epsilon Hwf Hne Heps)
    as (alphas & V2 & nmw & nml & win & lose & _ & _ & Hssg & Htable & _).
  destruct Htable as (Hdec & _ & _ & _ & _ & Hnamed & _ & _ & _ & _ & _ & _
                      & _ & _ & _ & Hsize).
  eexists. split; [exact Hssg|]. cbn [SSG.vertices SSG.init_vertex].
  by repeat split.
Qed.

(** X8. The produced game is closed: every transition is stored under
    its own start vertex and action, and its start vertex and the target
    of every branch are vertices of the game, stored under their names. *)
Theorem produced_game_is_closed spg epsilon :
  wf_spg spg -> SPG.transitions spg ≠ [] -> admissible epsilon ->
  exists ssg,
    spg_to_ssg spg epsilon = Ok ssg /\
    forall k t, SSG.transitions ssg !! k = Some t ->
      k = (SSG.start_vertex t, SSG.action t) /\
      SSG.vertices ssg !! SSG.name (SSG.start_vertex t)
        = Some (SSG.start_vertex t) /\
      forall p w, (p, w) ∈ SSG.end_vertices t ->
        SSG.vertices ssg !! SSG.name w = Some w.
Proof.
  intros Hwf Hne Heps.
  destruct (spg_to_ssg_general spg epsilon Hwf Hne Heps)
    as (alphas & V2 & nmw & nml & win & lose & _ & _ & Hssg & Htable
        & Hwin & Hlose).
  destruct Htable as (Hdec & Hint & _ & _ & _ & Hnamed & _).
  pose proof Hwf as (_ & _ & Hts). rewrite Forall_forall in Hts.
  eexists. split; [exact Hssg|]. cbn [SSG.vertices SSG.transitions].
  intros k t' [(v & Hv & -> & ->)|(t & Ht & -> & ->)]%transitions_by_inv.
  - split; [done|]. cbn [SSG.start_vertex SSG.end_vertices alpha_transition_by].
    split; [by apply Hint|].
    intros p w Hpw.
    apply elem_of_union in Hpw as [Hpw|Hpw]; apply elem_of_singleton in Hpw;
      injection Hpw as -> ->; [|by apply Hdec].
    destruct (SPG.priority v mod 2 =? 0).
    + by rewrite (Hnamed _ _ Hwin).
    + by rewrite (Hnamed _ _ Hlose).
  - destruct (Hts t Ht) as (Hstart & Hends & _).
    split; [done|]. cbn [SSG.start_vertex SSG.end_vertices copied_by].
    split; [by apply Hdec|].
    intros p w ([q u] & [= -> ->] & Hin)%elem_of_map.
    destruct (Hends _ Hin) as (_ & _ & Hu). by apply Hint.
Qed.

(** X9. The produced game has exactly one target vertex, the WIN sink; it
    belongs to Eve, the LOSE sink to Adam, and no transition leaves either
    sink.  The WIN sink is stored under "v_win" when no vertex of the
    input has that name, and under "v_win" followed by digits
    otherwise; likewise for the LOSE sink and "v_lose". *)
Theorem one_target_and_absorbing_sinks spg epsilon :
  wf_spg spg -> SPG.transitions spg ≠ [] -> admissible epsilon ->
  exists ssg nmw nml,
    spg_to_ssg spg epsilon = Ok ssg /\
    SSG.vertices ssg !! nmw = Some (mkSsgVertex nmw true true) /\
    SSG.vertices ssg !! nml = Some (mkSsgVertex nml false false) /\
    (forall k x, SSG.vertices ssg !! k = Some x ->
       SSG.is_target x = true -> x = mkSsgVertex nmw true true) /\
    (forall act,
       SSG.transitions ssg !! (mkSsgVertex nmw true true, act) = None /\
       SSG.transitions ssg !! (mkSsgVertex nml false false, act) = None) /\
    (exists t, nmw = "v_win" +:+ t /\ all_digits t = true) /\
    (exists t, nml = "v_lose" +:+ t /\ all_digits t = true) /\
    ((forall v, v ∈ SPG.vertices spg -> SPG.name v ≠ "v_win") ->
     nmw = "v_win") /\
    ((forall v, v ∈ SPG.vertices spg -> SPG.name v ≠ "v_lose") ->
     nml = "v_lose") /\
    (forall v, v ∈ SPG.vertices spg ->
       SPG.name v ≠ nmw /\ SPG.name v ≠ nml).
Proof.
  intros Hwf Hne Heps.
  destruct (spg_to_ssg_general spg epsilon Hwf Hne Heps)
    as (alphas & V2 & nmw & nml & win & lose & _ & _ & Hssg & Htable & _).
  destruct Htable as (Hdec & Hint & Hw & Hl & Hcases & Hnamed & Hinj
                      & Hfresh & Hwl & Hwn & Hln & Hwfree & Hlfree & _).
  pose proof Hwf as (_ & _ & Hts). rewrite Forall_forall in Hts.
  eexists _, nmw, nml. split; [exact Hssg|].
  cbn [SSG.vertices SSG.transitions]. do 2 (split; [done|]). split.
  { intros k x [(v & Hv & [->| ->])|[->| ->]]%Hcases; done. }
  split.
  { assert (Hnone : forall s act,
      (forall v, v ∈ SPG.vertices spg ->
         s ≠ decision v /\ s ≠ intermediate_of spg v) ->
      transitions_by (intermediate_of spg) win lose spg alphas !! (s, act)
      = None).
    { intros s act Hs.
      destruct (transitions_by _ _ _ _ _ !! (s, act)) as [t'|] eqn:E; [|done].
      apply transitions_by_inv in E
        as [(v & Hv & [= -> _] & _)|(t & Ht & [= -> _] & _)].
      - by destruct (Hs v Hv) as [_ ?].
      - destruct (Hts t Ht) as (Hstart & _).
        by destruct (Hs _ Hstart) as [? _]. }
    intros act. split; apply Hnone; intros v Hv;
      destruct (Hfresh v Hv) as (? & ? & ? & ?); split; intros Heq;
      apply (f_equal SSG.name) in Heq; unfold decision in Heq;
      cbn [SSG.name] in Heq; congruence. }
  do 4 (split; [done|]).
  intros v Hv. destruct (Hfresh v Hv) as (? & ? & _). by split.
Qed.

(** X10. The renaming of intermediate vertices (lines 104-112): the
    intermediate vertex of [v] is stored under its own name.  That name is
    the name of [v] followed by the marker when no vertex of the input has
    it, and otherwise followed in addition by the least number [i] for
    which no vertex of the input has the resulting name.  Distinct
    vertices get distinct intermediate vertices, and none is named like a
    vertex of the input. *)
Theorem intermediate_vertices_are_renamed_apart spg epsilon :
  wf_spg spg -> SPG.transitions spg ≠ [] -> admissible epsilon ->
  exists ssg,
    spg_to_ssg spg epsilon = Ok ssg /\
    forall v, v ∈ SPG.vertices spg ->
      SSG.vertices ssg !! SSG.name (intermediate_of spg v)
        = Some (intermediate_of spg v) /\
      ((forall w, w ∈ SPG.vertices spg -> SPG.name w ≠ SPG.name v +:+ "'") ->
       intermediate_of spg v
       = mkSsgVertex (SPG.name v +:+ "'") (negb (SPG.is_eve v)) false) /\
      ((exists w, w ∈ SPG.vertices spg /\ SPG.name w = SPG.name v +:+ "'") ->
       exists i,
         intermediate_of spg v
         = mkSsgVertex ((SPG.name v +:+ "'") +:+ str i)
                       (negb (SPG.is_eve v)) false /\
         forall j, (j < i)%nat ->
           exists w, w ∈ SPG.vertices spg /\
                     SPG.name w = (SPG.name v +:+ "'") +:+ str j) /\
      (forall w, w ∈ SPG.vertices spg ->
         SSG.name (intermediate_of spg v) ≠ SPG.name w /\
         (intermediate_of spg v = intermediate_of spg w -> v = w)).
Proof.
  intros Hwf Hne Heps.
  destruct (spg_to_ssg_general spg epsilon Hwf Hne Heps)
    as (alphas & V2 & nmw & nml & win & lose & _ & _ & Hssg & Htable & _).
  destruct Htable as (Hdec & Hint & _ & _ & _ & _ & Hinj & _).
  pose proof Hwf as (Hnd & _ & _).
  destruct (decision_vertices_spec spg Hnd) as (V0 & R0 & HD & HV0 & _ & Hdom0).
  assert (HV0in : forall s, is_Some (V0 !! s) <->
            exists w, w ∈ SPG.vertices spg /\ SPG.name w = s).
  { intros s. rewrite <- elem_of_dom, Hdom0, elem_of_list_to_set,
      list_elem_of_fmap. naive_solver. }
  eexists. split; [exact Hssg|].
  cbn [SSG.vertices]. intros v Hv. split; [by apply Hint|].
  split; [|split].
  - unfold intermediate_of. rewrite HD. cbn [fst].
    destruct (free_name_spec V0 (SPG.name v +:+ "'")) as (_ & Hfree & _).
    intros Hno. rewrite Hfree; [done|]. apply eq_None_not_Some.
    intros (w & Hw & Hn)%HV0in. by apply (Hno w).
  - unfold intermediate_of. rewrite HD. cbn [fst].
    destruct (free_name_spec V0 (SPG.name v +:+ "'"))
      as (_ & _ & t & Ht & _ & Htaken).
    intros Hex%HV0in. destruct (Htaken Hex) as (i & -> & Hbelow).
    exists i. rewrite Ht. split; [done|].
    intros j Hj. by apply HV0in, Hbelow.
  - intros w Hw. destruct (Hinj v w Hv Hw) as [Hne' Hi]. split; [done|].
    intros Heq. apply Hi. by rewrite Heq.
Qed.

(** X11. The alpha transition as the code builds it (lines 137-141): the
    intermediate vertex of every vertex [v] has the alpha transition as its
    only outgoing transition; with [a] the alpha of the priority of [v], it
    leads with probability [1 - a] back to the decision vertex of [v], and
    with probability [a] to the vertex stored under the literal key
    "v_win" (even priority) or "v_lose" (odd priority).  That vertex is
    the sink when no vertex of the input has the key as its name, and the
    decision vertex of the input vertex of that name otherwise. *)
Theorem alpha_transition_reads_literal_sink_key spg epsilon :
  wf_spg spg -> SPG.transitions spg ≠ [] -> admissible epsilon ->
  exists alphas ssg,
    compute_alphas_for_spg spg epsilon 10000 = Ok alphas /\
    spg_to_ssg spg epsilon = Ok ssg /\
    forall v, v ∈ SPG.vertices spg ->
      let key := if SPG.priority v mod 2 =? 0 then "v_win" else "v_lose" in
      exists a s,
        alphas !! SPG.priority v = Some a /\
        SSG.vertices ssg !! key = Some s /\
        SSG.transitions ssg !! (intermediate_of spg v, "alpha")
          = Some (mkSsgTransition (intermediate_of spg v)
                    {[ (a, s); ((1 - a)%Qc, decision v) ]} "alpha") /\
        (forall act t,
           SSG.transitions ssg !! (intermediate_of spg v, act) = Some t ->
           act = "alpha") /\
        ((forall w, w ∈ SPG.vertices spg -> SPG.name w ≠ key) ->
         s = if SPG.priority v mod 2 =? 0
             then mkSsgVertex "v_win" true true
             else mkSsgVertex "v_lose" false false) /\
        (forall w, w ∈ SPG.vertices spg -> SPG.name w = key ->
                   s = decision w).
Proof.
  intros Hwf Hne Heps.
  destruct (spg_to_ssg_general spg epsilon Hwf Hne Heps)
    as (alphas & V2 & nmw & nml & win & lose & Hc & Ha & Hssg & Htable
        & Hwin & Hlose).
  pose proof Htable as (Hdec & Hint & Hw & Hl & Hcases & Hnamed & Hinj
                        & Hfresh & Hwl & Hwn & Hln & Hwfree & Hlfree & _).
  pose proof Hwf as (_ & _ & Hts). rewrite Forall_forall in Hts.
  exists alphas. eexists. split; [done|]. split; [exact Hssg|].
  cbn [SSG.vertices SSG.transitions]. intros v Hv. cbn zeta.
  assert (Honly : forall act t,
    transitions_by (intermediate_of spg) win lose spg alphas
      !! (intermediate_of spg v, act) = Some t -> act = "alpha").
  { intros act t [(w & Hw' & Hk & _)|(t0 & Ht0 & Hk & _)]%transitions_by_inv.
    { by apply (f_equal snd) in Hk. }
    exfalso. destruct (Hts t0 Ht0) as (Hstart & _).
    apply (f_equal fst), (f_equal SSG.name) in Hk.
    by destruct (Hinj v (SPG.start_vertex t0) Hv Hstart) as [? _]. }
  rewrite (transitions_by_alpha spg V2 nmw nml win lose alphas v) by done.
  unfold alpha_transition_by.
  exists (alpha_at alphas v).
  destruct (SPG.priority v mod 2 =? 0); [exists win|exists lose];
    (split; [by apply Ha|]); (split; [done|]); (split; [done|]);
    (split; [done|]); split.
  - intros Hfree. rewrite (Hwfree Hfree) in Hw. congruence.
  - intros w Hw' Hkey. pose proof (Hdec w Hw') as Hd. rewrite Hkey in Hd.
    congruence.
  - intros Hfree. rewrite (Hlfree Hfree) in Hl. congruence.
  - intros w Hw' Hkey. pose proof (Hdec w Hw') as Hd. rewrite Hkey in Hd.
    congruence.
Qed.

(** X12. A transition of the input is copied under the key (decision
    vertex of its start vertex, action), every branch redirected to the
    intermediate vertex of its target.  Transitions of the input that
    agree on start vertex and action share that key, and the dict keeps
    the last of them: the earlier ones are lost. *)
Theorem copied_transition_last_assignment_wins spg epsilon :
  wf_spg spg -> SPG.transitions spg ≠ [] -> admissible epsilon ->
  exists ssg,
    spg_to_ssg spg epsilon = Ok ssg /\
    forall t, t ∈ SPG.transitions spg ->
      exists l1 t' l2,
        SPG.transitions spg = l1 ++ t' :: l2 /\
        SPG.start_vertex t' = SPG.start_vertex t /\
        SPG.action t' = SPG.action t /\
        (forall c, c ∈ l2 ->
           ¬ (SPG.start_vertex c = SPG.start_vertex t /\
              SPG.action c = SPG.action t)) /\
        SSG.transitions ssg !! (decision (SPG.start_vertex t), SPG.action t)
        = Some (mkSsgTransition (decision (SPG.start_vertex t'))
                  (set_map (fun pv : Qc * SpgVertex =>
                              (pv.1, intermediate_of spg pv.2))
                           (SPG.end_vertices t'))
                  (SPG.action t')).
Proof.
  intros Hwf Hne Heps.
  destruct (spg_to_ssg_general spg epsilon Hwf Hne Heps)
    as (alphas & V2 & nmw & nml & win & lose & _ & _ & Hssg & Htable & _).
  eexists. split; [exact Hssg|]. cbn [SSG.transitions]. intros t Ht.
  exact (transitions_by_copied spg V2 nmw nml win lose alphas t Hwf Htable Ht).
Qed.

(** X13. The produced game has one transition per vertex of the input
    (the alpha transitions) and one per distinct pair (start vertex,
    action) among the transitions of the input; hence at most as many
    as the input has vertices and transitions together. *)
Theorem transition_count spg epsilon :
  wf_spg spg -> SPG.transitions spg ≠ [] -> admissible epsilon ->
  exists ssg,
    spg_to_ssg spg epsilon = Ok ssg /\
    size (SSG.transitions ssg)
    = (length (SPG.vertices spg)
       + size (list_to_set
                 ((fun t => (SPG.start_vertex t, SPG.action t))
                    <$> SPG.transitions spg) : gset (SpgVertex * string)))%nat /\
    (size (SSG.transitions ssg)
     <= length (SPG.vertices spg) + length (SPG.transitions spg))%nat.
Proof.
  intros Hwf Hne Heps.
  destruct (spg_to_ssg_general spg epsilon Hwf Hne Heps)
    as (alphas & V2 & nmw & nml & win & lose & _ & _ & Hssg & Htable & _).
  eexists. split; [exact Hssg|]. cbn [SSG.transitions].
  rewrite (transitions_by_size spg V2 nmw nml win lose alphas Hwf Htable).
  split; [done|]. apply Nat.add_le_mono_l.
  etrans; [apply size_list_to_set_le|]. by rewrite length_fmap.
Qed.

(** ** Probability sums, whatever the names *)

Lemma Qc_half (a : Qc) : a = (1 - a)%Qc -> a = Q2Qc (1 # 2).
Proof.
  intros H.
  assert (H2 : (a * Qc_of_Z 2 = 1)%Qc).
  { assert (H11 : Qc_of_Z 2 = (1 + 1)%Qc) by (by apply Qc_is_canon).
    rewrite H11, Qcmult_plus_distr_r, Qcmult_1_r.
    replace (a + a)%Qc with (a + (1 - a))%Qc by (by rewrite <- H). ring. }
  assert (Ha : a = (a * Qc_of_Z 2 * / Qc_of_Z 2)%Qc).
  { rewrite <- Qcmult_assoc, Qcmult_inv_r, Qcmult_1_r; [done|].
    by apply Qc_of_Z_neq_0. }
  rewrite Ha, H2. by apply Qc_is_canon.
Qed.

(** The sum of every distribution of the produced game: 1, except for the
    alpha transition whose two branches coincide. *)
Lemma distribution_sums_general spg V2 nmw nml win lose alphas k t :
  wf_spg spg -> vertex_table spg V2 nmw nml ->
  V2 !! "v_win" = Some win -> V2 !! "v_lose" = Some lose ->
  transitions_by (intermediate_of spg) win lose spg alphas !! k = Some t ->
  distribution_sum (SSG.end_vertices t) = 1%Qc \/
  exists v, v ∈ SPG.vertices spg /\ k = (intermediate_of spg v, "alpha") /\
    alpha_at alphas v = Q2Qc (1 # 2) /\
    SPG.name v = (if SPG.priority v mod 2 =? 0 then "v_win" else "v_lose") /\
    SSG.end_vertices t = {[ (Q2Qc (1 # 2), decision v) ]}.
Proof.
  intros Hwf Htable Hwin Hlose
    [(v & Hv & -> & ->)|(t0 & Ht0 & -> & ->)]%transitions_by_inv.
  - cbn [SSG.end_vertices alpha_transition_by].
    set (a := alpha_at alphas v).
    set (s := if SPG.priority v mod 2 =? 0 then win else lose).
    destruct (decide ((a, s) = ((1 - a)%Qc, decision v))) as [Heq|Hneq].
    + right. exists v. injection Heq as Ha Hs.
      apply Qc_half in Ha. split; [done|]. split; [done|]. split; [done|].
      destruct Htable as (_ & _ & _ & _ & _ & Hnamed & _).
      split.
      * unfold s in Hs. destruct (SPG.priority v mod 2 =? 0).
        -- apply Hnamed in Hwin. rewrite Hs in Hwin. done.
        -- apply Hnamed in Hlose. rewrite Hs in Hlose. done.
      * rewrite Hs. rewrite <- Ha.
        assert (H1a : (1 - a)%Qc = a).
        { rewrite Ha. by apply Qc_is_canon. }
        rewrite H1a. set_solver.
    + left. rewrite distribution_sum_pair by done. simpl. ring.
  - left. pose proof Hwf as (Hnd & _ & Hts). rewrite Forall_forall in Hts.
    destruct (Hts t0 Ht0) as (_ & Hends & Hsum).
    cbn [SSG.end_vertices copied_by]. unfold redirect_by.
    rewrite (distribution_sum_map (intermediate_of spg)); [done|].
    destruct Htable as (_ & _ & _ & _ & _ & _ & Hinj & _).
    intros x y Hx Hy Heq.
    destruct (Hends x Hx) as (_ & _ & ?), (Hends y Hy) as (_ & _ & ?).
    destruct (Hinj x.2 y.2) as [_ Hi]; [done..|]. apply Hi. by rewrite Heq.
Qed.

(** X14. In sound mode the probabilities of every transition of the
    produced game sum to exactly 1, on every well-formed game with a
    transition, whatever the names of its vertices: the alphas are at most
    1/8, so the two branches of an alpha transition never coincide. *)
Theorem sound_mode_distributions_sum_to_one spg :
  wf_spg spg -> SPG.transitions spg ≠ [] ->
  exists ssg,
    spg_to_ssg spg None = Ok ssg /\
    forall k t, SSG.transitions ssg !! k = Some t ->
                distribution_sum (SSG.end_vertices t) = 1%Qc.
Proof.
  intros Hwf Hne.
  destruct (spg_to_ssg_general spg None Hwf Hne I)
    as (alphas & V2 & nmw & nml & win & lose & Hc & Ha & Hssg & Htable
        & Hwin & Hlose).
  destruct (sound_mode_alphas_range spg 10000 Hwf Hne ltac:(lia))
    as (alphas' & Hc' & Hbound).
  rewrite Hc in Hc'. injection Hc' as <-.
  eexists. split; [exact Hssg|]. cbn [SSG.transitions]. intros k t Hk.
  destruct (distribution_sums_general spg V2 nmw nml win lose alphas k t
              Hwf Htable Hwin Hlose Hk)
    as [?|(v & Hv & _ & Hhalf & _)]; [done|].
  exfalso. destruct (Hbound _ _ (Ha v Hv)) as [_ Hle].
  rewrite Hhalf in Hle. by apply Hle.
Qed.

(** X15. For an admissible epsilon the probabilities of a transition of
    the produced game sum to 1, with one exception: the alpha transition
    of a vertex [v] whose alpha is exactly 1/2 and whose name is the
    literal sink key of its parity ("v_win" for an even, "v_lose" for an
    odd priority).  Its two branches coincide, the set literal keeps one,
    and the sum is 1/2. *)
Theorem distribution_sum_is_one_unless_alpha_is_one_half spg epsilon :
  wf_spg spg -> SPG.transitions spg ≠ [] -> admissible epsilon ->
  exists alphas ssg,
    compute_alphas_for_spg spg epsilon 10000 = Ok alphas /\
    spg_to_ssg spg epsilon = Ok ssg /\
    (forall k t, SSG.transitions ssg !! k = Some t ->
       distribution_sum (SSG.end_vertices t) = 1%Qc \/
       (distribution_sum (SSG.end_vertices t) = Q2Qc (1 # 2) /\
        exists v, v ∈ SPG.vertices spg /\
          k = (intermediate_of spg v, "alpha") /\
          alphas !! SPG.priority v = Some (Q2Qc (1 # 2)) /\
          SPG.name v
          = if SPG.priority v mod 2 =? 0 then "v_win" else "v_lose")) /\
    (forall v, v ∈ SPG.vertices spg ->
       alphas !! SPG.priority v = Some (Q2Qc (1 # 2)) ->
       SPG.name v
       = (if SPG.priority v mod 2 =? 0 then "v_win" else "v_lose") ->
       exists t,
         SSG.transitions ssg !! (intermediate_of spg v, "alpha") = Some t /\
         distribution_sum (SSG.end_vertices t) = Q2Qc (1 # 2)).
Proof.
  intros Hwf Hne Heps.
  destruct (spg_to_ssg_general spg epsilon Hwf Hne Heps)
    as (alphas & V2 & nmw & nml & win & lose & Hc & Ha & Hssg & Htable
        & Hwin & Hlose).
  exists alphas. eexists. split; [done|]. split; [exact Hssg|].
  cbn [SSG.transitions]. split.
  - intros k t Hk.
    destruct (distribution_sums_general spg V2 nmw nml win lose alphas k t
                Hwf Htable Hwin Hlose Hk)
      as [?|(v & Hv & Hkv & Hhalf & Hname & Hends)]; [by left|].
    right. split; [by rewrite Hends, distribution_sum_singleton|].
    exists v. split; [done|]. split; [done|]. split; [|done].
    by rewrite (Ha v Hv), Hhalf.
  - intros v Hv Hhalf Hname.
    rewrite (transitions_by_alpha spg V2 nmw nml win lose alphas v) by done.
    eexists. split; [done|]. cbn [SSG.end_vertices alpha_transition_by].
    assert (Haa : alpha_at alphas v = Q2Qc (1 # 2)).
    { rewrite (Ha v Hv) in Hhalf. by injection Hhalf. }
    destruct Htable as (Hdec & _).
    pose proof (Hdec v Hv) as Hd. rewrite Hname in Hd.
    assert (Hs : (if SPG.priority v mod 2 =? 0 then win else lose)
                 = decision v).
    { destruct (SPG.priority v mod 2 =? 0); congruence. }
    rewrite Hs, Haa.
    assert (H1a : (1 - Q2Qc (1 # 2))%Qc = Q2Qc (1 # 2))
      by (by apply Qc_is_canon).
    rewrite H1a.
    assert (Hset : ({[ (Q2Qc (1 # 2), decision v);
                       (Q2Qc (1 # 2), decision v) ]}
                    : gset (Qc * SsgVertex))
                   = {[ (Q2Qc (1 # 2), decision v) ]}) by set_solver.
    by rewrite Hset, distribution_sum_singleton.
Qed.

(** ** References to vertices outside the game *)

Lemma foldM_Ok_or_Raise {A S} (body : S -> A -> result S) (e : exn)
    (l : list A) :
  (forall acc x, x ∈ l ->
     (exists acc', body acc x = Ok acc') \/ body acc x = Raise e) ->
  forall acc, (exists r, foldM body acc l = Ok r) \/ foldM body acc l = Raise e.
Proof.
  induction l as [|x l IH]; intros Hbody acc; [left; by exists acc|].
  cbn [foldM]. destruct (Hbody acc x) as [[acc' ->]| ->]; [set_solver| |by right].
  cbn [bind]. apply IH. intros; apply Hbody; set_solver.
Qed.

Lemma getitem_Ok_or_KeyError `{Countable K} {V} (d : gmap K V) (k : K) :
  (exists v, getitem d k = Ok v) \/ getitem d k = Raise KeyError.
Proof. unfold getitem. destruct (d !! k); [left; eauto|by right]. Qed.

(** X16. Vertices are looked up by name (lines 101 and 130-134): when the
    initial vertex, or the target of a branch of some transition, has a
    name that no vertex of the game has, the transformer raises
    [KeyError], whatever the alpha map. *)
Theorem reference_outside_the_game_raises_KeyError spg alphas :
  NoDup (SPG.name <$> SPG.vertices spg) ->
  SPG.name (SPG.init_vertex spg) ∉ SPG.name <$> SPG.vertices spg \/
  (exists t p w, t ∈ SPG.transitions spg /\ (p, w) ∈ SPG.end_vertices t /\
                 SPG.name w ∉ SPG.name <$> SPG.vertices spg) ->
  graph_transformer spg alphas = Raise KeyError.
Proof.
  intros Hnd Hbad.
  destruct (decision_vertices_spec spg Hnd) as (V0 & R0 & HD & HV0 & HR0 & Hdom0).
  unfold graph_transformer. rewrite HD.
  destruct (V0 !! SPG.name (SPG.init_vertex spg)) as [iv|] eqn:Hinit.
  2:{ by rewrite (getitem_Raise _ _ Hinit). }
  destruct Hbad as [Hbad|(t & p & w & Ht & Hpw & Hw)].
  { exfalso. apply Hbad.
    assert (Hin : SPG.name (SPG.init_vertex spg) ∈ dom V0)
      by (apply elem_of_dom; eauto).
    by rewrite Hdom0, elem_of_list_to_set in Hin. }
  apply getitem_Ok in Hinit. rewrite Hinit. cbn [bind].
  rewrite (add_intermediate_loop_general V0 (SPG.vertices spg) HV0 ∅ ∅).
  cbn [bind]. rewrite add_sink_free_name. cbn [bind].
  rewrite add_sink_free_name. cbn [bind].
  match goal with
  | |- context [foldM (copy_transition ?V ?R) ∅ _] =>
      set (V2 := V); set (RI := R)
  end.
  assert (HRI : forall d x, RI !! d = Some x ->
            exists v, v ∈ SPG.vertices spg /\ d = decision v).
  { intros d x [(v & Hv & <- & _)|H]%foldl_insert_lookup_Some.
    - by exists v.
    - by rewrite lookup_empty in H. }
  assert (Hstep : forall acc c,
    (exists acc', copy_transition V2 RI acc c = Ok acc') \/
    copy_transition V2 RI acc c = Raise KeyError).
  { intros acc c. unfold copy_transition.
    destruct (getitem_Ok_or_KeyError V2 (SPG.name (SPG.start_vertex c)))
      as [[s ->]| ->]; [|by right]. cbn [bind].
    match goal with |- context [foldM ?body ?a ?l] =>
      destruct (foldM_Ok_or_Raise body KeyError l) with (acc := a)
        as [[r ->]| ->]
    end; [|left; cbn [bind]; eauto|by right].
    intros a [q u] _.
    destruct (getitem_Ok_or_KeyError V2 (SPG.name u)) as [[d ->]| ->];
      [|by right]. cbn [bind].
    destruct (getitem_Ok_or_KeyError RI d) as [[i ->]| ->]; [|by right].
    left. cbn [bind]. eauto. }
  rewrite (foldM_Raise (copy_transition V2 RI) KeyError); [done| |].
  { intros acc c _. apply Hstep. }
  exists t. split; [done|]. intros acc. unfold copy_transition.
  destruct (getitem_Ok_or_KeyError V2 (SPG.name (SPG.start_vertex t)))
    as [[s ->]| ->]; [|done]. cbn [bind].
  match goal with |- context [foldM ?body ?a ?l] =>
    rewrite (foldM_Raise body KeyError l)
  end; [done| |].
  { intros a [q u] _.
    destruct (getitem_Ok_or_KeyError V2 (SPG.name u)) as [[d ->]| ->];
      [|by right]. cbn [bind].
    destruct (getitem_Ok_or_KeyError RI d) as [[i ->]| ->]; [|by right].
    left. cbn [bind]. eauto. }
  exists (p, w). split; [by apply elem_of_elements|]. intros a.
  destruct (V2 !! SPG.name w) as [d|] eqn:Hd;
    [|by rewrite (getitem_Raise _ _ Hd)].
  assert (Hname : SSG.name d = SPG.name w).
  { unfold V2 in Hd.
    repeat match type of Hd with
    | <[?k := _]> _ !! _ = Some _ =>
        apply lookup_insert_Some in Hd as [[Hk <-]|[_ Hd]]; [done|]
    end.
    apply lookup_union_Some_raw in Hd as [Hd|[_ Hd]].
    - apply foldl_insert_lookup_Some in Hd as [(v & Hv & Hk & ->)|Hd]; [done|].
      by rewrite lookup_empty in Hd.
    - assert (Hin : SPG.name w ∈ dom V0) by (apply elem_of_dom; eauto).
      rewrite Hdom0, elem_of_list_to_set in Hin. done. }
  apply getitem_Ok in Hd. rewrite Hd. cbn [bind].
  destruct (RI !! d) as [i|] eqn:Hi; [|by rewrite (getitem_Raise _ _ Hi)].
  exfalso. apply HRI in Hi as (v & Hv & ->). apply Hw.
  apply list_elem_of_fmap. exists v. by rewrite <- Hname.
Qed.

(** ** Dicts in insertion order *)

Lemma od_setitem_fresh `{EqDecision K} {V} (d : list (K * V)) (k : K) (v : V) :
  k ∉ d.*1 -> od_setitem d k v = d ++ [(k, v)].
Proof.
  induction d as [|[k' v'] d IH]; intros Hk; [done|]. cbn [od_setitem].
  rewrite fmap_cons in Hk. apply not_elem_of_cons in Hk as [Hne Hk].
  rewrite decide_False by done. by rewrite IH.
Qed.

Lemma od_getitem_fmap `{EqDecision K} {A V} (key : A -> K) (val : A -> V)
    (l : list A) (a : A) :
  (forall x y, x ∈ l -> y ∈ l -> key x = key y -> x = y) -> a ∈ l ->
  od_getitem ((fun x => (key x, val x)) <$> l) (key a) = Ok (val a).
Proof.
  induction l as [|x l IH]; intros Hinj Ha; [by apply elem_of_nil in Ha|].
  cbn [fmap list_fmap od_getitem].
  destruct (decide (key x = key a)) as [Heq|Hne].
  - by rewrite (Hinj x a) by set_solver.
  - apply IH; [intros; apply Hinj; set_solver|].
    apply elem_of_cons in Ha as [->|?]; done.
Qed.

Lemma od_getitem_missing `{EqDecision K} {V} (d : list (K * V)) (k : K) :
  k ∉ d.*1 -> od_getitem d k = Raise KeyError.
Proof.
  induction d as [|[k' v'] d IH]; intros Hk; [done|]. cbn [od_getitem].
  rewrite fmap_cons in Hk. apply not_elem_of_cons in Hk as [Hne Hk].
  rewrite decide_False by done. by apply IH.
Qed.

Lemma foldM_app {A S} (body : S -> A -> result S) (acc : S) (l1 l2 : list A) :
  foldM body acc (l1 ++ l2) = (r <- foldM body acc l1 ;; foldM body r l2).
Proof.
  revert acc. induction l1 as [|x l1 IH]; intros acc; [done|].
  cbn [app foldM]. destruct (body acc x); [apply IH|done].
Qed.

(** ** The chain generator *)

Lemma chain_vertex_inj (i j : nat) : chain_vertex i = chain_vertex j -> i = j.
Proof. intros [= H%str_inj]. done. Qed.

Lemma chain_name_inj (i j : nat) : "v" +:+ str i = "v" +:+ str j -> i = j.
Proof. intros [= H%str_inj]. done. Qed.

Lemma str_int_of_nat (n : nat) : str_int (Z.of_nat n) = str n.
Proof. by destruct n. Qed.

Lemma chain_vertices_dict (m : nat) :
  foldl (fun vertices i =>
           od_setitem vertices ("v" +:+ str i)
             (mkSpgVertex ("v" +:+ str i) true 0))
        [] (seq 0 m)
  = (fun i => ("v" +:+ str i, chain_vertex i)) <$> seq 0 m.
Proof.
  induction m as [|m IH]; [done|].
  rewrite seq_S, foldl_app, fmap_app, IH. cbn [foldl fmap list_fmap].
  apply od_setitem_fresh. rewrite <- list_fmap_compose.
  intros (j & Hj%chain_name_inj & Hin%elem_of_seq)%list_elem_of_fmap.
  simpl in Hj. lia.
Qed.

Lemma chain_lookup (m i : nat) :
  (i < m)%nat ->
  od_getitem ((fun i => ("v" +:+ str i, chain_vertex i)) <$> seq 0 m)
             ("v" +:+ str i)
  = Ok (chain_vertex i).
Proof.
  intros Hi.
  apply (od_getitem_fmap (fun i => "v" +:+ str i) chain_vertex).
  - intros x y _ _. apply chain_name_inj.
  - apply elem_of_seq. lia.
Qed.

Lemma chain_transitions_dict (min_prob : Qc) (m n : nat) :
  (n < m)%nat ->
  foldM (fun transitions i =>
           s <- od_getitem
                  ((fun i => ("v" +:+ str i, chain_vertex i)) <$> seq 0 m)
                  ("v" +:+ str i) ;;
           nx <- od_getitem
                   ((fun i => ("v" +:+ str i, chain_vertex i)) <$> seq 0 m)
                   ("v" +:+ str (i + 1)) ;;
           z <- od_getitem
                  ((fun i => ("v" +:+ str i, chain_vertex i)) <$> seq 0 m)
                  ("v" +:+ "0") ;;
           k <- od_getitem
                  ((fun i => ("v" +:+ str i, chain_vertex i)) <$> seq 0 m)
                  ("v" +:+ str i) ;;
           Ok (od_setitem transitions (k, "next")
                 (mkSpgTransition s
                    {[ (min_prob, nx); ((1 - min_prob)%Qc, z) ]} "next")))
        [] (seq 0 n)
  = Ok ((fun i => ((chain_vertex i, "next"), chain_step min_prob i))
          <$> seq 0 n).
Proof.
  induction n as [|n IH]; intros Hn; [done|].
  rewrite seq_S, foldM_app, IH by lia. cbn [bind foldM plus].
  rewrite (chain_lookup m n) by lia. cbn [bind].
  rewrite (chain_lookup m (n + 1)) by lia. cbn [bind].
  change ("v" +:+ "0") with ("v" +:+ str 0).
  rewrite (chain_lookup m 0) by lia. cbn [bind].
  rewrite fmap_app. cbn [fmap list_fmap]. f_equal.
  rewrite od_setitem_fresh.
  - unfold chain_step. by rewrite Nat.add_1_r.
  - rewrite <- list_fmap_compose.
    intros (j & [= Hj%str_inj] & Hin%elem_of_seq)%list_elem_of_fmap. lia.
Qed.

(** The generator in closed form. *)
Lemma create_chain_spg_chain (n : nat) (min_prob : Qc) :
  create_chain_spg (Z.of_nat n) min_prob = Ok (chain n min_prob).
Proof.
  unfold create_chain_spg.
  replace (Z.to_nat (Z.of_nat n + 1)) with (S n) by lia.
  rewrite Nat2Z.id, chain_vertices_dict, str_int_of_nat.
  rewrite (chain_transitions_dict min_prob (S n) n) by lia. cbn [bind].
  rewrite (chain_lookup (S n) n) by lia. cbn [bind].
  change "v0" with ("v" +:+ str 0).
  rewrite (chain_lookup (S n) 0) by lia. cbn [bind].
  unfold chain. f_equal. f_equal.
  - unfold od_values. rewrite <- list_fmap_compose. done.
  - rewrite od_setitem_fresh.
    + unfold od_values. rewrite fmap_app, <- list_fmap_compose. done.
    + rewrite <- list_fmap_compose.
      by intros (j & [= _ ?] & _)%list_elem_of_fmap.
Qed.

Lemma chain_names (m : nat) :
  SPG.name <$> (chain_vertex <$> seq 0 m) = (fun i => "v" +:+ str i) <$> seq 0 m.
Proof. by rewrite <- list_fmap_compose. Qed.

Lemma elem_of_chain_vertices (m : nat) (v : SpgVertex) :
  v ∈ chain_vertex <$> seq 0 m <-> exists i, (i < m)%nat /\ v = chain_vertex i.
Proof.
  rewrite list_elem_of_fmap. split.
  - intros (i & -> & Hi%elem_of_seq). exists i. split; [lia|done].
  - intros (i & Hi & ->). exists i. split; [done|]. apply elem_of_seq. lia.
Qed.

Lemma chain_wf (n : nat) (min_prob : Qc) :
  (0 < min_prob)%Qc -> (min_prob < 1)%Qc -> wf_spg (chain n min_prob).
Proof.
  intros H0 H1. unfold wf_spg, chain. cbn [SPG.vertices SPG.transitions
    SPG.init_vertex]. split; [|split].
  - rewrite chain_names. apply NoDup_fmap_2; [|apply NoDup_seq].
    intros i j. apply chain_name_inj.
  - apply elem_of_chain_vertices. exists 0%nat. split; [lia|done].
  - apply Forall_app. split.
    + apply Forall_fmap, Forall_forall. intros i Hi%elem_of_seq.
      unfold wf_transition, chain_step. cbn [SPG.start_vertex SPG.end_vertices].
      split; [apply elem_of_chain_vertices; exists i; split; [lia|done]|].
      split.
      * intros pv Hpv.
        apply elem_of_union in Hpv as [Hpv|Hpv]; apply elem_of_singleton in Hpv;
          subst pv; cbn [fst snd].
        -- split; [done|]. split; [by apply Qclt_le_weak|].
           apply elem_of_chain_vertices. exists (S i). split; [lia|done].
        -- split; [qc_to_q; lra|]. split; [qc_to_q; lra|].
           apply elem_of_chain_vertices. exists 0%nat. split; [lia|done].
      * simpl SPG.end_vertices. rewrite distribution_sum_pair; [simpl; ring|].
        intros [= _ Heq%str_inj]. lia.
    + apply Forall_singleton. unfold wf_transition, chain_end.
      cbn [SPG.start_vertex SPG.end_vertices].
      split; [apply elem_of_chain_vertices; exists n; split; [lia|done]|].
      split.
      * intros pv Hpv%elem_of_singleton. subst pv. cbn [fst snd].
        split; [done|]. split; [done|].
        apply elem_of_chain_vertices. exists n. split; [lia|done].
      * simpl SPG.end_vertices. by rewrite distribution_sum_singleton.
Qed.

Lemma chain_no_collision (n : nat) (min_prob : Qc) :
  no_collision (chain n min_prob).
Proof.
  unfold no_collision, chain. cbn [SPG.vertices].
  apply Forall_forall. intros v (i & _ & ->)%elem_of_chain_vertices.
  destruct (str_digits i) as [Hdi _].
  split; [|split].
  - apply Forall_forall. intros w (j & _ & ->)%elem_of_chain_vertices.
    cbn [SPG.name chain_vertex]. rewrite string_app_assoc.
    intros [= Heq]. destruct (str_digits j) as [Hdj _].
    apply digits_no_marker in Hdj.
    by apply (no_marker_neq (str i) (str j) "") in Hdj.
  - cbn [SPG.name chain_vertex]. intros [= Heq].
    assert (Heq' : str i = "_win") by exact Heq. by rewrite Heq' in Hdi.
  - cbn [SPG.name chain_vertex]. intros [= Heq].
    assert (Heq' : str i = "_lose") by exact Heq. by rewrite Heq' in Hdi.
Qed.

(** X17. [create_chain_spg]: a negative length raises [KeyError] (the
    vertex dict is empty when the last vertex is looked up); a length
    [n >= 0] gives the vertices "v0", ..., "vn", all of Eve and of
    priority 0, with "v0" initial, and [n + 1] transitions: from every
    "vi" with [i < n] to "v(i+1)" with probability [min_prob] and to "v0"
    otherwise, and a loop on "vn".  The game has no name collisions, and
    it is well-formed when [0 < min_prob < 1]. *)
Theorem create_chain_spg_returns_the_chain length min_prob :
  (length < 0 -> create_chain_spg length min_prob = Raise KeyError) /\
  (0 <= length ->
   exists spg,
     create_chain_spg length min_prob = Ok spg /\
     SPG.vertices spg
     = (fun i => mkSpgVertex ("v" +:+ str i) true 0)
         <$> seq 0 (S (Z.to_nat length)) /\
     SPG.init_vertex spg = mkSpgVertex "v0" true 0 /\
     SPG.transitions spg
     = ((fun i =>
           mkSpgTransition (mkSpgVertex ("v" +:+ str i) true 0)
             {[ (min_prob, mkSpgVertex ("v" +:+ str (S i)) true 0);
                ((1 - min_prob)%Qc, mkSpgVertex "v0" true 0) ]} "next")
          <$> seq 0 (Z.to_nat length))
       ++ [ mkSpgTransition
              (mkSpgVertex ("v" +:+ str (Z.to_nat length)) true 0)
              {[ (1%Qc, mkSpgVertex ("v" +:+ str (Z.to_nat length)) true 0) ]}
              "end" ] /\
     no_collision spg /\
     ((0 < min_prob)%Qc -> (min_prob < 1)%Qc -> wf_spg spg)).
Proof.
  split.
  - intros Hneg. unfold create_chain_spg.
    by rewrite !Z2Nat.nonpos by lia.
  - intros Hpos. exists (chain (Z.to_nat length) min_prob).
    rewrite <- (Z2Nat.id length) at 1 by done.
    split; [apply create_chain_spg_chain|]. do 3 (split; [done|]).
    split; [apply chain_no_collision|apply chain_wf].
Qed.


(** ** The mutex generator *)

Lemma create_mutex_spg_Ok : create_mutex_spg = Ok mutex_game.
Proof.
  unfold mutex_game.
  assert (H : match create_mutex_spg with Ok _ => true | Raise _ => false end
              = true) by (vm_compute; reflexivity).
  by destruct create_mutex_spg.
Qed.

Lemma mutex_game_wf : wf_spg mutex_game.
Proof. apply (bool_decide_unpack _). vm_compute. exact I. Qed.

Lemma mutex_game_no_collision : no_collision mutex_game.
Proof. apply (bool_decide_unpack _). vm_compute. exact I. Qed.

(** X19. The mutex benchmark (lines 381-383 call [create_mutex_spg] and
    then [spg_to_ssg]).  The generator returns a well-formed game of 19
    vertices and 25 transitions without name collisions, but only 19
    distinct pairs (start vertex, action) occur among the transitions: the
    [start_vertex] and [action] of several transitions differ from the key
    they are stored under.  The reduction, which keys the copies by
    [start_vertex] and [action], therefore returns 40 vertices and only
    38 transitions, and the vertex "(N,C,1)", which is the start vertex of
    no transition, has no outgoing transition in the produced game. *)
Theorem mutex_benchmark_loses_transitions epsilon :
  admissible epsilon ->
  exists spg ssg,
    create_mutex_spg = Ok spg /\
    length (SPG.vertices spg) = 19%nat /\
    length (SPG.transitions spg) = 25%nat /\
    wf_spg spg /\ no_collision spg /\
    size (list_to_set ((fun t => (SPG.start_vertex t, SPG.action t))
                         <$> SPG.transitions spg)
          : gset (SpgVertex * string)) = 19%nat /\
    mkSpgVertex "(N,C,1)" false 3 ∈ SPG.vertices spg /\
    (forall t, t ∈ SPG.transitions spg ->
               SPG.start_vertex t ≠ mkSpgVertex "(N,C,1)" false 3) /\
    spg_to_ssg spg epsilon = Ok ssg /\
    size (SSG.vertices ssg) = 40%nat /\
    size (SSG.transitions ssg) = 38%nat /\
    SSG.vertices ssg !! "(N,C,1)" = Some (mkSsgVertex "(N,C,1)" false false) /\
    (forall act,
       SSG.transitions ssg !! (mkSsgVertex "(N,C,1)" false false, act) = None).
Proof.
  intros Heps.
  pose proof mutex_game_wf as Hwf.
  assert (Hne : SPG.transitions mutex_game ≠ [])
    by (apply (bool_decide_unpack _); vm_compute; exact I).
  assert (Hlv : length (SPG.vertices mutex_game) = 19%nat)
    by (vm_compute; reflexivity).
  assert (Hkeys :
    size (list_to_set ((fun t => (SPG.start_vertex t, SPG.action t))
                         <$> SPG.transitions mutex_game)
          : gset (SpgVertex * string)) = 19%nat)
    by (vm_compute; reflexivity).
  assert (Hin : mkSpgVertex "(N,C,1)" false 3 ∈ SPG.vertices mutex_game)
    by (apply (bool_decide_unpack _); vm_compute; exact I).
  assert (Hstart : Forall (fun t => SPG.start_vertex t
                                    ≠ mkSpgVertex "(N,C,1)" false 3)
                          (SPG.transitions mutex_game))
    by (apply (bool_decide_unpack _); vm_compute; exact I).
  rewrite Forall_forall in Hstart.
  destruct (spg_to_ssg_general mutex_game epsilon Hwf Hne Heps)
    as (alphas & V2 & nmw & nml & win & lose & _ & _ & Hssg & Htable & _).
  pose proof Htable as (Hdec & _ & _ & _ & _ & _ & Hinj & _ & _ & _ & _ & _
                        & _ & _ & _ & Hsize).
  exists mutex_game. eexists. split; [apply create_mutex_spg_Ok|].
  split; [done|]. split; [by vm_compute|]. split; [done|].
  split; [apply mutex_game_no_collision|]. do 3 (split; [done|]).
  split; [exact Hssg|]. cbn [SSG.vertices SSG.transitions].
  split; [by rewrite Hsize, Hlv|]. split.
  { by rewrite (transitions_by_size _ V2 nmw nml) , Hlv, Hkeys by done. }
  split; [exact (Hdec _ Hin)|].
  intros act.
  destruct (transitions_by _ _ _ _ _ !! _) as [t'|] eqn:E; [|done].
  exfalso.
  apply transitions_by_inv in E
    as [(v & Hv & Hk & _)|(t & Ht & Hk & _)].
  - apply (f_equal fst), (f_equal SSG.name) in Hk.
    destruct (Hinj v _ Hv Hin) as [Hn _]. by apply Hn.
  - pose proof Hwf as (Hnd & _ & Hts). rewrite Forall_forall in Hts.
    destruct (Hts t Ht) as (Hs & _).
    apply (Hstart t Ht), (name_inj (SPG.vertices mutex_game)); [done..|].
    by apply (f_equal fst), (f_equal SSG.name) in Hk.
Qed.

(** ** The random generator *)

Lemma randint_Ok (draws : nat -> nat) (a b : Z) (p : nat) :
  a <= b -> exists x, randint draws a b p = Ok (x, S p) /\ a <= x <= b.
Proof.
  intros Hab. unfold randint. rewrite (proj2 (Z.ltb_ge b a)) by lia.
  eexists. split; [done|].
  pose proof (Z.mod_pos_bound (Z.of_nat (draws p)) (b - a + 1)). lia.
Qed.

Lemma choice_Ok {A} (draws : nat -> nat) (l : list A) (p : nat) :
  l ≠ [] -> exists x, choice draws l p = Ok (x, S p) /\ x ∈ l.
Proof.
  intros Hl. unfold choice.
  destruct (lookup_lt_is_Some_2 l (draws p mod length l)%nat) as [x Hx].
  { apply Nat.mod_upper_bound. by destruct l. }
  rewrite Hx. exists x. split; [done|]. by eapply list_elem_of_lookup_2.
Qed.

Lemma Forall_od_setitem `{EqDecision K} {V} (P : V -> Prop) (d : list (K * V))
    (k : K) (v : V) :
  Forall P (od_values d) -> P v -> Forall P (od_values (od_setitem d k v)).
Proof.
  unfold od_values. induction d as [|[k' v'] d IH]; intros Hd Hv.
  - by apply Forall_singleton.
  - cbn [od_setitem]. rewrite fmap_cons in Hd.
    apply Forall_cons in Hd as [Hv' Hd].
    destruct (decide (k' = k)); rewrite fmap_cons; apply Forall_cons;
      split; auto.
Qed.

Lemma od_setitem_nonempty `{EqDecision K} {V} (d : list (K * V)) (k : K)
    (v : V) : od_setitem d k v ≠ [].
Proof. destruct d as [|[k' v'] d]; [done|]. simpl. by destruct (decide _). Qed.

Lemma random_name_inj (i j : nat) : "v_" +:+ str i = "v_" +:+ str j -> i = j.
Proof. intros [= H%str_inj]. done. Qed.

(** The vertex dict of a random game. *)
Lemma random_vertices_spec (draws : nat -> nat) (number_of_priorities : Z)
    (m : nat) :
  1 <= number_of_priorities ->
  forall p, exists d p',
    foldM (random_vertex draws number_of_priorities) ([], p) (seq 0 m)
      = Ok (d, p') /\
    d.*1 = (fun i => "v_" +:+ str i) <$> seq 0 m /\
    Forall (fun kv => SPG.name kv.2 = kv.1 /\
                      0 <= SPG.priority kv.2 < number_of_priorities) d.
Proof.
  intros Hnp p. induction m as [|m IH].
  - exists [], p. by repeat split.
  - destruct IH as (d & p' & Hfold & Hkeys & Hall).
    rewrite seq_S, foldM_app, Hfold. cbn [bind foldM plus random_vertex].
    destruct (randint_Ok draws 0 1 p') as (e & -> & _); [lia|]. cbn [bind].
    destruct (randint_Ok draws 0 (number_of_priorities - 1) (S p'))
      as (pr & -> & Hpr); [lia|]. cbn [bind].
    eexists _, _. split; [done|].
    rewrite od_setitem_fresh.
    2:{ rewrite Hkeys.
        intros (j & Hj%random_name_inj & Hin%elem_of_seq)%list_elem_of_fmap.
        lia. }
    split.
    + by rewrite fmap_app, Hkeys, fmap_app.
    + apply Forall_app. split; [done|]. apply Forall_singleton.
      cbn [fst snd SPG.name SPG.priority]. split; [done|lia].
Qed.

Lemma random_transition_shape (draws : nat -> nat)
    (vertices : list (string * SpgVertex)) (vertex : SpgVertex)
    (T : list ((SpgVertex * string) * SpgTransition)) (p i : nat) :
  od_values vertices ≠ [] -> vertex ∈ od_values vertices ->
  Forall (random_shape (od_values vertices)) (od_values T) ->
  exists T' p',
    random_transition draws vertices vertex (T, p) i = Ok (T', p') /\
    Forall (random_shape (od_values vertices)) (od_values T').
Proof.
  intros Hne Hv HT. unfold random_transition.
  destruct (randint_Ok draws 0 1 p) as (c & -> & _); [lia|]. cbn [bind].
  destruct (c =? 1).
  - destruct (choice_Ok draws (od_values vertices) (S p) Hne) as (w & -> & Hw).
    cbn [bind]. eexists _, _. split; [done|].
    apply Forall_od_setitem; [done|]. split; [done|]. left. by exists w.
  - destruct (choice_Ok draws (od_values vertices) (S p) Hne)
      as (w1 & -> & Hw1). cbn [bind].
    destruct (choice_Ok draws (od_values vertices) (S (S p)) Hne)
      as (w2 & -> & Hw2). cbn [bind].
    eexists _, _. split; [done|].
    apply Forall_od_setitem; [done|]. split; [done|]. right. by exists w1, w2.
Qed.

Lemma random_shape_sum (vs : list SpgVertex) (t : SpgTransition) :
  random_shape vs t ->
  distribution_sum (SPG.end_vertices t) = 1%Qc \/
  distribution_sum (SPG.end_vertices t) = Q2Qc (1 # 2).
Proof.
  intros (_ & [(w & _ & ->)|(w1 & w2 & _ & _ & ->)]).
  - left. by rewrite distribution_sum_singleton.
  - destruct (decide (w1 = w2)) as [->|Hne].
    + right.
      assert (Hset : ({[ (Q2Qc (1 # 2), w2); (Q2Qc (1 # 2), w2) ]}
                      : gset (Qc * SpgVertex)) = {[ (Q2Qc (1 # 2), w2) ]})
        by set_solver.
      by rewrite Hset, distribution_sum_singleton.
    + left. rewrite distribution_sum_pair by congruence.
      by apply Qc_is_canon.
Qed.

(** X20. [create_random_spg] on its arguments: without vertices
    ([number_of_vertices <= 0]) the choice of the initial vertex raises
    [IndexError]; with a vertex and without priorities
    ([number_of_priorities <= 0]) the draw of the first priority raises
    [ValueError].  Both hold whatever is drawn. *)
Theorem create_random_spg_rejects_empty_ranges (draws : nat -> nat)
    (number_of_vertices number_of_outgoing_transitions
       number_of_priorities : Z) :
  (number_of_vertices <= 0 ->
   create_random_spg draws number_of_vertices
     number_of_outgoing_transitions number_of_priorities
   = Raise IndexError) /\
  (1 <= number_of_vertices -> number_of_priorities <= 0 ->
   create_random_spg draws number_of_vertices
     number_of_outgoing_transitions number_of_priorities
   = Raise ValueError).
Proof.
  split.
  - intros Hnv. unfold create_random_spg.
    by rewrite (Z2Nat.nonpos number_of_vertices) by lia.
  - intros Hnv Hnp. unfold create_random_spg.
    destruct (Z.to_nat number_of_vertices) as [|m] eqn:Hm; [lia|].
    cbn [seq foldM random_vertex].
    destruct (randint_Ok draws 0 1 0) as (e & -> & _); [lia|]. cbn [bind].
    unfold randint at 1.
    by rewrite (proj2 (Z.ltb_lt (number_of_priorities - 1) 0)) by lia.
Qed.

(** X21. With at least one vertex and one priority [create_random_spg]
    returns, whatever is drawn: the vertices are named "v_0", "v_1", ...
    (one per index, distinct names), their priorities lie below
    [number_of_priorities], the initial vertex is one of them, and every
    transition starts at a vertex of the game and has either one branch of
    probability 1 or two branches of probability 1/2, to vertices of the
    game.  Its probabilities sum to 1 or, when the two targets coincide,
    to 1/2. *)
Theorem create_random_spg_shape (draws : nat -> nat)
    (number_of_vertices number_of_outgoing_transitions
       number_of_priorities : Z) :
  1 <= number_of_vertices -> 1 <= number_of_priorities ->
  exists spg,
    create_random_spg draws number_of_vertices
      number_of_outgoing_transitions number_of_priorities = Ok spg /\
    SPG.name <$> SPG.vertices spg
    = (fun i => "v_" +:+ str i) <$> seq 0 (Z.to_nat number_of_vertices) /\
    NoDup (SPG.name <$> SPG.vertices spg) /\
    (forall v, v ∈ SPG.vertices spg ->
               0 <= SPG.priority v < number_of_priorities) /\
    SPG.init_vertex spg ∈ SPG.vertices spg /\
    forall t, t ∈ SPG.transitions spg ->
      SPG.start_vertex t ∈ SPG.vertices spg /\
      ((exists w, w ∈ SPG.vertices spg /\
                  SPG.end_vertices t = {[ (1%Qc, w) ]}) \/
       (exists w1 w2, w1 ∈ SPG.vertices spg /\ w2 ∈ SPG.vertices spg /\
          SPG.end_vertices t
          = {[ (Q2Qc (1 # 2), w1); (Q2Qc (1 # 2), w2) ]})) /\
      (distribution_sum (SPG.end_vertices t) = 1%Qc \/
       distribution_sum (SPG.end_vertices t) = Q2Qc (1 # 2)).
Proof.
  intros Hnv Hnp. unfold create_random_spg.
  destruct (random_vertices_spec draws number_of_priorities
              (Z.to_nat number_of_vertices) Hnp 0%nat)
    as (d & p & -> & Hkeys & Hall). cbn [bind].
  assert (Hnames : SPG.name <$> od_values d = d.*1).
  { unfold od_values. clear -Hall.
    induction Hall as [|[k v] d [Hk _] _ IH]; [done|].
    rewrite !fmap_cons, IH. cbn [fst snd] in *. by rewrite Hk. }
  assert (Hne : od_values d ≠ []).
  { intros He. rewrite He in Hnames. symmetry in Hnames.
    rewrite Hkeys in Hnames. apply fmap_nil_inv in Hnames.
    destruct (Z.to_nat number_of_vertices) eqn:E; [lia|done]. }
  destruct (foldM_inv
              (fun st => Forall (random_shape (od_values d)) (od_values st.1))
              (fun st vertex =>
                 foldM (random_transition draws d vertex) st
                   (seq 0 (Z.to_nat number_of_outgoing_transitions)))
              ([], p) (od_values d))
    as ([T p'] & -> & HT).
  { by apply Forall_nil. }
  { intros st v Hv Hst.
    apply (foldM_inv
             (fun st => Forall (random_shape (od_values d)) (od_values st.1)));
      [done|].
    intros [T0 p0] i _ HT0.
    destruct (random_transition_shape draws d v T0 p0 i Hne Hv HT0)
      as (T' & p' & -> & HT').
    by exists (T', p'). }
  cbn [bind fst] in *.
  destruct (choice_Ok draws (od_values d) p' Hne) as (iv & -> & Hiv).
  cbn [bind]. eexists. split; [done|].
  cbn [SPG.vertices SPG.transitions SPG.init_vertex].
  split; [by rewrite Hnames|]. split.
  { rewrite Hnames, Hkeys. apply NoDup_fmap_2; [|apply NoDup_seq].
    intros i j. apply random_name_inj. }
  split.
  { intros v (kv & -> & Hkv)%list_elem_of_fmap.
    rewrite Forall_forall in Hall. by destruct (Hall kv Hkv). }
  split; [done|].
  intros t Ht. rewrite Forall_forall in HT. pose proof (HT t Ht) as Hshape.
  split; [by destruct Hshape|]. split; [by destruct Hshape|].
  by apply (random_shape_sum (od_values d)).
Qed.

(** The draws that are all 0: every vertex belongs to Adam and has
    priority 0, every transition has two branches, and every choice falls
    on the first vertex. *)
Lemma zero_draws_transition (vertices : list (string * SpgVertex))
    (v0 vertex : SpgVertex) (T : list ((SpgVertex * string) * SpgTransition))
    (p i : nat) :
  od_values vertices !! 0%nat = Some v0 ->
  Forall (fun t => SPG.end_vertices t = {[ (Q2Qc (1 # 2), v0) ]})
         (od_values T) ->
  exists T' p',
    random_transition (fun _ => 0%nat) vertices vertex (T, p) i = Ok (T', p') /\
    T' ≠ [] /\
    Forall (fun t => SPG.end_vertices t = {[ (Q2Qc (1 # 2), v0) ]})
           (od_values T').
Proof.
  intros Hv0 HT. unfold random_transition, randint, choice.
  cbn [Z.ltb Z.compare bind Z.of_nat Z.add Z.sub Z.opp Z.modulo Z.div_eucl
       Z.eqb].
  assert (H0 : (0 mod length (od_values vertices))%nat = 0%nat)
    by apply Nat.Div0.mod_0_l.
  rewrite H0, Hv0. cbn [bind].
  eexists _, _. split; [done|]. split; [apply od_setitem_nonempty|].
  apply Forall_od_setitem; [done|]. cbn [SPG.end_vertices]. set_solver.
Qed.

(** X22. [create_random_spg] can return a game that is not well-formed:
    for all sizes (at least one vertex, one transition per vertex and one
    priority) there are draws for which the two targets of every
    transition coincide; the set literal of line 337 then keeps one branch
    of probability 1/2, so that every distribution of the game sums to
    1/2. *)
Theorem create_random_spg_can_lose_probability
    (number_of_vertices number_of_outgoing_transitions
       number_of_priorities : Z) :
  1 <= number_of_vertices -> 1 <= number_of_outgoing_transitions ->
  1 <= number_of_priorities ->
  exists draws spg,
    create_random_spg draws number_of_vertices
      number_of_outgoing_transitions number_of_priorities = Ok spg /\
    SPG.transitions spg ≠ [] /\
    (forall t, t ∈ SPG.transitions spg ->
       distribution_sum (SPG.end_vertices t) = Q2Qc (1 # 2)) /\
    ¬ wf_spg spg.
Proof.
  intros Hnv Hnk Hnp. exists (fun _ => 0%nat).
  unfold create_random_spg.
  destruct (random_vertices_spec (fun _ => 0%nat) number_of_priorities
              (Z.to_nat number_of_vertices) Hnp 0%nat)
    as (d & p & -> & Hkeys & _). cbn [bind].
  destruct (od_values d) as [|v0 vs] eqn:Hvs.
  { exfalso. unfold od_values in Hvs. apply fmap_nil_inv in Hvs. subst d.
    symmetry in Hkeys. apply fmap_nil_inv in Hkeys.
    destruct (Z.to_nat number_of_vertices) eqn:E; [lia|done]. }
  assert (Hv0 : od_values d !! 0%nat = Some v0) by (by rewrite Hvs).
  set (P := fun st : list ((SpgVertex * string) * SpgTransition) * nat =>
              st.1 ≠ [] /\
              Forall (fun t => SPG.end_vertices t = {[ (Q2Qc (1 # 2), v0) ]})
                     (od_values st.1)).
  assert (Hinner : forall v T p0 l,
    Forall (fun t => SPG.end_vertices t = {[ (Q2Qc (1 # 2), v0) ]})
           (od_values T) ->
    (T ≠ [] \/ l ≠ []) ->
    exists st, foldM (random_transition (fun _ => 0%nat) d v) (T, p0) l = Ok st
               /\ P st).
  { intros v T p0 l. revert T p0. induction l as [|i l IH]; intros T p0 HT Hor.
    - exists (T, p0). split; [done|]. split; [|done]. by destruct Hor.
    - cbn [foldM].
      destruct (zero_draws_transition d v0 v T p0 i Hv0 HT)
        as (T' & p' & -> & Hne' & HT').
      cbn [bind]. apply IH; [done|by left]. }
  assert (Hnk' : seq 0 (Z.to_nat number_of_outgoing_transitions) ≠ []).
  { destruct (Z.to_nat number_of_outgoing_transitions) eqn:E; [lia|done]. }
  cbn [foldM].
  destruct (Hinner v0 [] p _ (Forall_nil_2 _) (or_intror Hnk'))
    as ([T1 p1] & -> & HP1).
  cbn [bind].
  destruct (foldM_inv P
              (fun st vertex =>
                 foldM (random_transition (fun _ => 0%nat) d vertex) st
                   (seq 0 (Z.to_nat number_of_outgoing_transitions)))
              (T1, p1) vs) as ([T p'] & -> & [HTne HT]); [done| |].
  { intros [T0 p0] v _ [Hne0 HT0]. apply Hinner; [done|by left]. }
  cbn [bind fst] in *.
  unfold choice. rewrite Nat.Div0.mod_0_l. cbn [lookup list_lookup bind].
  eexists. split; [done|].
  cbn [SPG.transitions].
  assert (Hsum : forall t, t ∈ od_values T ->
            distribution_sum (SPG.end_vertices t) = Q2Qc (1 # 2)).
  { intros t Ht. rewrite Forall_forall in HT.
    by rewrite (HT t Ht), distribution_sum_singleton. }
  split.
  { unfold od_values. by destruct T. }
  split; [done|].
  intros (_ & _ & Hts). cbn [SPG.transitions] in Hts.
  destruct (od_values T) as [|t ts] eqn:HvT.
  { unfold od_values in HvT. apply fmap_nil_inv in HvT. done. }
  apply Forall_cons in Hts as [(_ & _ & Hone) _].
  rewrite Hsum in Hone by set_solver. discriminate.
Qed.

(** ** The further properties at concrete games *)


Lemma tiny_game_wf : wf_spg tiny_game.
Proof. apply (bool_decide_unpack _). vm_compute. exact I. Qed.

Lemma marked_game_wf : wf_spg marked_game.
Proof. apply (bool_decide_unpack _). vm_compute. exact I. Qed.

Lemma twice_game_wf : wf_spg twice_game.
Proof. apply (bool_decide_unpack _). vm_compute. exact I. Qed.

Lemma cap_below_one_raises_ValueError_witness :
  0 < 1 /\ max_denom_and_min_prob rank_game 0 = Raise ValueError.
Proof.
  split; [lia|].
  exact (proj1 (cap_below_one_raises_ValueError rank_game None 0 ltac:(lia))).
Defined.

Lemma analyzer_result_within_bounds_witness :
  wf_spg rank_game /\ SPG.transitions rank_game ≠ [] /\
  exists m M, max_denom_and_min_prob rank_game 10000 = Ok (m, M) /\
              1 <= M <= 10000.
Proof.
  pose proof rank_game_wf as Hwf.
  assert (Hne : SPG.transitions rank_game ≠ []) by discriminate.
  do 2 (split; [assumption|]).
  destruct (analyzer_result_within_bounds rank_game 10000 Hwf Hne ltac:(lia))
    as (m & M & H & _ & _ & HM & _).
  exists m, M. split; [exact H|exact HM].
Defined.

Lemma epsilon_mode_divides_by_zero_at_0_4_8_witness :
  wf_spg rank_game /\ SPG.transitions rank_game ≠ [] /\
  compute_alphas_for_spg rank_game (Some (Qc_of_Z 8)) 10000
    = Raise ZeroDivisionError.
Proof.
  pose proof rank_game_wf as Hwf.
  assert (Hne : SPG.transitions rank_game ≠ []) by discriminate.
  do 2 (split; [assumption|]).
  apply (proj1 (epsilon_mode_divides_by_zero_at_0_4_8 rank_game (Qc_of_Z 8)
                  10000 Hwf Hne ltac:(lia))).
  right. right. reflexivity.
Defined.

Lemma sound_mode_alphas_at_most_one_eighth_witness :
  wf_spg rank_game /\ SPG.transitions rank_game ≠ [] /\
  exists alphas, compute_alphas_for_spg rank_game None 10000 = Ok alphas.
Proof.
  pose proof rank_game_wf as Hwf.
  assert (Hne : SPG.transitions rank_game ≠ []) by discriminate.
  do 2 (split; [assumption|]).
  destruct (sound_mode_alphas_at_most_one_eighth rank_game 10000 Hwf Hne
              ltac:(lia)) as (alphas & H & _).
  exists alphas. exact H.
Defined.



Lemma tiny_game_has_tiny_probability :
  exists p, occurs tiny_game p /\ (p * Qc_of_Z (2 * 10000) ≤ 1)%Qc.
Proof.
  exists (Q2Qc (1 # 30000)). split.
  - eexists _, loop_v. split; [apply list_elem_of_here|].
    cbn [SPG.end_vertices]. set_solver.
  - apply (bool_decide_unpack _). vm_compute. exact I.
Qed.

Lemma tiny_probability_zeroes_all_alphas_witness :
  wf_spg tiny_game /\ SPG.transitions tiny_game ≠ [] /\
  (exists p, occurs tiny_game p /\ (p * Qc_of_Z (2 * 10000) ≤ 1)%Qc) /\
  exists alphas,
    compute_alphas_for_spg tiny_game None 10000 = Ok alphas /\
    forall q a, alphas !! q = Some a -> a = 0%Qc.
Proof.
  pose proof tiny_game_wf as Hwf.
  assert (Hne : SPG.transitions tiny_game ≠ []) by discriminate.
  do 2 (split; [assumption|]). split; [exact tiny_game_has_tiny_probability|].
  destruct (tiny_probability_zeroes_all_alphas tiny_game None 10000 Hwf Hne
              ltac:(lia) I tiny_game_has_tiny_probability)
    as (alphas & _ & H & Hzero).
  exists alphas. split; [exact H|exact Hzero].
Defined.


Lemma vertex_count_despite_collisions_witness :
  wf_spg sink_named_game /\ SPG.transitions sink_named_game ≠ [] /\
  exists ssg,
    spg_to_ssg sink_named_game None = Ok ssg /\
    size (SSG.vertices ssg) = 4%nat.
Proof.
  pose proof sink_named_game_wf as Hwf.
  assert (Hne : SPG.transitions sink_named_game ≠ []) by discriminate.
  do 2 (split; [assumption|]).
  destruct (vertex_count_despite_collisions sink_named_game None Hwf Hne I)
    as (ssg & H & Hsize & _).
  exists ssg. split; [exact H|exact Hsize].
Defined.

Lemma produced_game_is_closed_witness :
  wf_spg marked_game /\ SPG.transitions marked_game ≠ [] /\
  exists ssg, spg_to_ssg marked_game None = Ok ssg.
Proof.
  pose proof marked_game_wf as Hwf.
  assert (Hne : SPG.transitions marked_game ≠ []) by discriminate.
  do 2 (split; [assumption|]).
  destruct (produced_game_is_closed marked_game None Hwf Hne I)
    as (ssg & H & _).
  exists ssg. exact H.
Defined.

Lemma one_target_and_absorbing_sinks_witness :
  wf_spg sink_named_game /\ SPG.transitions sink_named_game ≠ [] /\
  exists ssg nmw,
    spg_to_ssg sink_named_game None = Ok ssg /\
    SSG.vertices ssg !! nmw = Some (mkSsgVertex nmw true true).
Proof.
  pose proof sink_named_game_wf as Hwf.
  assert (Hne : SPG.transitions sink_named_game ≠ []) by discriminate.
  do 2 (split; [assumption|]).
  destruct (one_target_and_absorbing_sinks sink_named_game None Hwf Hne I)
    as (ssg & nmw & nml & H & Hw & _).
  exists ssg, nmw. split; [exact H|exact Hw].
Defined.

Lemma intermediate_vertices_are_renamed_apart_witness :
  wf_spg marked_game /\ SPG.transitions marked_game ≠ [] /\
  exists ssg,
    spg_to_ssg marked_game None = Ok ssg /\
    SSG.vertices ssg !! SSG.name (intermediate_of marked_game marked_a)
    = Some (intermediate_of marked_game marked_a).
Proof.
  pose proof marked_game_wf as Hwf.
  assert (Hne : SPG.transitions marked_game ≠ []) by discriminate.
  do 2 (split; [assumption|]).
  destruct (intermediate_vertices_are_renamed_apart marked_game None Hwf Hne I)
    as (ssg & H & Hall).
  exists ssg. split; [exact H|].
  apply (Hall marked_a). apply list_elem_of_here.
Defined.

Lemma alpha_transition_reads_literal_sink_key_witness :
  wf_spg sink_named_game /\ SPG.transitions sink_named_game ≠ [] /\
  exists alphas ssg,
    compute_alphas_for_spg sink_named_game None 10000 = Ok alphas /\
    spg_to_ssg sink_named_game None = Ok ssg.
Proof.
  pose proof sink_named_game_wf as Hwf.
  assert (Hne : SPG.transitions sink_named_game ≠ []) by discriminate.
  do 2 (split; [assumption|]).
  destruct (alpha_transition_reads_literal_sink_key sink_named_game None
              Hwf Hne I) as (alphas & ssg & Hc & H & _).
  exists alphas, ssg. split; [exact Hc|exact H].
Defined.

Lemma copied_transition_last_assignment_wins_witness :
  wf_spg twice_game /\ SPG.transitions twice_game ≠ [] /\
  exists ssg, spg_to_ssg twice_game None = Ok ssg.
Proof.
  pose proof twice_game_wf as Hwf.
  assert (Hne : SPG.transitions twice_game ≠ []) by discriminate.
  do 2 (split; [assumption|]).
  destruct (copied_transition_last_assignment_wins twice_game None Hwf Hne I)
    as (ssg & H & _).
  exists ssg. exact H.
Defined.

Lemma transition_count_witness :
  wf_spg twice_game /\ SPG.transitions twice_game ≠ [] /\
  exists ssg,
    spg_to_ssg twice_game None = Ok ssg /\
    (size (SSG.transitions ssg) <= 2 + 3)%nat.
Proof.
  pose proof twice_game_wf as Hwf.
  assert (Hne : SPG.transitions twice_game ≠ []) by discriminate.
  do 2 (split; [assumption|]).
  destruct (transition_count twice_game None Hwf Hne I)
    as (ssg & H & _ & Hle).
  exists ssg. split; [exact H|exact Hle].
Defined.

Lemma sound_mode_distributions_sum_to_one_witness :
  wf_spg sink_named_game /\ SPG.transitions sink_named_game ≠ [] /\
  exists ssg,
    spg_to_ssg sink_named_game None = Ok ssg /\
    forall k t, SSG.transitions ssg !! k = Some t ->
                distribution_sum (SSG.end_vertices t) = 1%Qc.
Proof.
  pose proof sink_named_game_wf as Hwf.
  assert (Hne : SPG.transitions sink_named_game ≠ []) by discriminate.
  do 2 (split; [assumption|]).
  exact (sound_mode_distributions_sum_to_one sink_named_game Hwf Hne).
Defined.

Lemma distribution_sum_is_one_unless_alpha_is_one_half_witness :
  wf_spg sink_named_game /\ SPG.transitions sink_named_game ≠ [] /\
  admissible (Some (Q2Qc 2)) /\
  exists alphas ssg,
    compute_alphas_for_spg sink_named_game (Some (Q2Qc 2)) 10000 = Ok alphas /\
    spg_to_ssg sink_named_game (Some (Q2Qc 2)) = Ok ssg.
Proof.
  pose proof sink_named_game_wf as Hwf.
  assert (Hne : SPG.transitions sink_named_game ≠ []) by discriminate.
  assert (Heps : admissible (Some (Q2Qc 2)))
    by (apply (bool_decide_unpack _); vm_compute; exact I).
  do 3 (split; [assumption|]).
  destruct (distribution_sum_is_one_unless_alpha_is_one_half sink_named_game
              (Some (Q2Qc 2)) Hwf Hne Heps) as (alphas & ssg & Hc & H & _).
  exists alphas, ssg. split; [exact Hc|exact H].
Defined.

Lemma reference_outside_the_game_raises_KeyError_witness :
  NoDup (SPG.name <$> SPG.vertices dangling_game) /\
  SPG.name (SPG.init_vertex dangling_game)
    ∉ SPG.name <$> SPG.vertices dangling_game /\
  graph_transformer dangling_game ∅ = Raise KeyError.
Proof.
  assert (Hnd : NoDup (SPG.name <$> SPG.vertices dangling_game))
    by (apply (bool_decide_unpack _); vm_compute; exact I).
  assert (Hout : SPG.name (SPG.init_vertex dangling_game)
                   ∉ SPG.name <$> SPG.vertices dangling_game)
    by (apply (bool_decide_unpack _); vm_compute; exact I).
  do 2 (split; [assumption|]).
  exact (reference_outside_the_game_raises_KeyError dangling_game ∅ Hnd
           (or_introl Hout)).
Defined.

Lemma create_chain_spg_returns_the_chain_witness :
  -1 < 0 /\ create_chain_spg (-1) (Q2Qc (1 # 2)) = Raise KeyError /\
  0 <= 2 /\ exists spg, create_chain_spg 2 (Q2Qc (1 # 2)) = Ok spg.
Proof.
  split; [lia|]. split.
  - exact (proj1 (create_chain_spg_returns_the_chain (-1) (Q2Qc (1 # 2)))
             ltac:(lia)).
  - split; [lia|].
    destruct (proj2 (create_chain_spg_returns_the_chain 2 (Q2Qc (1 # 2)))
                ltac:(lia)) as (spg & H & _).
    exists spg. exact H.
Defined.


Lemma mutex_benchmark_loses_transitions_witness :
  admissible None /\
  exists spg ssg,
    create_mutex_spg = Ok spg /\ spg_to_ssg spg None = Ok ssg /\
    size (SSG.transitions ssg) = 38%nat.
Proof.
  split; [exact I|].
  destruct (mutex_benchmark_loses_transitions None I)
    as (spg & ssg & Hg & _ & _ & _ & _ & _ & _ & _ & H & _ & Hsize & _).
  exists spg, ssg. split; [exact Hg|]. split; [exact H|exact Hsize].
Defined.

Lemma create_random_spg_rejects_empty_ranges_witness :
  0 <= 0 /\ create_random_spg (fun _ => 0%nat) 0 1 1 = Raise IndexError /\
  1 <= 1 /\ create_random_spg (fun _ => 0%nat) 1 1 0 = Raise ValueError.
Proof.
  split; [lia|]. split.
  - exact (proj1 (create_random_spg_rejects_empty_ranges (fun _ => 0%nat)
                    0 1 1) ltac:(lia)).
  - split; [lia|].
    exact (proj2 (create_random_spg_rejects_empty_ranges (fun _ => 0%nat)
                    1 1 0) ltac:(lia) ltac:(lia)).
Defined.

Lemma create_random_spg_shape_witness :
  1 <= 2 /\ 1 <= 3 /\
  exists spg, create_random_spg (fun i => i) 2 2 3 = Ok spg.
Proof.
  split; [lia|]. split; [lia|].
  destruct (create_random_spg_shape (fun i => i) 2 2 3 ltac:(lia) ltac:(lia))
    as (spg & H & _).
  exists spg. exact H.
Defined.

Lemma create_random_spg_can_lose_probability_witness :
  1 <= 1 /\
  exists draws spg,
    create_random_spg draws 1 1 1 = Ok spg /\ ¬ wf_spg spg.
Proof.
  split; [lia|].
  destruct (create_random_spg_can_lose_probability 1 1 1 ltac:(lia) ltac:(lia)
              ltac:(lia)) as (draws & spg & H & _ & _ & Hnwf).
  exists draws, spg. split; [exact H|exact Hnwf].
Defined.
